(** * nano_tree: a static k-d tree (src/nano_tree/kd_tree.hpp)

    Shallow embedding of the [KdTree] class template and of its three search
    visitors, followed by the properties of construction and search.

    - [Index] is instantiated at a signed integer type that is wide enough
      for every value computed here, and is modelled by [Z].
    - [Scalar] is instantiated at a signed integer type of the range
      [-Scalar_max - 1, Scalar_max], modelled by [Z] with its wrap-around
      written out ([Scalar_wrap]); [std::numeric_limits<Scalar>::max()] is
      the parameter [Scalar_max].
    - [Metric] is the default, [MetricL2].
    - [std::vector] is a [list]; [operator[]] outside the vector is the
      fault [OutOfRange].
    - [Node*] is an index into the node arena [nodes_].
    - The recursive member functions take the depth they may recurse to
      ([fuel]); a recursion that needs more ends in [OutOfFuel]. *)

From Stdlib Require Import ZArith Lia.
From stdpp Require Import base list sorting.

Local Open Scope Z_scope.

(** ** Faults and results *)

Inductive Fault : Set :=
| OutOfFuel        (* the recursion did not finish within the given depth *)
| OutOfRange       (* operator[] or an iterator outside the vector *)
| LengthError      (* std::vector::resize with a negative Index *)
| AssertionFailed. (* assert(...) *)

Inductive Res (A : Type) : Type :=
| Ok (a : A)
| Err (f : Fault).
Arguments Ok {A} a.
Arguments Err {A} f.

Definition res_bind {A B} (m : Res A) (k : A → Res B) : Res B :=
  match m with
  | Ok a => k a
  | Err f => Err f
  end.

Declare Scope res_scope.
Delimit Scope res_scope with res.
Notation "'do' x <- m ; k" := (res_bind m (fun x => k))
  (at level 10, x name, m at level 100, k at level 200) : res_scope.
Notation "'do' ' pat <- m ; k" := (res_bind m (fun pat => k))
  (at level 10, pat pattern, m at level 100, k at level 200) : res_scope.

(** ** std::vector *)

Section vector.
Context {A : Type}.

(** [v[i]] as an rvalue. *)
Definition vec_at (v : list A) (i : Z) : Res A :=
  if decide (0 ≤ i) then
    match v !! Z.to_nat i with
    | Some x => Ok x
    | None => Err OutOfRange
    end
  else Err OutOfRange.

(** [v[i] = x]. *)
Definition vec_store (v : list A) (i : Z) (x : A) : Res (list A) :=
  if decide (0 ≤ i < Z.of_nat (length v)) then Ok (<[Z.to_nat i := x]> v)
  else Err OutOfRange.

(** [v.resize(n)]: new elements are value-initialised to [dflt]. *)
Definition vec_resize (v : list A) (n : Z) (dflt : A) : Res (list A) :=
  if decide (0 ≤ n) then Ok (resize (Z.to_nat n) dflt v)
  else Err LengthError.

(** The elements at the positions [first, last). *)
Definition slice (v : list A) (first last : Z) : list A :=
  take (Z.to_nat (last - first)) (drop (Z.to_nat first) v).
End vector.

(** ** External collaborators *)

(** The point adapter: [num_points()], [num_dimensions()] and
    [operator()(idx, dim)]. *)
Record Points : Type := {
  num_points : Z;
  num_dimensions : Z;
  coord : Z → Z → Z
}.

(** A query point; [points_(p, i)] is [p i]. *)
Definition P : Type := Z → Z.

(** [std::numeric_limits<Scalar>::max()]. *)
Class ScalarLimits : Type := { Scalar_max : Z }.

(** Scalar arithmetic: a difference, product or sum that leaves the range
    [-Scalar_max - 1, Scalar_max] wraps around, as signed overflow does on
    the usual targets. *)
Definition Scalar_wrap `{ScalarLimits} (x : Z) : Z :=
  (x + (Scalar_max + 1)) `mod` (2 * (Scalar_max + 1)) - (Scalar_max + 1).

(** What an [Index] holds that is read before anything was stored in it:
    some value, not known to the program. *)
Class Indeterminate : Type := { indeterminate_Index : Z }.

(** [std::nth_element(first, nth, last, comp)] on the elements of the range;
    [n] is [nth - first]. *)
Class NthElement : Type := { nth_element : (Z → Z → bool) → nat → list Z → list Z }.

(** What the C++ standard promises of [std::nth_element] when [comp] orders
    by a key: the range is permuted, no element before [nth] has a larger
    key than the one at [nth], and no element from [nth] on has a smaller. *)
Class NthElementSpec (E : NthElement) : Prop := {
  nth_element_perm comp n l : nth_element comp n l ≡ₚ l;
  nth_element_pivot (key : Z → Z) n l z i x :
    nth_element (λ a b, bool_decide (key a < key b)) n l !! n = Some z →
    nth_element (λ a b, bool_decide (key a < key b)) n l !! i = Some x →
    ((i < n)%nat → key x ≤ key z) ∧ ((n ≤ i)%nat → key z ≤ key x)
}.

(** A full sort is one implementation of [std::nth_element]. *)
Definition sort_nth_element : NthElement :=
  {| nth_element comp _ l :=
       @merge_sort Z (λ a b, comp b a = false) (λ a b, decide (comp b a = false)) l |}.

(** ** Search visitors (namespace internal) *)

Module internal.

(** The interface the traversal uses: [operator()(idx, d)] and [max()]. *)
Class Visitor (V : Type) : Type := {
  visit : V → Z → Z → Res V;
  v_max : V → Res Z
}.

(** *** SearchNn *)
Record SearchNn : Type := mkSearchNn {
  idx_ : option Z;   (* not initialised by the constructor *)
  min_ : Z
}.

Definition SearchNn_ctor `{ScalarLimits} : SearchNn :=
  {| idx_ := None; min_ := Scalar_max |}.

Definition SearchNn_visit (v : SearchNn) (idx d : Z) : SearchNn :=
  {| idx_ := Some idx; min_ := d |}.

Definition SearchNn_max (v : SearchNn) : Z := min_ v.

(** [nearest()]. Before the first report [idx_] was never written, and
    the pair holds whatever the member held. *)
Definition nearest `{Indeterminate} (v : SearchNn) : Z * Z :=
  (match idx_ v with
   | Some idx => idx
   | None => indeterminate_Index
   end,
   min_ v).

#[global] Instance SearchNn_Visitor : Visitor SearchNn :=
  {| visit v idx d := Ok (SearchNn_visit v idx d);
     v_max v := Ok (SearchNn_max v) |}.

(** *** SearchKnn *)
Record SearchKnn : Type := mkSearchKnn {
  k_ : Z;
  count_ : Z;
  knn_ : list (Z * Z)   (* the caller's vector, held by reference *)
}.

Definition SearchKnn_ctor `{ScalarLimits} (k : Z) (knn : list (Z * Z))
  : Res SearchKnn :=
  (do knn <- vec_resize knn k (0, 0);
   do last <- vec_at knn (k - 1);
   do knn <- vec_store knn (k - 1) (last.1, Scalar_max);
   Ok {| k_ := k; count_ := 0; knn_ := knn |})%res.

(** The destructor hands the vector back, cut to the neighbours found. *)
Definition SearchKnn_dtor (v : SearchKnn) : Res (list (Z * Z)) :=
  vec_resize (knn_ v) (count_ v) (0, 0).

(** The loop of [InsertSorted]; it runs at most [i] times, [n] counts the
    iterations that are left. Returns the final [i] and the vector. *)
Fixpoint InsertSorted_loop (n : nat) (i d : Z) (knn : list (Z * Z))
  : Res (Z * list (Z * Z)) :=
  match n with
  | O => Ok (i, knn)
  | S n =>
      if decide (i > 0) then
        (do prev <- vec_at knn (i - 1);
         if decide (prev.2 > d) then
           do knn <- vec_store knn i prev;
           InsertSorted_loop n (i - 1) d knn
         else Ok (i, knn))%res
      else Ok (i, knn)
  end.

Definition InsertSorted (v : SearchKnn) (idx d : Z) : Res SearchKnn :=
  (do '(i, knn) <- InsertSorted_loop (Z.to_nat (count_ v - 1)) (count_ v - 1) d (knn_ v);
   do knn <- vec_store knn i (idx, d);
   Ok {| k_ := k_ v; count_ := count_ v; knn_ := knn |})%res.

Definition SearchKnn_visit (v : SearchKnn) (idx d : Z) : Res SearchKnn :=
  let v := if decide (count_ v < k_ v)
           then {| k_ := k_ v; count_ := count_ v + 1; knn_ := knn_ v |}
           else v in
  InsertSorted v idx d.

Definition SearchKnn_max (v : SearchKnn) : Res Z :=
  (do last <- vec_at (knn_ v) (k_ v - 1); Ok last.2)%res.

#[global] Instance SearchKnn_Visitor : Visitor SearchKnn :=
  {| visit := SearchKnn_visit; v_max := SearchKnn_max |}.

(** *** SearchRadius *)
Record SearchRadius : Type := mkSearchRadius {
  radius_ : Z;
  n_ : list (Z * Z)   (* the caller's vector, held by reference *)
}.

Definition SearchRadius_ctor (radius : Z) (n : list (Z * Z)) : SearchRadius :=
  {| radius_ := radius; n_ := [] |}.

Definition SearchRadius_visit (v : SearchRadius) (idx d : Z) : SearchRadius :=
  {| radius_ := radius_ v; n_ := n_ v ++ [(idx, d)] |}.

Definition SearchRadius_max (v : SearchRadius) : Z := radius_ v.

#[global] Instance SearchRadius_Visitor : Visitor SearchRadius :=
  {| visit v idx d := Ok (SearchRadius_visit v idx d);
     v_max v := Ok (SearchRadius_max v) |}.

(** *** A visitor that records every report

    The traversal is a template over the visitor type; this instance wraps
    a visitor and logs, for each call of [operator()], the identifier, the
    distance and the bound [max()] of the wrapped visitor at that moment. *)
Record Recording (V : Type) : Type := mkRecording {
  inner : V;
  reports : list (Z * Z * Z)
}.
Arguments mkRecording {V} inner reports.
Arguments inner {V} r.
Arguments reports {V} r.

#[global] Instance Recording_Visitor `{Visitor V} : Visitor (Recording V) :=
  {| visit r idx d :=
       (do bound <- v_max (inner r);
        do v <- visit (inner r) idx d;
        Ok {| inner := v; reports := reports r ++ [(idx, d, bound)] |})%res;
     v_max r := v_max (inner r) |}.

End internal.

(** ** The tree *)

(** A [Node*]: the position of the node in the arena. *)
Definition ptr : Type := nat.

(** A node is a branch iff both children are present and a leaf iff both are
    absent; the union [Data] holds the matching member. *)
Inductive Node : Type :=
| Branch (split : Z) (dim : Z) (left right : ptr)
| Leaf (begin_idx end_idx : Z).

(** The members of [KdTree] that construction writes. [points_], [metric_]
    and [dimensions_] are fixed by the point adapter. *)
Record KdTree : Type := mkKdTree {
  nodes_ : list Node;
  indices_ : list Z;
  root_ : ptr
}.

(** Member functions run on the object: they read and write its members and
    may fault. *)
Definition M (A : Type) : Type := KdTree → Res (A * KdTree).

Definition ret {A} (a : A) : M A := λ t, Ok (a, t).
Definition bind {A B} (m : M A) (k : A → M B) : M B :=
  λ t, match m t with
       | Ok (a, t') => k a t'
       | Err f => Err f
       end.
Definition lift {A} (r : Res A) : M A :=
  λ t, match r with
       | Ok a => Ok (a, t)
       | Err f => Err f
       end.

Declare Scope kd_scope.
Delimit Scope kd_scope with kd.
Notation "'do' x <- m ; k" := (bind m (fun x => k))
  (at level 10, x name, m at level 100, k at level 200) : kd_scope.
Notation "m ;; k" := (bind m (fun _ => k))
  (at level 100, k at level 200, right associativity) : kd_scope.

(** Modelled from the spec: [internal::ItemBuffer<Node>::MakeItem] (core.hpp).
    The node arena is a pre-sized, append-only pool: a new node is appended
    and its address never changes. A fresh node has no children. *)
Definition MakeItem : M ptr :=
  λ t, Ok (length (nodes_ t),
           {| nodes_ := nodes_ t ++ [Leaf 0 0];
              indices_ := indices_ t; root_ := root_ t |}).

(** [*node = n], the assignments to the members of a node. *)
Definition store_node (node : ptr) (n : Node) : M unit :=
  λ t, if decide (node < length (nodes_ t))%nat
       then Ok (tt, {| nodes_ := <[node := n]> (nodes_ t);
                       indices_ := indices_ t; root_ := root_ t |})
       else Err OutOfRange.

(** [*node]. *)
Definition load_node (node : ptr) : M Node :=
  λ t, match nodes_ t !! node with
       | Some n => Ok (n, t)
       | None => Err OutOfRange
       end.

(** [indices_[i]]. *)
Definition load_index (i : Z) : M Z := λ t, lift (vec_at (indices_ t) i) t.

(** [root_]. *)
Definition load_root : M ptr := λ t, Ok (root_ t, t).

(** [std::iota(indices_.begin(), indices_.end(), 0)]. *)
Definition iota_indices : M unit :=
  λ t, Ok (tt, {| nodes_ := nodes_ t;
                  indices_ := seqZ 0 (Z.of_nat (length (indices_ t)));
                  root_ := root_ t |}).

(** [std::nth_element(indices.begin() + first, indices.begin() + nth,
    indices.begin() + last, comp)]. *)
Definition nth_element_indices `{NthElement} (first nth last : Z)
    (comp : Z → Z → bool) : M unit :=
  λ t, if decide (0 ≤ first ∧ first ≤ nth ∧ nth ≤ last
                  ∧ last ≤ Z.of_nat (length (indices_ t)))
       then Ok (tt, {| nodes_ := nodes_ t;
                       indices_ :=
                         take (Z.to_nat first) (indices_ t)
                         ++ nth_element comp (Z.to_nat (nth - first))
                              (slice (indices_ t) first last)
                         ++ drop (Z.to_nat last) (indices_ t);
                       root_ := root_ t |})
       else Err OutOfRange.

Section KdTree.
Context `{ScalarLimits} `{Indeterminate} `{NthElement}.
Variable points_ : Points.

(** Modelled from the spec: [internal::Dimensions<Dims>::Dims] (core.hpp)
    is the dimension count D, whether fixed at compile time or read from
    the adapter; [dimensions_] is initialised with the same value. *)
Definition dimensions_ : Z := num_dimensions points_.

(** *** MetricL2 *)

(** The loop of [operator()]: the difference, its square and the sum are
    computed in [Scalar]. [n] counts the iterations left. *)
Fixpoint MetricL2_loop (n : nat) (i : Z) (p : P) (idx : Z) (d : Z) : Z :=
  match n with
  | O => d
  | S n =>
      let v := Scalar_wrap (p i - coord points_ idx i) in
      MetricL2_loop n (i + 1) p idx (Scalar_wrap (d + Scalar_wrap (v * v)))
  end.

Definition MetricL2 (p : P) (idx : Z) : Z :=
  MetricL2_loop (Z.to_nat dimensions_) 0 p idx 0.

(** *** Construction *)

Fixpoint SplitIndices (fuel : nat) (max_leaf_size offset size dim : Z)
  : M ptr :=
  match fuel with
  | O => lift (Err OutOfFuel)
  | S fuel =>
      (do node <- MakeItem;
       if decide (size ≤ max_leaf_size) then
         store_node node (Leaf offset (offset + size));;
         ret node
       else
         let left_size := size `quot` 2 in
         let right_size := size - left_size in
         let split := offset + left_size in
         nth_element_indices offset split (offset + size)
           (λ a b, bool_decide (coord points_ a dim < coord points_ b dim));;
         let next_dim := if decide (dim + 1 < dimensions_) then dim + 1 else 0 in
         do at_split <- load_index split;
         let split_value := coord points_ at_split dim in
         do left <- SplitIndices fuel max_leaf_size offset left_size next_dim;
         do right <- SplitIndices fuel max_leaf_size split right_size next_dim;
         store_node node (Branch split_value dim left right);;
         ret node)%kd
  end.

Definition MakeTree (fuel : nat) (max_leaf_size : Z) : M ptr :=
  (iota_indices;;
   SplitIndices fuel max_leaf_size 0 (num_points points_) 0)%kd.

(** The constructor. The member initialisers run first, the assertion in
    the body last. The capacity of the arena,
    [internal::MaxNodesFromPoints] (core.hpp), does not show in the
    append-only pool and is left out. *)
Definition KdTree_ctor (fuel : nat) (max_leaf_size : Z) : Res KdTree :=
  (do indices <- vec_resize [] (num_points points_) 0;
   do '(root, t) <- MakeTree fuel max_leaf_size
                      {| nodes_ := []; indices_ := indices; root_ := 0%nat |};
   if decide (num_points points_ > 0)
   then Ok {| nodes_ := nodes_ t; indices_ := indices_ t; root_ := root |}
   else Err AssertionFailed)%res.

(** *** Search *)

Section traversal.
Context {V : Type} `{!internal.Visitor V}.

(** The loop over the positions of a leaf; [max] was read once, before
    the loop. [n] counts the iterations left. *)
Fixpoint visit_leaf (n : nat) (p : P) (i : Z) (max : Z) (visitor : V) : M V :=
  match n with
  | O => ret visitor
  | S n =>
      (do idx <- load_index i;
       let d := MetricL2 p idx in
       if decide (max > d) then
         do visitor <- lift (internal.visit visitor idx d);
         visit_leaf n p (i + 1) max visitor
       else visit_leaf n p (i + 1) max visitor)%kd
  end.

(** The private overload [SearchNn(p, node, visitor)]. *)
Fixpoint SearchNn_node (fuel : nat) (p : P) (node : ptr) (visitor : V) : M V :=
  match fuel with
  | O => lift (Err OutOfFuel)
  | S fuel =>
      (do n <- load_node node;
       match n with
       | Branch split dim l r =>
           let v := p dim in
           let d := Scalar_wrap (v - split) in
           if decide (v ≤ split) then
             do visitor <- SearchNn_node fuel p l visitor;
             do max <- lift (internal.v_max visitor);
             if decide (max > Scalar_wrap (d * d))
             then SearchNn_node fuel p r visitor
             else ret visitor
           else
             do visitor <- SearchNn_node fuel p r visitor;
             do max <- lift (internal.v_max visitor);
             if decide (max > Scalar_wrap (d * d))
             then SearchNn_node fuel p l visitor
             else ret visitor
       | Leaf begin_idx end_idx =>
           do max <- lift (internal.v_max visitor);
           visit_leaf (Z.to_nat (end_idx - begin_idx)) p begin_idx max visitor
       end)%kd
  end.
End traversal.

Definition SearchNn (fuel : nat) (p : P) : M (Z * Z) :=
  (let v := internal.SearchNn_ctor in
   do root <- load_root;
   do v <- SearchNn_node fuel p root v;
   ret (internal.nearest v))%kd.

Definition SearchKnn (fuel : nat) (p : P) (k : Z) (knn : list (Z * Z))
  : M (list (Z * Z)) :=
  (do v <- lift (internal.SearchKnn_ctor k knn);
   do root <- load_root;
   do v <- SearchNn_node fuel p root v;
   lift (internal.SearchKnn_dtor v))%kd.

Definition SearchRadius (fuel : nat) (p : P) (radius : Z) (n : list (Z * Z))
  : M (list (Z * Z)) :=
  (let v := internal.SearchRadius_ctor radius n in
   do root <- load_root;
   do v <- SearchNn_node fuel p root v;
   ret (internal.n_ v))%kd.

End KdTree.

(** ** The tree behind the arena *)

(** The tree that hangs below a node, with the child pointers followed. *)
Inductive tree : Type :=
| TLeaf (begin_idx end_idx : Z)
| TBranch (split dim : Z) (l r : tree).

Inductive repr (nodes : list Node) : ptr → tree → Prop :=
| repr_leaf node b e :
    nodes !! node = Some (Leaf b e) →
    repr nodes node (TLeaf b e)
| repr_branch node split dim pl pr l r :
    nodes !! node = Some (Branch split dim pl pr) →
    repr nodes pl l →
    repr nodes pr r →
    repr nodes node (TBranch split dim l r).

(** The same, computed. *)
Fixpoint tree_at (fuel : nat) (nodes : list Node) (node : ptr) : option tree :=
  match fuel with
  | O => None
  | S fuel =>
      match nodes !! node with
      | Some (Leaf b e) => Some (TLeaf b e)
      | Some (Branch split dim pl pr) =>
          match tree_at fuel nodes pl, tree_at fuel nodes pr with
          | Some l, Some r => Some (TBranch split dim l r)
          | _, _ => None
          end
      | None => None
      end
  end.

(** The leaf ranges [begin, end), from left to right. *)
Fixpoint leaves (t : tree) : list (Z * Z) :=
  match t with
  | TLeaf b e => [(b, e)]
  | TBranch _ _ l r => leaves l ++ leaves r
  end.

(** The first position of the leftmost leaf and the end of the rightmost. *)
Fixpoint lo (t : tree) : Z :=
  match t with
  | TLeaf b _ => b
  | TBranch _ _ l _ => lo l
  end.

Fixpoint hi (t : tree) : Z :=
  match t with
  | TLeaf _ e => e
  | TBranch _ _ _ r => hi r
  end.

Fixpoint height (t : tree) : nat :=
  match t with
  | TLeaf _ _ => 0
  | TBranch _ _ l r => S (height l `max` height r)
  end.

(** The branches of a tree: split value, split dimension and both subtrees. *)
Fixpoint branches (t : tree) : list (Z * Z * tree * tree) :=
  match t with
  | TLeaf _ _ => []
  | TBranch split dim l r => (split, dim, l, r) :: branches l ++ branches r
  end.


(** The point identifiers reachable under [t]. *)
Definition ids_under (indices : list Z) (t : tree) : list Z :=
  flat_map (λ '(b, e), slice indices b e) (leaves t).

(** The ordering of a tree: below every branch, the identifiers on the left
    have a coordinate of at most the split value, and those on the right
    have a coordinate that is [R]-related to it. *)
Definition partitioned (R : Z → Z → Prop) (points : Points)
    (indices : list Z) (t : tree) : Prop :=
  ∀ split dim l r, (split, dim, l, r) ∈ branches t →
    (∀ id, id ∈ ids_under indices l → coord points id dim ≤ split) ∧
    (∀ id, id ∈ ids_under indices r → R (coord points id dim) split).

(** What construction establishes: ranges that follow one another inside the
    permutation, and the ordering, position by position. *)
Fixpoint wf_tree (points : Points) (indices : list Z) (t : tree) : Prop :=
  match t with
  | TLeaf b e => 0 ≤ b ∧ b ≤ e ∧ e ≤ Z.of_nat (length indices)
  | TBranch split dim l r =>
      wf_tree points indices l ∧ wf_tree points indices r ∧
      hi l = lo r ∧
      (∀ i id, lo l ≤ i < hi l → indices !! Z.to_nat i = Some id →
               coord points id dim ≤ split) ∧
      (∀ i id, lo r ≤ i < hi r → indices !! Z.to_nat i = Some id →
               split ≤ coord points id dim)
  end.

(** Every split dimension is one of the D dimensions. *)
Fixpoint dims_in_range (D : Z) (t : tree) : Prop :=
  match t with
  | TLeaf _ _ => True
  | TBranch _ dim l r => 0 ≤ dim < D ∧ dims_in_range D l ∧ dims_in_range D r
  end.

(** No leaf range is empty. *)
Definition leaves_nonempty (t : tree) : Prop :=
  Forall (λ '(b, e), b < e) (leaves t).

(** [idx'] is [idx] with the positions [a, b) permuted among themselves. *)
Definition permuted_within (a b : Z) (idx idx' : list Z) : Prop :=
  length idx' = length idx ∧
  (∀ i : nat, Z.of_nat i < a ∨ b ≤ Z.of_nat i → idx' !! i = idx !! i) ∧
  slice idx' a b ≡ₚ slice idx a b.

(** ** Brute force *)

(** The squared Euclidean distance between [p] and the point [idx], in
    exact arithmetic: the sum, over the D dimensions, of the squares of the
    coordinate differences. *)
Fixpoint sq_dist_loop (points : Points) (n : nat) (i : Z) (p : P) (idx : Z)
    (d : Z) : Z :=
  match n with
  | O => d
  | S n =>
      sq_dist_loop points n (i + 1) p idx
        (d + (p i - coord points idx i) * (p i - coord points idx i))
  end.

Definition sq_dist (points : Points) (p : P) (idx : Z) : Z :=
  sq_dist_loop points (Z.to_nat (num_dimensions points)) 0 p idx 0.

(** The identifiers of [ids] that lie within [radius] of [p], each with its
    distance, in the order of [ids]. *)
Definition within_radius (points : Points) (p : P) (radius : Z)
    (ids : list Z) : list (Z * Z) :=
  (λ id, (id, sq_dist points p id))
    <$> filter (λ id, sq_dist points p id < radius) ids.

(** The radius search by brute force over all N points. *)
Definition brute_force_radius (points : Points) (p : P) (radius : Z)
  : list (Z * Z) :=
  within_radius points p radius (seqZ 0 (num_points points)).

(** ** Relating two runs *)

(** Two results agree: both are values related by [R], or both are the same
    fault. *)
Definition res_rel {A B} (R : A → B → Prop) (r1 : Res A) (r2 : Res B) : Prop :=
  match r1, r2 with
  | Ok a, Ok b => R a b
  | Err f, Err g => f = g
  | _, _ => False
  end.

(** Two member functions, run on the same object [t], agree and leave [t] as
    it is. *)
Definition M_rel {A B} (R : A → B → Prop) (t : KdTree) (m1 : M A) (m2 : M B)
  : Prop :=
  res_rel (λ x y, R x.1 y.1 ∧ x.2 = t ∧ y.2 = t) (m1 t) (m2 t).

(** A pair that the query for [p] can report: an identifier of the index
    permutation with its distance to [p]. *)
Definition reported `{ScalarLimits} (points : Points) (p : P) (t : KdTree)
    (e : Z * Z) : Prop :=
  ∃ idx, idx ∈ indices_ t ∧ e = (idx, MetricL2 points p idx).

(** Two vectors of length [len] hold the same pairs, all of them [Q], at the
    positions below [c] other than [hole]. *)
Definition agree_except (Q : Z * Z → Prop) (len : nat) (c hole : Z)
    (knn1 knn2 : list (Z * Z)) : Prop :=
  length knn1 = len ∧ length knn2 = len ∧
  ∀ j : nat, Z.of_nat j < c → Z.of_nat j ≠ hole →
    ∃ e, knn1 !! j = Some e ∧ knn2 !! j = Some e ∧ Q e.

(** Two k-nearest visitors that differ only in what the caller's vectors
    held before: same [k_] and [count_], the same pairs in the first [count_]
    places, and the same bound in the last place. *)
Definition knn_related (Q : Z * Z → Prop) (v1 v2 : internal.SearchKnn) : Prop :=
  internal.k_ v1 = internal.k_ v2 ∧
  internal.count_ v1 = internal.count_ v2 ∧
  0 ≤ internal.count_ v1 ≤ internal.k_ v1 ∧
  1 ≤ internal.k_ v1 ∧
  agree_except Q (Z.to_nat (internal.k_ v1)) (internal.count_ v1) (-1)
    (internal.knn_ v1) (internal.knn_ v2) ∧
  snd <$> internal.knn_ v1 !! Z.to_nat (internal.k_ v1 - 1)
  = snd <$> internal.knn_ v2 !! Z.to_nat (internal.k_ v1 - 1).

(** ** The shape of the tree *)

(** The number of nodes of a tree. *)
Fixpoint node_count (t : tree) : nat :=
  match t with
  | TLeaf _ _ => 1
  | TBranch _ _ l r => S (node_count l + node_count r)
  end.

(** The arena holds [t] from [node] on in the order of allocation: a node,
    then its left subtree, then its right subtree. *)
Fixpoint laid_out (nodes : list Node) (node : ptr) (t : tree) : Prop :=
  match t with
  | TLeaf b e => nodes !! node = Some (Leaf b e)
  | TBranch split dim l r =>
      nodes !! node
      = Some (Branch split dim (S node) (S node + node_count l)%nat) ∧
      laid_out nodes (S node) l ∧
      laid_out nodes (S node + node_count l)%nat r
  end.

(** The recursion of [SplitIndices], read off the tree: a range of at most
    [max_leaf_size] positions is a leaf; a longer one is halved, the left
    half taking [size / 2] positions, and split along [dim], the children
    along the next of the [D] dimensions. *)
Fixpoint split_shape (max_leaf_size D dim : Z) (t : tree) : Prop :=
  match t with
  | TLeaf b e => e - b ≤ max_leaf_size
  | TBranch _ d l r =>
      max_leaf_size < hi r - lo l ∧
      d = dim ∧
      hi l - lo l = (hi r - lo l) `quot` 2 ∧
      split_shape max_leaf_size D (if decide (dim + 1 < D) then dim + 1 else 0) l ∧
      split_shape max_leaf_size D (if decide (dim + 1 < D) then dim + 1 else 0) r
  end.

(** Every split value is the coordinate of an identifier under the right
    child. *)
Fixpoint split_attained (points : Points) (indices : list Z) (t : tree) : Prop :=
  match t with
  | TLeaf _ _ => True
  | TBranch split dim l r =>
      (∃ i id, lo r ≤ i < hi r ∧ indices !! Z.to_nat i = Some id ∧
               coord points id dim = split) ∧
      split_attained points indices l ∧
      split_attained points indices r
  end.

(** The split dimensions of the branches, each with its depth below
    [depth]. *)
Fixpoint branch_dims (depth : nat) (t : tree) : list (nat * Z) :=
  match t with
  | TLeaf _ _ => []
  | TBranch _ dim l r =>
      (depth, dim) :: branch_dims (S depth) l ++ branch_dims (S depth) r
  end.

(** ** The k-nearest visitor between two reports *)

(** Ascending by distance. *)
Definition by_distance (a b : Z * Z) : Prop := a.2 ≤ b.2.

(** The neighbours a k-nearest visitor holds: the first [count_] places of
    the caller's vector. *)
Definition kept (v : internal.SearchKnn) : list (Z * Z) :=
  take (Z.to_nat (internal.count_ v)) (internal.knn_ v).

(** What the constructor of the visitor establishes and every report
    keeps: a vector of [k_] places, the neighbours held in ascending order
    of distance, and the initial search distance in the last place for as
    long as fewer than [k_] neighbours are held. *)
Definition knn_wf `{ScalarLimits} (v : internal.SearchKnn) : Prop :=
  1 ≤ internal.k_ v ∧
  0 ≤ internal.count_ v ≤ internal.k_ v ∧
  Z.of_nat (length (internal.knn_ v)) = internal.k_ v ∧
  StronglySorted by_distance (kept v) ∧
  (internal.count_ v < internal.k_ v →
   snd <$> internal.knn_ v !! Z.to_nat (internal.k_ v - 1) = Some Scalar_max).

(** Every identifier of [ids] with its distance to [p]. *)
Definition distances `{ScalarLimits} (points : Points) (p : P) (ids : list Z)
  : list (Z * Z) :=
  (λ id, (id, MetricL2 points p id)) <$> ids.

(** The neighbours held are the best of the pairs [seen] so far: [seen] is
    the neighbours held and the pairs dropped, no dropped pair is closer
    than a neighbour held, and nothing is dropped while there is room. *)
Definition knn_best (v : internal.SearchKnn) (seen : list (Z * Z)) : Prop :=
  ∃ rest, kept v ++ rest ≡ₚ seen ∧
          (internal.count_ v < internal.k_ v → rest = []) ∧
          ∀ x e, x ∈ kept v → e ∈ rest → x.2 ≤ e.2.

(** The neighbours held are pairs of [seen], none more often than [seen]
    has it, and all of [seen] while there is room. *)
Definition knn_among (v : internal.SearchKnn) (seen : list (Z * Z)) : Prop :=
  kept v ⊆+ seen ∧
  (internal.count_ v < internal.k_ v → kept v ≡ₚ seen).

(** ** Concrete inputs *)

Definition point_of_list (l : list Z) : P := λ i, nth (Z.to_nat i) l 0.

Definition points_of_list (D : Z) (l : list (list Z)) : Points :=
  {| num_points := Z.of_nat (length l);
     num_dimensions := D;
     coord idx dim := nth (Z.to_nat dim) (nth (Z.to_nat idx) l []) 0 |}.

Definition int32_limits : ScalarLimits := {| Scalar_max := 2147483647 |}.

(** Some content of a member that was never written. *)
Definition stale_index : Indeterminate := {| indeterminate_Index := -1 |}.

(** The points of the example scenario. *)
Definition four_points : Points :=
  points_of_list 2 [[0; 0]; [5; 5]; [1; 1]; [9; 0]].

(** Two points on a line. *)
Definition two_points : Points := points_of_list 1 [[0]; [5]].

(** Two points on a line, far apart. *)
Definition far_points : Points := points_of_list 1 [[0]; [50000]].

(** One point on a line. *)
Definition one_point : Points := points_of_list 1 [[7]].

(** One point in four dimensions, at squared distance 2147483647 from the
    origin. *)
Definition outermost_point : Points := points_of_list 4 [[46339; 425; 10; 1]].

(** The indexes that the constructor builds over these points, with a full
    sort for [std::nth_element]. *)
Definition four_points_index : KdTree :=
  {| nodes_ := [Branch 5 0 1%nat 4%nat; Branch 1 1 2%nat 3%nat;
                Leaf 0 1; Leaf 1 2; Branch 5 1 5%nat 6%nat;
                Leaf 2 3; Leaf 3 4];
     indices_ := [0; 2; 3; 1];
     root_ := 0%nat |}.

Definition two_points_index : KdTree :=
  {| nodes_ := [Branch 5 0 1%nat 2%nat; Leaf 0 1; Leaf 1 2];
     indices_ := [0; 1];
     root_ := 0%nat |}.

Definition two_points_one_leaf : KdTree :=
  {| nodes_ := [Leaf 0 2]; indices_ := [0; 1]; root_ := 0%nat |}.

Definition far_points_index : KdTree :=
  {| nodes_ := [Branch 50000 0 1%nat 2%nat; Leaf 0 1; Leaf 1 2];
     indices_ := [0; 1];
     root_ := 0%nat |}.

(** The index over the points of the example scenario with
    max_leaf_size 2. *)
Definition four_points_two_leaves : KdTree :=
  {| nodes_ := [Branch 5 0 1%nat 2%nat; Leaf 0 2; Leaf 2 4];
     indices_ := [0; 2; 1; 3];
     root_ := 0%nat |}.

(** The value a member function returns, without the object. *)
Definition result {A} (r : Res (A * KdTree)) : Res A :=
  match r with
  | Ok (a, _) => Ok a
  | Err f => Err f
  end.

(** * Properties *)

(** ** The monads *)

Lemma res_bind_Ok {A B} (m : Res A) (k : A → Res B) b :
  res_bind m k = Ok b ↔ ∃ a, m = Ok a ∧ k a = Ok b.
Proof.
  destruct m as [a|f]; simpl.
  - split; [eauto|]. by intros (? & [= <-] & ?).
  - split; [done|]. by intros (? & ? & _).
Qed.

Lemma bind_Ok {A B} (m : M A) (k : A → M B) t b t' :
  bind m k t = Ok (b, t') ↔ ∃ a t1, m t = Ok (a, t1) ∧ k a t1 = Ok (b, t').
Proof.
  unfold bind. destruct (m t) as [[a t1]|f].
  - split; [eauto|]. by intros (? & ? & [= <- <-] & ?).
  - split; [done|]. by intros (? & ? & ? & _).
Qed.

Lemma lift_Ok {A} (r : Res A) t a t' :
  lift r t = Ok (a, t') ↔ r = Ok a ∧ t' = t.
Proof.
  destruct r as [a'|f]; simpl.
  - split; [by intros [= <- <-]|by intros [[= <-] ->]].
  - split; [done|by intros [? _]].
Qed.

Lemma ret_Ok {A} (x : A) t a t' : ret x t = Ok (a, t') ↔ a = x ∧ t' = t.
Proof. unfold ret. split; [by intros [= <- <-]|by intros [-> ->]]. Qed.

(** ** Vectors and slices *)

Section vector_facts.
Context {A : Type}.
Implicit Types v : list A.

Lemma vec_at_Ok v i x :
  vec_at v i = Ok x ↔ 0 ≤ i ∧ v !! Z.to_nat i = Some x.
Proof.
  unfold vec_at. case_decide as Hi.
  - destruct (v !! Z.to_nat i) as [y|].
    + split; [by intros [= <-]|by intros [_ [= <-]]].
    + split; [done|by intros [_ ?]].
  - split; [done|]. intros [? _]. lia.
Qed.

Lemma vec_at_lt v i :
  0 ≤ i < Z.of_nat (length v) → ∃ x, vec_at v i = Ok x.
Proof.
  intros Hi. destruct (lookup_lt_is_Some_2 v (Z.to_nat i)) as [x Hx]; [lia|].
  exists x. apply vec_at_Ok. split; [lia|done].
Qed.

Lemma vec_store_Ok v i x v' :
  vec_store v i x = Ok v' ↔
  0 ≤ i < Z.of_nat (length v) ∧ v' = <[Z.to_nat i := x]> v.
Proof.
  unfold vec_store. case_decide as Hi.
  - split; [by intros [= <-]|by intros [_ ->]].
  - split; [done|]. by intros [? _].
Qed.

Lemma slice_lookup v a b (i : nat) :
  0 ≤ a →
  slice v a b !! i =
    if decide (Z.of_nat i < b - a) then v !! Z.to_nat (a + Z.of_nat i) else None.
Proof.
  intros Ha. unfold slice. case_decide.
  - rewrite lookup_take_lt by lia. rewrite lookup_drop. f_equal. lia.
  - apply lookup_take_ge. lia.
Qed.

Lemma elem_of_slice v a b x :
  0 ≤ a →
  x ∈ slice v a b ↔ ∃ i, a ≤ i < b ∧ v !! Z.to_nat i = Some x.
Proof.
  intros Ha. rewrite list_elem_of_lookup. split.
  - intros [i Hi]. rewrite slice_lookup in Hi by done. case_decide; [|done].
    exists (a + Z.of_nat i). split; [lia|done].
  - intros (i & Hi & Hx). exists (Z.to_nat (i - a)).
    rewrite slice_lookup by done. rewrite decide_True by lia.
    rewrite <- Hx. f_equal. lia.
Qed.

Lemma slice_app v a m b :
  0 ≤ a → a ≤ m → m ≤ b → slice v a b = slice v a m ++ slice v m b.
Proof.
  intros. unfold slice.
  replace (Z.to_nat (b - a)) with (Z.to_nat (m - a) + Z.to_nat (b - m))%nat by lia.
  rewrite <- take_take_drop. f_equal. rewrite drop_drop. do 2 f_equal. lia.
Qed.

Lemma slice_all v : slice v 0 (Z.of_nat (length v)) = v.
Proof. unfold slice. simpl. apply take_ge. lia. Qed.

Lemma slice_nil v a b : b ≤ a → slice v a b = [].
Proof. intros. unfold slice. by replace (Z.to_nat (b - a)) with 0%nat by lia. Qed.

Lemma length_slice v a b :
  0 ≤ a → a ≤ b → b ≤ Z.of_nat (length v) →
  length (slice v a b) = Z.to_nat (b - a).
Proof. intros. unfold slice. rewrite length_take, length_drop. lia. Qed.

Lemma slice_ext v v' a b :
  0 ≤ a →
  length v' = length v →
  (∀ i : nat, a ≤ Z.of_nat i < b → v' !! i = v !! i) →
  slice v' a b = slice v a b.
Proof.
  intros Ha Hlen Hext. apply list_eq. intros i.
  rewrite !slice_lookup by done. case_decide; [|done].
  apply Hext. lia.
Qed.

Lemma slice_cons v a b x :
  0 ≤ a → a < b → v !! Z.to_nat a = Some x →
  slice v a b = x :: slice v (a + 1) b.
Proof.
  intros Ha Hb Hx. rewrite (slice_app v a (a + 1) b) by lia. f_equal.
  unfold slice. replace (Z.to_nat (a + 1 - a)) with 1%nat by lia.
  erewrite drop_S by done. done.
Qed.
End vector_facts.

(** ** Permuting a range of the index permutation *)

Lemma permuted_within_refl a b idx : permuted_within a b idx idx.
Proof. done. Qed.

Lemma permuted_within_trans a b idx1 idx2 idx3 :
  permuted_within a b idx1 idx2 →
  permuted_within a b idx2 idx3 →
  permuted_within a b idx1 idx3.
Proof.
  intros (Hl1 & Ho1 & Hp1) (Hl2 & Ho2 & Hp2). split_and!.
  - congruence.
  - intros i Hi. rewrite Ho2, Ho1; done.
  - by rewrite Hp2.
Qed.

Lemma permuted_within_widen a b a' b' idx idx' :
  0 ≤ a → a ≤ a' → a' ≤ b' → b' ≤ b →
  permuted_within a' b' idx idx' →
  permuted_within a b idx idx'.
Proof.
  intros ? ? ? ? (Hl & Ho & Hp). split_and!; [done| |].
  - intros i Hi. apply Ho. lia.
  - rewrite (slice_app idx' a a' b), (slice_app idx' a' b' b) by lia.
    rewrite (slice_app idx a a' b), (slice_app idx a' b' b) by lia.
    rewrite Hp.
    rewrite (slice_ext idx idx' a a'), (slice_ext idx idx' b' b); try done; try lia.
    + intros i Hi. apply Ho. lia.
    + intros i Hi. apply Ho. lia.
Qed.

Lemma permuted_within_all idx idx' :
  permuted_within 0 (Z.of_nat (length idx)) idx idx' → idx' ≡ₚ idx.
Proof.
  intros (Hl & _ & Hp). rewrite slice_all in Hp.
  rewrite <- Hl, slice_all in Hp. done.
Qed.

Lemma permuted_within_elem a b idx idx' i id :
  0 ≤ a →
  permuted_within a b idx idx' →
  a ≤ i < b → idx' !! Z.to_nat i = Some id →
  ∃ j, a ≤ j < b ∧ idx !! Z.to_nat j = Some id.
Proof.
  intros Ha (_ & _ & Hp) Hi Hid.
  apply (elem_of_slice idx a b id Ha). rewrite <- Hp.
  apply elem_of_slice; eauto.
Qed.

Lemma permuted_within_splice `{E : NthElement} `{!NthElementSpec E} comp n a b idx :
  0 ≤ a → a ≤ b → b ≤ Z.of_nat (length idx) →
  permuted_within a b idx
    (take (Z.to_nat a) idx ++ nth_element comp n (slice idx a b) ++ drop (Z.to_nat b) idx).
Proof.
  intros Ha Hab Hb.
  pose proof (nth_element_perm comp n (slice idx a b)) as Hperm.
  pose proof (Permutation_length Hperm) as Hlen.
  rewrite length_slice in Hlen by lia.
  split_and!.
  - rewrite !length_app, length_take, length_drop, Hlen. lia.
  - intros i [Hi|Hi].
    + rewrite lookup_app_l by (rewrite length_take; lia).
      apply lookup_take_lt. lia.
    + rewrite lookup_app_r by (rewrite length_take; lia).
      rewrite lookup_app_r by (rewrite length_take, Hlen; lia).
      rewrite lookup_drop. f_equal. rewrite length_take, Hlen. lia.
  - unfold slice at 1.
    rewrite drop_app_length' by (rewrite length_take; lia).
    rewrite take_app_length' by lia. done.
Qed.

(** ** Sorting implements std::nth_element *)

Lemma StronglySorted_lookup {A} (R : relation A) (l : list A) i j x y :
  StronglySorted R l → (i < j)%nat →
  l !! i = Some x → l !! j = Some y → R x y.
Proof.
  intros Hs Hij Hx Hy. rewrite <- (take_drop j l) in Hs.
  eapply StronglySorted_app_1_elem_of; [done| |].
  - apply list_elem_of_lookup. exists i. by rewrite lookup_take_lt.
  - apply list_elem_of_lookup. exists 0%nat. rewrite lookup_drop.
    by rewrite Nat.add_0_r.
Qed.

#[global] Instance sort_nth_element_spec : NthElementSpec sort_nth_element.
Proof.
  split.
  - intros comp n l. apply merge_sort_Permutation.
  - intros key n l z i x. simpl.
    set (R := λ a b : Z, bool_decide (key b < key a) = false).
    assert (HR : ∀ a b, R a b ↔ key a ≤ key b).
    { intros a b. unfold R. rewrite bool_decide_eq_false. lia. }
    assert (Transitive R) by (intros a b c; rewrite !HR; lia).
    assert (Total R) by (intros a b; rewrite !HR; lia).
    pose proof (@StronglySorted_merge_sort Z R
                  (λ a b, decide (bool_decide (key b < key a) = false)) _ _ l) as Hs.
    intros Hz Hx. split; intros Hlt.
    + apply HR. eapply StronglySorted_lookup; eauto.
    + destruct (decide (i = n)) as [->|Hne]; [by simplify_eq|].
      apply HR. eapply (StronglySorted_lookup R _ n i); eauto. lia.
Qed.

(** ** Trees *)

Lemma repr_inj nodes node t1 t2 :
  repr nodes node t1 → repr nodes node t2 → t1 = t2.
Proof.
  intros H1. revert t2. induction H1; intros t2 H2; inversion H2; simplify_eq; [done|].
  f_equal; eauto.
Qed.

Lemma wf_tree_lo_hi points idx t :
  wf_tree points idx t → 0 ≤ lo t ∧ lo t ≤ hi t ∧ hi t ≤ Z.of_nat (length idx).
Proof.
  induction t as [b e|s d l IHl r IHr]; simpl; [lia|].
  intros (Hl & Hr & Heq & _). specialize (IHl Hl). specialize (IHr Hr). lia.
Qed.

Lemma wf_tree_ext points idx idx' t :
  length idx' = length idx →
  (∀ i : nat, lo t ≤ Z.of_nat i < hi t → idx' !! i = idx !! i) →
  wf_tree points idx t → wf_tree points idx' t.
Proof.
  intros Hlen. induction t as [b e|s d l IHl r IHr]; simpl; intros Hext Hwf.
  - lia.
  - destruct Hwf as (Hl & Hr & Heq & Hle & Hge).
    pose proof (wf_tree_lo_hi _ _ _ Hl). pose proof (wf_tree_lo_hi _ _ _ Hr).
    split_and!; try done; try lia.
    + apply IHl; [|done]. intros i Hi. apply Hext. lia.
    + apply IHr; [|done]. intros i Hi. apply Hext. lia.
    + intros i id Hi Hid. apply (Hle i); [done|]. rewrite <- Hext; [done|lia].
    + intros i id Hi Hid. apply (Hge i); [done|]. rewrite <- Hext; [done|lia].
Qed.


Lemma ids_under_wf points idx t :
  wf_tree points idx t → ids_under idx t = slice idx (lo t) (hi t).
Proof.
  unfold ids_under.
  induction t as [b e|s d l IHl r IHr]; simpl; intros Hwf.
  - by rewrite app_nil_r.
  - destruct Hwf as (Hl & Hr & Heq & _).
    pose proof (wf_tree_lo_hi _ _ _ Hl). pose proof (wf_tree_lo_hi _ _ _ Hr).
    rewrite flat_map_app, IHl, IHr by done.
    rewrite (slice_app idx (lo l) (hi l) (hi r)) by lia. by rewrite Heq.
Qed.

Lemma wf_tree_partitioned points idx t :
  wf_tree points idx t → partitioned Z.ge points idx t.
Proof.
  unfold partitioned.
  induction t as [b e|s d l IHl r IHr]; simpl; intros Hwf split dim l' r' Hin.
  - by apply elem_of_nil in Hin.
  - destruct Hwf as (Hl & Hr & Heq & Hle & Hge).
    pose proof (wf_tree_lo_hi _ _ _ Hl). pose proof (wf_tree_lo_hi _ _ _ Hr).
    apply elem_of_cons in Hin as [Hin|Hin]; [|apply elem_of_app in Hin as [Hin|Hin]]; eauto.
    simplify_eq. rewrite !(ids_under_wf points) by done. split.
    + intros id (i & Hi & Hid)%elem_of_slice; [|lia]. eauto.
    + intros id (i & Hi & Hid)%elem_of_slice; [|lia]. apply Z.le_ge. eauto.
Qed.

(** ** Construction *)

Lemma quot2_bounds size :
  0 ≤ size → 0 ≤ size `quot` 2 ∧ size `quot` 2 ≤ size ∧
  (1 ≤ size → size `quot` 2 < size) ∧
  (2 ≤ size → 1 ≤ size `quot` 2).
Proof.
  intros Hs. rewrite Z.quot_div_nonneg by lia.
  pose proof (Z.div_mod size 2 ltac:(lia)).
  pose proof (Z.mod_pos_bound size 2 ltac:(lia)). lia.
Qed.

Lemma MakeItem_Ok t node t' :
  MakeItem t = Ok (node, t') ↔
  node = length (nodes_ t) ∧
  t' = {| nodes_ := nodes_ t ++ [Leaf 0 0]; indices_ := indices_ t; root_ := root_ t |}.
Proof.
  unfold MakeItem. split; [intros [= <- <-]|intros [-> ->]]; done.
Qed.

Lemma store_node_Ok node n t u t' :
  store_node node n t = Ok (u, t') ↔
  (node < length (nodes_ t))%nat ∧
  t' = {| nodes_ := <[node := n]> (nodes_ t); indices_ := indices_ t; root_ := root_ t |}.
Proof.
  unfold store_node. case_decide.
  - split; [intros [= <- <-]|intros [_ ->]; destruct u]; done.
  - split; [done|by intros [? _]].
Qed.

Lemma load_index_Ok i t id t' :
  load_index i t = Ok (id, t') ↔
  0 ≤ i ∧ indices_ t !! Z.to_nat i = Some id ∧ t' = t.
Proof.
  unfold load_index. rewrite lift_Ok, vec_at_Ok.
  split; [by intros [[? ?] ->]|by intros (? & ? & ->)].
Qed.

Lemma load_node_Ok node t n t' :
  load_node node t = Ok (n, t') ↔ nodes_ t !! node = Some n ∧ t' = t.
Proof.
  unfold load_node. destruct (nodes_ t !! node) as [n'|].
  - split; [by intros [= <- <-]|by intros [[= <-] ->]].
  - split; [done|by intros [? _]].
Qed.

Lemma nth_element_indices_Ok `{E : NthElement} first nth last comp t u t' :
  nth_element_indices first nth last comp t = Ok (u, t') ↔
  (0 ≤ first ∧ first ≤ nth ∧ nth ≤ last ∧ last ≤ Z.of_nat (length (indices_ t))) ∧
  t' = {| nodes_ := nodes_ t;
          indices_ := take (Z.to_nat first) (indices_ t)
                      ++ nth_element comp (Z.to_nat (nth - first))
                           (slice (indices_ t) first last)
                      ++ drop (Z.to_nat last) (indices_ t);
          root_ := root_ t |}.
Proof.
  unfold nth_element_indices. case_decide.
  - split; [intros [= <- <-]|intros [_ ->]; destruct u]; done.
  - split; [done|by intros [? _]].
Qed.

Lemma splice_lookup (idx seg : list Z) a b (j : nat) :
  0 ≤ a → a ≤ b → b ≤ Z.of_nat (length idx) →
  length seg = Z.to_nat (b - a) →
  a ≤ Z.of_nat j < b →
  (take (Z.to_nat a) idx ++ seg ++ drop (Z.to_nat b) idx) !! j
  = seg !! (j - Z.to_nat a)%nat.
Proof.
  intros. rewrite lookup_app_r by (rewrite length_take; lia).
  rewrite length_take. rewrite lookup_app_l by lia. f_equal. lia.
Qed.

Section construction.
Context `{SL : ScalarLimits} `{E : NthElement} `{!NthElementSpec E}.
Variable points_ : Points.

Lemma SplitIndices_spec fuel :
  ∀ max_leaf_size offset size dim t node t',
    0 ≤ offset → 0 ≤ size → offset + size ≤ Z.of_nat (length (indices_ t)) →
    SplitIndices points_ fuel max_leaf_size offset size dim t = Ok (node, t') →
    node = length (nodes_ t) ∧ root_ t' = root_ t ∧
    permuted_within offset (offset + size) (indices_ t) (indices_ t') ∧
    ∃ tr ext,
      lo tr = offset ∧ hi tr = offset + size ∧
      wf_tree points_ (indices_ t') tr ∧
      (0 < num_dimensions points_ → 0 ≤ dim < num_dimensions points_ →
       dims_in_range (num_dimensions points_) tr) ∧
      (1 ≤ max_leaf_size → 1 ≤ size →
       leaves_nonempty tr ∧ Z.of_nat (height tr) < size) ∧
      nodes_ t' = nodes_ t ++ ext ∧
      ∀ pre suf, length pre = length (nodes_ t) →
                 repr (pre ++ ext ++ suf) node tr.
Proof.
  induction fuel as [|fuel IH];
    intros mls offset size dim t node t' Ho Hs Hlen Hrun; [done|].
  simpl in Hrun.
  apply bind_Ok in Hrun as (node0 & t0 & Hmk & Hrun).
  apply MakeItem_Ok in Hmk as [-> ->].
  case_decide as Hleaf.
  - (* a leaf *)
    apply bind_Ok in Hrun as ([] & t1 & Hst & Hret).
    apply ret_Ok in Hret as [-> ->].
    apply store_node_Ok in Hst as [_ ->]. simpl.
    rewrite insert_app_r_alt, Nat.sub_diag by lia. simpl.
    split_and!; [done..|].
    exists (TLeaf offset (offset + size)), [Leaf offset (offset + size)].
    simpl. split_and!; try done; try lia.
    { intros _ Hsize. split; [|lia]. repeat constructor. lia. }
    intros pre suf Hpre. constructor.
    rewrite lookup_app_r by lia. by rewrite Hpre, Nat.sub_diag.
  - (* a branch *)
    destruct (quot2_bounds size Hs) as (Hq0 & Hq1 & Hq2 & Hq3).
    set (left_size := size `quot` 2) in *.
    apply bind_Ok in Hrun as ([] & t1 & Hnth & Hrun).
    apply nth_element_indices_Ok in Hnth as [_ ->]. simpl in Hrun.
    apply bind_Ok in Hrun as (at_split & t1 & Hat & Hrun).
    apply load_index_Ok in Hat as (_ & Hat & ->). simpl in Hat.
    apply bind_Ok in Hrun as (left & t2 & Hleft & Hrun).
    apply bind_Ok in Hrun as (right & t3 & Hright & Hrun).
    apply bind_Ok in Hrun as ([] & t4 & Hst & Hret).
    apply ret_Ok in Hret as [-> ->].
    apply store_node_Ok in Hst as [_ ->]. simpl.
    set (comp := λ a b : Z, bool_decide (coord points_ a dim < coord points_ b dim)) in *.
    set (seg := nth_element comp (Z.to_nat (offset + left_size - offset))
                  (slice (indices_ t) offset (offset + size))) in *.
    assert (Hseg : length seg = Z.to_nat (offset + size - offset)).
    { unfold seg. rewrite (Permutation_length (nth_element_perm _ _ _)).
      apply length_slice; lia. }
    pose proof (permuted_within_splice comp
                  (Z.to_nat (offset + left_size - offset))
                  offset (offset + size) (indices_ t) Ho ltac:(lia) Hlen) as Hpw1.
    fold seg in Hpw1.
    set (idx1 := take (Z.to_nat offset) (indices_ t) ++ seg
                 ++ drop (Z.to_nat (offset + size)) (indices_ t)) in *.
    pose proof Hpw1 as (Hlen1 & _ & _).
    apply IH in Hleft as (-> & Hroot2 & Hpw2 & trL & extL & HloL & HhiL & HwfL & HdimL & HneL & Hn2 & HreprL);
      simpl; [|lia..]. simpl in *.
    pose proof Hpw2 as (Hlen2 & Hout2 & _).
    apply IH in Hright as (-> & Hroot3 & Hpw3 & trR & extR & HloR & HhiR & HwfR & HdimR & HneR & Hn3 & HreprR);
      simpl; [|lia..].
    pose proof Hpw3 as (Hlen3 & Hout3 & _).
    rewrite Hn3, Hn2. rewrite <- !(assoc_L (++)).
    rewrite insert_app_r_alt, Nat.sub_diag by lia. simpl.
    split_and!; [done|congruence| |].
    { eapply permuted_within_trans; [exact Hpw1|].
      eapply permuted_within_trans.
      - eapply (permuted_within_widen offset (offset + size)); [..|exact Hpw2]; lia.
      - eapply (permuted_within_widen offset (offset + size)); [..|exact Hpw3]; lia. }
    (* the pivot property of the range after nth_element *)
    assert (Hpivot : ∀ j id, offset ≤ j < offset + size →
              idx1 !! Z.to_nat j = Some id →
              (j < offset + left_size → coord points_ id dim ≤ coord points_ at_split dim) ∧
              (offset + left_size ≤ j → coord points_ at_split dim ≤ coord points_ id dim)).
    { intros j id Hj Hid. unfold idx1 in Hid, Hat.
      specialize (Hq2 ltac:(lia)).
      rewrite splice_lookup in Hid by lia.
      rewrite splice_lookup in Hat by lia.
      replace (Z.to_nat (offset + left_size) - Z.to_nat offset)%nat
        with (Z.to_nat (offset + left_size - offset)) in Hat by lia.
      destruct (nth_element_pivot (λ a, coord points_ a dim) _ _ _ _ _ Hat Hid)
        as [Hlt Hge].
      split; intros; [apply Hlt|apply Hge]; lia. }
    exists (TBranch (coord points_ at_split dim) dim trL trR),
           (Branch (coord points_ at_split dim) dim
              (length (nodes_ t ++ [Leaf 0 0]))
              (length (nodes_ t2)) :: extL ++ extR).
    simpl. split_and!; try done; try lia.
    + eapply wf_tree_ext; [| |exact HwfL]; [done|].
      intros i Hi. apply Hout3. lia.
    + intros i id Hi Hid.
      rewrite <- (Nat2Z.id (Z.to_nat i)) in Hid.
      rewrite Hout3 in Hid by lia.
      rewrite Nat2Z.id in Hid.
      destruct (permuted_within_elem offset (offset + left_size) idx1 (indices_ t2)
                  i id Ho Hpw2 ltac:(lia) Hid) as (j & Hj & Hjid).
      apply (Hpivot j id); [lia|done|lia].
    + intros i id Hi Hid.
      destruct (permuted_within_elem (offset + left_size)
                  (offset + left_size + (size - left_size))
                  (indices_ t2) (indices_ t3) i id ltac:(lia) Hpw3 ltac:(lia) Hid)
        as (j & Hj & Hjid).
      rewrite <- (Nat2Z.id (Z.to_nat j)) in Hjid.
      rewrite Hout2 in Hjid by lia.
      rewrite Nat2Z.id in Hjid.
      apply (Hpivot j id); [lia|done|lia].
    + intros HD Hdim. split_and!; [lia..| |].
      * apply HdimL; [done|]. unfold dimensions_.
        destruct (decide (dim + 1 < num_dimensions points_)); lia.
      * apply HdimR; [done|]. unfold dimensions_.
        destruct (decide (dim + 1 < num_dimensions points_)); lia.
    + intros Hmls Hsize. specialize (Hq3 ltac:(lia)). specialize (Hq2 ltac:(lia)).
      destruct HneL as [HneL HhL]; [lia..|].
      destruct HneR as [HneR HhR]; [lia..|].
      split; [|lia]. apply Forall_app. by split.
    + by rewrite Hn2, <- (assoc_L (++)).
    + intros pre suf Hpre. econstructor.
      * rewrite lookup_app_r by lia. by rewrite Hpre, Nat.sub_diag.
      * specialize (HreprL (pre ++ [Branch (coord points_ at_split dim) dim
              (length (nodes_ t ++ [Leaf 0 0])) (length (nodes_ t2))]) (extR ++ suf)).
        rewrite <- !(assoc_L (++)) in HreprL. simpl in HreprL.
        rewrite <- !(assoc_L (++)). apply HreprL.
        rewrite !length_app. simpl. lia.
      * specialize (HreprR (pre ++ Branch (coord points_ at_split dim) dim
              (length (nodes_ t ++ [Leaf 0 0])) (length (nodes_ t2)) :: extL) suf).
        rewrite <- !(assoc_L (++)) in HreprR. simpl in HreprR.
        rewrite <- !(assoc_L (++)). apply HreprR.
        rewrite Hn2, !length_app. simpl. lia.
Qed.

Lemma SplitIndices_total fuel :
  ∀ max_leaf_size offset size dim t,
    1 ≤ max_leaf_size →
    0 ≤ offset → 0 ≤ size → offset + size ≤ Z.of_nat (length (indices_ t)) →
    size < Z.of_nat fuel →
    ∃ node t',
      SplitIndices points_ fuel max_leaf_size offset size dim t = Ok (node, t').
Proof.
  induction fuel as [|fuel IH];
    intros mls offset size dim t Hmls Ho Hs Hlen Hfuel; [lia|].
  simpl. destruct (decide (size ≤ mls)) as [Hleaf|Hbranch].
  - eexists _, _. apply bind_Ok. eexists _, _.
    split; [by apply MakeItem_Ok|]. cbv beta.
    apply bind_Ok. eexists tt, _. split; [|by apply ret_Ok].
    apply store_node_Ok. split; [|done]. simpl. rewrite length_app. simpl. lia.
  - destruct (quot2_bounds size Hs) as (Hq0 & Hq1 & Hq2 & Hq3).
    specialize (Hq2 ltac:(lia)). specialize (Hq3 ltac:(lia)).
    set (left_size := size `quot` 2) in *.
    set (next_dim := if decide (dim + 1 < dimensions_ points_) then dim + 1 else 0).
    set (comp := λ a b : Z, bool_decide (coord points_ a dim < coord points_ b dim)).
    set (t0 := {| nodes_ := nodes_ t ++ [Leaf 0 0];
                  indices_ := indices_ t; root_ := root_ t |}).
    assert (∃ t1, nth_element_indices offset (offset + left_size)
                           (offset + size) comp t0 = Ok (tt, t1)
                         ∧ length (indices_ t1) = length (indices_ t)
                         ∧ nodes_ t1 = nodes_ t0) as (t1 & Hnth & Hlen1 & Hn1).
    { eexists. split; [apply nth_element_indices_Ok; split; [simpl; lia|done]|].
      simpl. split; [|done].
      apply (permuted_within_splice comp _ offset (offset + size) (indices_ t));
        lia. }
    destruct (lookup_lt_is_Some_2 (indices_ t1) (Z.to_nat (offset + left_size)))
      as [at_split Hat]; [lia|].
    destruct (IH mls offset left_size next_dim t1) as (left & t2 & Hleft);
      [lia..|].
    pose proof (SplitIndices_spec fuel mls offset left_size next_dim t1 left t2
                  Ho Hq0 ltac:(lia) Hleft)
      as (_ & _ & (Hlen2 & _) & _ & extL & _ & _ & _ & _ & _ & Hn2 & _).
    destruct (IH mls (offset + left_size) (size - left_size) next_dim t2)
      as (right & t3 & Hright); [lia..|].
    pose proof (SplitIndices_spec fuel mls (offset + left_size) (size - left_size)
                  next_dim t2 right t3 ltac:(lia) ltac:(lia) ltac:(lia) Hright)
      as (_ & _ & _ & _ & extR & _ & _ & _ & _ & _ & Hn3 & _).
    eexists _, _. apply bind_Ok. eexists _, _.
    split; [by apply MakeItem_Ok|]. cbv beta.
    apply bind_Ok. eexists tt, _. split; [exact Hnth|].
    apply bind_Ok. eexists at_split, _.
    split; [apply load_index_Ok; split_and!; [lia|done..]|].
    apply bind_Ok. eexists left, _. split; [exact Hleft|].
    apply bind_Ok. eexists right, _. split; [exact Hright|].
    apply bind_Ok. eexists tt, _. split; [|by apply ret_Ok].
    apply store_node_Ok. split; [|done].
    rewrite Hn3, Hn2, Hn1. simpl. rewrite !length_app. simpl. lia.
Qed.

(** Without a leaf-size threshold of at least one, a range that holds a
    point is split without end. *)
Lemma SplitIndices_empty_range fuel :
  ∀ max_leaf_size offset dim t,
    0 ≤ offset → offset < Z.of_nat (length (indices_ t)) →
    SplitIndices points_ fuel max_leaf_size offset 0 dim t = Err OutOfFuel ∨
    ∃ node t', SplitIndices points_ fuel max_leaf_size offset 0 dim t = Ok (node, t').
Proof.
  intros mls offset dim t Ho Hlen.
  destruct (SplitIndices points_ fuel mls offset 0 dim t) as [[node t']|f] eqn:Hrun;
    [eauto|]. left. f_equal.
  revert mls offset dim t Ho Hlen f Hrun.
  induction fuel as [|fuel IH]; intros mls offset dim t Ho Hlen f Hrun;
    [by simplify_eq/=|].
  simpl in Hrun. unfold bind at 1 in Hrun. simpl in Hrun.
  case_decide as Hleaf.
  { unfold bind, store_node in Hrun. simpl in Hrun.
    rewrite decide_True in Hrun by (rewrite length_app; simpl; lia). done. }
  change (0 `quot` 2) with 0 in Hrun. rewrite Z.sub_0_r, !Z.add_0_r in Hrun.
  unfold bind at 1 in Hrun. unfold nth_element_indices in Hrun. simpl in Hrun.
  rewrite decide_True in Hrun by lia.
  match type of Hrun with bind _ _ ?t = _ => set (t1 := t) in * end.
  assert (Hlen1 : length (indices_ t1) = length (indices_ t)).
  { apply (permuted_within_splice _ _ offset offset (indices_ t)); lia. }
  destruct (lookup_lt_is_Some_2 (indices_ t1) (Z.to_nat offset))
    as [at_split Hat]; [lia|].
  unfold bind at 1 in Hrun.
  rewrite (proj2 (load_index_Ok offset t1 at_split t1)) in Hrun by done.
  unfold bind at 1 in Hrun.
  destruct (SplitIndices points_ fuel mls offset 0 _ t1) as [[left t2]|f2] eqn:Hleft.
  2: { simplify_eq. eapply IH; [| |exact Hleft]; lia. }
  pose proof (SplitIndices_spec fuel mls offset 0 _ t1 left t2
                Ho ltac:(lia) ltac:(lia) Hleft)
    as (_ & _ & (Hlen2 & _) & _ & extL & _ & _ & _ & _ & _ & Hn2 & _).
  unfold bind at 1 in Hrun.
  destruct (SplitIndices points_ fuel mls offset 0 _ t2) as [[right t3]|f3] eqn:Hright.
  2: { simplify_eq. eapply IH; [| |exact Hright]; lia. }
  pose proof (SplitIndices_spec fuel mls offset 0 _ t2 right t3
                Ho ltac:(lia) ltac:(lia) Hright)
    as (_ & _ & _ & _ & extR & _ & _ & _ & _ & _ & Hn3 & _).
  unfold bind, store_node in Hrun. simpl in Hrun.
  rewrite decide_True in Hrun; [done|].
  rewrite Hn3, Hn2. simpl. rewrite !length_app. simpl. lia.
Qed.

Lemma SplitIndices_diverges fuel :
  ∀ max_leaf_size offset size dim t,
    max_leaf_size < 1 →
    0 ≤ offset → 1 ≤ size → offset + size ≤ Z.of_nat (length (indices_ t)) →
    SplitIndices points_ fuel max_leaf_size offset size dim t = Err OutOfFuel.
Proof.
  induction fuel as [|fuel IH];
    intros mls offset size dim t Hmls Ho Hs Hlen; [done|].
  simpl. unfold bind at 1. simpl. rewrite decide_False by lia.
  destruct (quot2_bounds size ltac:(lia)) as (Hq0 & Hq1 & Hq2 & Hq3).
  specialize (Hq2 Hs).
  set (left_size := size `quot` 2) in *.
  unfold bind at 1. unfold nth_element_indices. simpl.
  rewrite decide_True by lia.
  match goal with |- bind _ _ ?t = _ => set (t1 := t) end.
  assert (Hlen1 : length (indices_ t1) = length (indices_ t)).
  { apply (permuted_within_splice _ _ offset (offset + size) (indices_ t)); lia. }
  destruct (lookup_lt_is_Some_2 (indices_ t1) (Z.to_nat (offset + left_size)))
    as [at_split Hat]; [lia|].
  unfold bind at 1.
  rewrite (proj2 (load_index_Ok (offset + left_size) t1 at_split t1))
    by (split_and!; [lia|done..]).
  unfold bind at 1.
  destruct (decide (1 ≤ left_size)) as [Hleft|Hleft].
  { rewrite IH by lia. done. }
  assert (left_size = 0) as -> by lia.
  edestruct (SplitIndices_empty_range fuel mls offset) as [->|(left & t2 & Hrun)];
    [| |done|]; [lia..|].
  rewrite Hrun.
  pose proof (SplitIndices_spec fuel mls offset 0 _ t1 left t2
                Ho ltac:(lia) ltac:(lia) Hrun) as (_ & _ & (Hlen2 & _) & _).
  unfold bind at 1. rewrite IH by lia. done.
Qed.

(** *** The constructor *)

Lemma KdTree_ctor_spec fuel max_leaf_size kd :
  KdTree_ctor points_ fuel max_leaf_size = Ok kd →
  0 < num_points points_ ∧
  Z.of_nat (length (indices_ kd)) = num_points points_ ∧
  indices_ kd ≡ₚ seqZ 0 (num_points points_) ∧
  ∃ tr, repr (nodes_ kd) (root_ kd) tr ∧
        lo tr = 0 ∧ hi tr = num_points points_ ∧
        wf_tree points_ (indices_ kd) tr ∧
        (0 < num_dimensions points_ → dims_in_range (num_dimensions points_) tr) ∧
        (1 ≤ max_leaf_size →
         leaves_nonempty tr ∧ Z.of_nat (height tr) < num_points points_).
Proof.
  unfold KdTree_ctor, vec_resize, MakeTree. intros Hrun.
  case_decide as HN; [|done]. simpl in Hrun.
  unfold bind at 1 in Hrun. simpl in Hrun.
  rewrite resize_nil, length_replicate, Z2Nat.id in Hrun by done.
  match type of Hrun with
  | context [SplitIndices _ _ _ _ _ _ ?t] => set (t0 := t) in *
  end.
  destruct (SplitIndices _ _ _ _ _ _ t0) as [[root t]|f] eqn:Hsplit; [|done].
  simpl in Hrun. case_decide as Hpos; [|done]. simplify_eq. simpl.
  apply SplitIndices_spec in Hsplit
    as (_ & _ & Hpw & tr & ext & Hlo & Hhi & Hwf & Hdim & Hne & Hn & Hrepr);
    simpl; [|rewrite ?length_seqZ; lia..].
  rewrite Z.add_0_l in *.
  pose proof Hpw as (Hlen & _). simpl in Hlen, Hpw, Hn.
  rewrite length_seqZ in Hlen.
  split_and!; [lia|lia| |].
  - apply permuted_within_all. by rewrite length_seqZ, Z2Nat.id.
  - exists tr. split_and!; try done.
    + specialize (Hrepr [] [] eq_refl). rewrite app_nil_r in Hrepr.
      by rewrite Hn.
    + intros HD. apply Hdim; [done|lia].
    + intros Hmls. apply Hne; [done|lia].
Qed.

Lemma KdTree_ctor_total fuel max_leaf_size :
  0 < num_points points_ → 1 ≤ max_leaf_size →
  num_points points_ < Z.of_nat fuel →
  ∃ kd, KdTree_ctor points_ fuel max_leaf_size = Ok kd.
Proof.
  intros HN Hmls Hfuel. unfold KdTree_ctor, vec_resize, MakeTree.
  rewrite decide_True by lia. simpl.
  unfold bind at 1. simpl.
  rewrite resize_nil, length_replicate, Z2Nat.id by lia.
  match goal with
  | |- context [SplitIndices _ _ _ _ _ _ ?t] => set (t0 := t)
  end.
  destruct (SplitIndices_total fuel max_leaf_size 0 (num_points points_) 0 t0)
    as (root & t & ->); simpl; rewrite ?length_seqZ; try lia.
  rewrite decide_True by lia. eauto.
Qed.

Lemma KdTree_ctor_empty fuel max_leaf_size :
  num_points points_ = 0 → 0 ≤ max_leaf_size →
  KdTree_ctor points_ (S fuel) max_leaf_size = Err AssertionFailed.
Proof.
  intros HN Hmls. unfold KdTree_ctor, vec_resize, MakeTree.
  rewrite HN. simpl. unfold bind, store_node. simpl.
  by destruct (decide (0 ≤ max_leaf_size)); [|lia].
Qed.

Lemma KdTree_ctor_diverges fuel max_leaf_size :
  0 < num_points points_ → max_leaf_size < 1 →
  KdTree_ctor points_ fuel max_leaf_size = Err OutOfFuel.
Proof.
  intros HN Hmls. unfold KdTree_ctor, vec_resize, MakeTree.
  rewrite decide_True by lia. simpl.
  unfold bind at 1. simpl.
  rewrite resize_nil, length_replicate, Z2Nat.id by lia.
  rewrite SplitIndices_diverges; simpl; rewrite ?length_seqZ; try lia. done.
Qed.
End construction.

(** ** The shape of the tree *)

Lemma laid_out_repr nodes t : ∀ node, laid_out nodes node t → repr nodes node t.
Proof.
  induction t as [b e|s d l IHl r IHr]; intros node; simpl.
  - by constructor.
  - intros (Hnode & Hl & Hr). econstructor; eauto.
Qed.

Lemma laid_out_ext nodes nodes' t :
  ∀ node,
    (∀ j, (node ≤ j < node + node_count t)%nat → nodes' !! j = nodes !! j) →
    laid_out nodes node t → laid_out nodes' node t.
Proof.
  induction t as [b e|s d l IHl r IHr]; intros node Hext; simpl in *.
  - intros <-. apply Hext. lia.
  - intros (Hnode & Hl & Hr). split_and!.
    + rewrite <- Hnode. apply Hext. lia.
    + apply IHl; [|done]. intros j Hj. apply Hext. lia.
    + apply IHr; [|done]. intros j Hj. apply Hext. lia.
Qed.

Lemma split_attained_ext points idx idx' t :
  wf_tree points idx t →
  (∀ i : nat, lo t ≤ Z.of_nat i < hi t → idx' !! i = idx !! i) →
  split_attained points idx t → split_attained points idx' t.
Proof.
  induction t as [b e|s d l IHl r IHr]; simpl; [done|].
  intros (Hwfl & Hwfr & Heq & _) Hext ((i & id & Hi & Hid & Hs) & Hl & Hr).
  pose proof (wf_tree_lo_hi _ _ _ Hwfl). pose proof (wf_tree_lo_hi _ _ _ Hwfr).
  split_and!.
  - exists i, id. split_and!; [lia..| |done]. rewrite <- Hid. apply Hext. lia.
  - apply IHl; [done| |done]. intros j Hj. apply Hext. lia.
  - apply IHr; [done| |done]. intros j Hj. apply Hext. lia.
Qed.

Section shape.
Context `{E : NthElement} `{!NthElementSpec E}.
Variable points_ : Points.

Lemma SplitIndices_shape fuel :
  ∀ max_leaf_size offset size dim t node t' tr,
    0 ≤ offset → 0 ≤ size → offset + size ≤ Z.of_nat (length (indices_ t)) →
    SplitIndices points_ fuel max_leaf_size offset size dim t = Ok (node, t') →
    repr (nodes_ t') node tr →
    length (nodes_ t') = (length (nodes_ t) + node_count tr)%nat ∧
    laid_out (nodes_ t') node tr ∧
    split_shape max_leaf_size (num_dimensions points_) dim tr ∧
    (0 ≤ max_leaf_size → split_attained points_ (indices_ t') tr).
Proof.
  induction fuel as [|fuel IH];
    intros mls offset size dim t node t' tr Ho Hs Hlen Hrun Hrepr; [done|].
  pose proof (SplitIndices_spec points_ _ _ _ _ _ _ _ _ Ho Hs Hlen Hrun)
    as (Hnode & _ & _ & tr0 & ext0 & Hlo0 & Hhi0 & Hwf0 & _ & _ & Hn0 & Hrepr0).
  assert (tr0 = tr) as ->.
  { eapply repr_inj; [|done]. specialize (Hrepr0 (nodes_ t) [] eq_refl).
    by rewrite app_nil_r, <- Hn0 in Hrepr0. }
  clear Hrepr0.
  simpl in Hrun.
  apply bind_Ok in Hrun as (node0 & t0 & Hmk & Hrun).
  apply MakeItem_Ok in Hmk as [-> ->].
  case_decide as Hleaf.
  - (* a leaf *)
    apply bind_Ok in Hrun as ([] & t1 & Hst & Hret).
    apply ret_Ok in Hret as [-> ->].
    apply store_node_Ok in Hst as [_ ->]. simpl in *.
    rewrite insert_app_r_alt, Nat.sub_diag in Hrepr |- * by lia. simpl in *.
    inversion Hrepr as [? ? ? Hlook|? ? ? ? ? ? ? Hlook]; subst;
      rewrite lookup_app_r, Nat.sub_diag in Hlook by lia; simplify_eq/=.
    split_and!; [rewrite length_app; simpl; lia| |lia|done].
    by rewrite lookup_app_r, Nat.sub_diag by lia.
  - (* a branch *)
    destruct (quot2_bounds size Hs) as (Hq0 & Hq1 & Hq2 & Hq3).
    set (left_size := size `quot` 2) in *.
    apply bind_Ok in Hrun as ([] & t1 & Hnth & Hrun).
    apply nth_element_indices_Ok in Hnth as [_ ->]. simpl in Hrun.
    apply bind_Ok in Hrun as (at_split & t1 & Hat & Hrun).
    apply load_index_Ok in Hat as (_ & Hat & ->). simpl in Hat.
    apply bind_Ok in Hrun as (left & t2 & Hleft & Hrun).
    apply bind_Ok in Hrun as (right & t3 & Hright & Hrun).
    apply bind_Ok in Hrun as ([] & t4 & Hst & Hret).
    apply ret_Ok in Hret as [-> ->].
    apply store_node_Ok in Hst as [_ ->]. simpl in *.
    set (comp := λ a b : Z, bool_decide (coord points_ a dim < coord points_ b dim)) in *.
    set (idx1 := take (Z.to_nat offset) (indices_ t)
                 ++ nth_element comp (Z.to_nat (offset + left_size - offset))
                      (slice (indices_ t) offset (offset + size))
                 ++ drop (Z.to_nat (offset + size)) (indices_ t)) in *.
    pose proof (permuted_within_splice comp
                  (Z.to_nat (offset + left_size - offset))
                  offset (offset + size) (indices_ t) Ho ltac:(lia) Hlen) as Hpw1.
    fold idx1 in Hpw1. pose proof Hpw1 as (Hlen1 & _ & _).
    set (t1 := {| nodes_ := nodes_ t ++ [Leaf 0 0]; indices_ := idx1;
                  root_ := root_ t |}) in *.
    pose proof (SplitIndices_spec points_ fuel mls offset left_size _ t1 left t2
                  Ho Hq0 ltac:(simpl; lia) Hleft)
      as (-> & _ & Hpw2 & trL & extL & HloL & HhiL & HwfL & _ & _ & Hn2 & HreprL).
    pose proof Hpw2 as (Hlen2 & Hout2 & _). simpl in Hlen2, Hout2, Hn2, HreprL.
    pose proof (SplitIndices_spec points_ fuel mls (offset + left_size)
                  (size - left_size) _ t2 right t3
                  ltac:(lia) ltac:(lia) ltac:(lia) Hright)
      as (-> & _ & Hpw3 & trR & extR & HloR & HhiR & HwfR & _ & _ & Hn3 & HreprR).
    pose proof Hpw3 as (Hlen3 & Hout3 & _).
    destruct (IH mls offset left_size _ t1 _ t2 trL Ho Hq0 ltac:(simpl; lia) Hleft)
      as (HcountL & HlaidL & HshapeL & HattL).
    { specialize (HreprL (nodes_ t ++ [Leaf 0 0]) [] eq_refl).
      by rewrite app_nil_r, <- Hn2 in HreprL. }
    destruct (IH mls (offset + left_size) (size - left_size) _ t2 _ t3 trR
                ltac:(lia) ltac:(lia) ltac:(lia) Hright)
      as (HcountR & HlaidR & HshapeR & HattR).
    { specialize (HreprR (nodes_ t2) [] eq_refl).
      by rewrite app_nil_r, <- Hn3 in HreprR. }
    subst t1. simpl in *.
    (* the final arena *)
    set (root := Branch (coord points_ at_split dim) dim
                   (length (nodes_ t ++ [Leaf 0 0])) (length (nodes_ t2))) in *.
    assert (Hfinal : @insert ptr Node (list Node) _ (length (nodes_ t)) root (nodes_ t3)
                     = nodes_ t ++ root :: extL ++ extR).
    { rewrite Hn3, Hn2, <- !(assoc_L (++)).
      by rewrite insert_app_r_alt, Nat.sub_diag by lia. }
    rewrite Hfinal in Hrepr |- *.
    assert (tr = TBranch (coord points_ at_split dim) dim trL trR) as ->.
    { eapply repr_inj; [done|]. econstructor.
      - by rewrite lookup_app_r, Nat.sub_diag by lia.
      - specialize (HreprL (nodes_ t ++ [root]) extR).
        rewrite <- !(assoc_L (++)) in HreprL. apply HreprL.
        rewrite !length_app. simpl. lia.
      - specialize (HreprR (nodes_ t ++ root :: extL) []).
        rewrite app_nil_r, <- !(assoc_L (++)) in HreprR. apply HreprR.
        rewrite Hn2, !length_app. simpl. lia. }
    assert (HlenL : length extL = node_count trL).
    { rewrite Hn2, !length_app in HcountL. simpl in HcountL. lia. }
    assert (HlenR : length extR = node_count trR).
    { rewrite Hn3, !length_app in HcountR. lia. }
    simpl. split_and!.
    + rewrite !length_app. simpl. rewrite length_app. lia.
    + rewrite lookup_app_r, Nat.sub_diag by lia. simpl. unfold root.
      do 2 f_equal; [rewrite length_app; simpl; lia|].
      rewrite Hn2, !length_app. simpl. lia.
    + assert (HSn : length (nodes_ t ++ [Leaf 0 0]) = S (length (nodes_ t)))
        by (rewrite length_app; simpl; lia).
      rewrite HSn in HlaidL.
      apply (laid_out_ext (nodes_ t2)); [|exact HlaidL].
      intros j Hj.
      rewrite Hn2, <- (assoc_L (++)).
      rewrite (lookup_app_r (nodes_ t)), (lookup_app_r (nodes_ t)) by lia.
      replace (j - length (nodes_ t))%nat with (S (j - length (nodes_ t) - 1)) by lia.
      simpl. by rewrite lookup_app_l by lia.
    + assert (HSn : length (nodes_ t2) = (S (length (nodes_ t)) + node_count trL)%nat)
        by (rewrite Hn2, !length_app; simpl; lia).
      rewrite HSn in HlaidR.
      apply (laid_out_ext (nodes_ t3)); [|exact HlaidR].
      intros j Hj. rewrite Hn3.
      rewrite Hn2, <- !(assoc_L (++)).
      rewrite (lookup_app_r (nodes_ t)), (lookup_app_r (nodes_ t)) by lia.
      replace (j - length (nodes_ t))%nat with (S (j - length (nodes_ t) - 1)) by lia.
      done.
    + rewrite HhiR, HloL. lia.
    + done.
    + rewrite HhiL, HhiR, HloL.
      replace (offset + left_size + (size - left_size) - offset) with size by lia.
      fold left_size. lia.
    + done.
    + done.
    + intros Hmls.
      assert (Hsize : left_size < size) by (apply Hq2; lia).
      split_and!.
      * assert (Hin : at_split ∈ slice (indices_ t3) (offset + left_size)
                                  (offset + left_size + (size - left_size))).
        { destruct Hpw3 as (_ & _ & ->).
          apply elem_of_slice; [lia|]. exists (offset + left_size).
          split; [lia|].
          rewrite <- (Nat2Z.id (Z.to_nat (offset + left_size))).
          rewrite Hout2 by lia. by rewrite Nat2Z.id. }
        apply elem_of_slice in Hin as (i & Hi & Hid); [|lia].
        exists i, at_split. split_and!; [lia..|done|done].
      * eapply split_attained_ext; [exact HwfL| |by apply HattL].
        intros i Hi. apply Hout3. lia.
      * by apply HattR.
Qed.
End shape.

Lemma leaves_length_pos t : (0 < length (leaves t))%nat.
Proof.
  induction t as [b e|s d l IHl r IHr]; simpl; [lia|].
  rewrite length_app. lia.
Qed.

Lemma node_count_leaves t : node_count t = (2 * length (leaves t) - 1)%nat.
Proof.
  induction t as [b e|s d l IHl r IHr]; simpl; [done|].
  pose proof (leaves_length_pos l). pose proof (leaves_length_pos r).
  rewrite length_app. lia.
Qed.

Lemma leaves_nonempty_length points idx t :
  wf_tree points idx t → leaves_nonempty t →
  Z.of_nat (length (leaves t)) ≤ hi t - lo t.
Proof.
  unfold leaves_nonempty.
  induction t as [b e|s d l IHl r IHr]; simpl.
  - intros _ Hne. rewrite Forall_singleton in Hne. lia.
  - intros (Hl & Hr & Heq & _) Hne. rewrite Forall_app in Hne.
    destruct Hne as [Hnel Hner]. specialize (IHl Hl Hnel). specialize (IHr Hr Hner).
    rewrite length_app. lia.
Qed.

Lemma split_shape_leaves mls D t :
  ∀ dim, split_shape mls D dim t → Forall (λ '(b, e), e - b ≤ mls) (leaves t).
Proof.
  induction t as [b e|s d l IHl r IHr]; simpl; intros dim.
  - intros Hle. by apply Forall_singleton.
  - intros (_ & _ & _ & Hl & Hr). apply Forall_app. eauto.
Qed.

Lemma split_shape_branches points idx mls D t :
  ∀ dim, wf_tree points idx t → split_shape mls D dim t →
    ∀ split d l r, (split, d, l, r) ∈ branches t →
      mls < hi r - lo l ∧ hi l = lo r ∧
      0 ≤ (hi r - lo r) - (hi l - lo l) ≤ 1.
Proof.
  induction t as [b e|s d0 l0 IHl r0 IHr]; simpl; intros dim Hwf Hshape split d l r Hin.
  - by apply elem_of_nil in Hin.
  - destruct Hwf as (Hwfl & Hwfr & Heq & _).
    destruct Hshape as (Hsize & _ & Hhalf & Hl & Hr).
    apply elem_of_cons in Hin as [Hin|Hin];
      [|apply elem_of_app in Hin as [Hin|Hin]; eauto].
    injection Hin as -> -> -> ->.
    pose proof (wf_tree_lo_hi _ _ _ Hwfl). pose proof (wf_tree_lo_hi _ _ _ Hwfr).
    rewrite Z.quot_div_nonneg in Hhalf by lia.
    pose proof (Z.div_mod (hi r0 - lo l0) 2 ltac:(lia)).
    pose proof (Z.mod_pos_bound (hi r0 - lo l0) 2 ltac:(lia)). lia.
Qed.

Lemma split_shape_height points idx mls D t :
  ∀ dim, wf_tree points idx t → split_shape mls D dim t → 1 ≤ mls →
    hi t - lo t ≤ mls * 2 ^ Z.of_nat (height t) ∧
    ∀ h, height t = S h → mls * 2 ^ Z.of_nat h < hi t - lo t.
Proof.
  induction t as [b e|s d l IHl r IHr]; simpl; intros dim Hwf Hshape Hmls.
  - split; [lia|done].
  - destruct Hwf as (Hwfl & Hwfr & Heq & _).
    destruct Hshape as (Hsize & _ & Hhalf & Hl & Hr).
    destruct (IHl _ Hwfl Hl Hmls) as [Hupl Hlowl].
    destruct (IHr _ Hwfr Hr Hmls) as [Hupr Hlowr].
    pose proof (wf_tree_lo_hi _ _ _ Hwfl). pose proof (wf_tree_lo_hi _ _ _ Hwfr).
    rewrite Z.quot_div_nonneg in Hhalf by lia.
    pose proof (Z.div_mod (hi r - lo l) 2 ltac:(lia)).
    pose proof (Z.mod_pos_bound (hi r - lo l) 2 ltac:(lia)).
    set (m := (height l `max` height r)%nat) in *.
    assert (Hpl : 2 ^ Z.of_nat (height l) ≤ 2 ^ Z.of_nat m)
      by (apply Z.pow_le_mono_r; lia).
    assert (Hpr : 2 ^ Z.of_nat (height r) ≤ 2 ^ Z.of_nat m)
      by (apply Z.pow_le_mono_r; lia).
    split.
    + rewrite Nat2Z.inj_succ, Z.pow_succ_r by lia.
      assert (mls * 2 ^ Z.of_nat (height l) ≤ mls * 2 ^ Z.of_nat m) by nia.
      assert (mls * 2 ^ Z.of_nat (height r) ≤ mls * 2 ^ Z.of_nat m) by nia.
      replace (mls * (2 * 2 ^ Z.of_nat m)) with (2 * (mls * 2 ^ Z.of_nat m)) by ring.
      lia.
    + intros h [= <-]. destruct m as [|m'] eqn:Hm; [simpl; lia|].
      rewrite Nat2Z.inj_succ, Z.pow_succ_r by lia.
      replace (mls * (2 * 2 ^ Z.of_nat m')) with (2 * (mls * 2 ^ Z.of_nat m')) by ring.
      destruct (Nat.max_spec (height l) (height r)) as [[_ Hmax]|[_ Hmax]];
        fold m in Hmax; rewrite Hm in Hmax; symmetry in Hmax.
      * specialize (Hlowr m' Hmax). lia.
      * specialize (Hlowl m' Hmax). lia.
Qed.

Lemma split_shape_dims mls D t :
  ∀ dim k, split_shape mls D dim t → 0 ≤ dim < D →
    ∀ j d, (j, d) ∈ branch_dims k t →
      (k ≤ j)%nat ∧ d = (dim + Z.of_nat (j - k)) `mod` D.
Proof.
  induction t as [b e|s d0 l IHl r IHr]; simpl; intros dim k Hshape Hdim j d Hin.
  - by apply elem_of_nil in Hin.
  - destruct Hshape as (_ & -> & _ & Hl & Hr).
    assert (Hnext : 0 ≤ (if decide (dim + 1 < D) then dim + 1 else 0) < D
                    ∧ (if decide (dim + 1 < D) then dim + 1 else 0)
                      = (dim + 1) `mod` D).
    { case_decide.
      - rewrite Z.mod_small by lia. lia.
      - replace (dim + 1) with D by lia. rewrite Z.mod_same by lia. lia. }
    destruct Hnext as [Hnext Hmod].
    apply elem_of_cons in Hin as [Hin|Hin].
    + simplify_eq. split; [done|].
      rewrite Nat.sub_diag, Z.add_0_r. by rewrite Z.mod_small.
    + assert ((j, d) ∈ branch_dims (S k) l ∨ (j, d) ∈ branch_dims (S k) r) as Hin'
        by (by apply elem_of_app).
      assert ((S k ≤ j)%nat
              ∧ d = ((if decide (dim + 1 < D) then dim + 1 else 0)
                     + Z.of_nat (j - S k)) `mod` D) as [Hj ->]
        by (destruct Hin'; eauto).
      split; [lia|]. rewrite Hmod, Zplus_mod_idemp_l. f_equal. lia.
Qed.

Lemma split_attained_branches points idx t :
  wf_tree points idx t → split_attained points idx t →
  ∀ split dim l r, (split, dim, l, r) ∈ branches t →
    ∃ id, id ∈ ids_under idx r ∧ coord points id dim = split.
Proof.
  induction t as [b e|s d0 l0 IHl r0 IHr]; simpl; intros Hwf Hatt split dim l r Hin.
  - by apply elem_of_nil in Hin.
  - destruct Hwf as (Hwfl & Hwfr & Heq & _).
    destruct Hatt as ((i & id & Hi & Hid & Hs) & Hl & Hr).
    apply elem_of_cons in Hin as [Hin|Hin];
      [|apply elem_of_app in Hin as [Hin|Hin]; eauto].
    injection Hin as -> -> -> ->. exists id. split; [|done].
    rewrite (ids_under_wf points) by done.
    pose proof (wf_tree_lo_hi _ _ _ Hwfr).
    apply elem_of_slice; [lia|]. eauto.
Qed.

Section shape_of_index.
Context `{SL : ScalarLimits} `{E : NthElement} `{!NthElementSpec E}.
Variable points_ : Points.

(** What the constructor establishes beyond the ordering: where the nodes
    lie in the arena, how the ranges are halved, and that a split value is
    a coordinate of a point on the right. *)
Lemma KdTree_ctor_shape fuel max_leaf_size kd tr :
  KdTree_ctor points_ fuel max_leaf_size = Ok kd →
  repr (nodes_ kd) (root_ kd) tr →
  root_ kd = 0%nat ∧
  length (nodes_ kd) = node_count tr ∧
  laid_out (nodes_ kd) 0%nat tr ∧
  split_shape max_leaf_size (num_dimensions points_) 0 tr ∧
  split_attained points_ (indices_ kd) tr.
Proof.
  intros Hctor Hrepr.
  assert (Hmls : 1 ≤ max_leaf_size).
  { destruct (decide (1 ≤ max_leaf_size)); [done|].
    pose proof (KdTree_ctor_spec _ _ _ _ Hctor) as [HN _].
    rewrite KdTree_ctor_diverges in Hctor by lia. done. }
  revert Hctor Hrepr.
  unfold KdTree_ctor, vec_resize, MakeTree. intros Hrun.
  case_decide as HN'; [|done]. simpl in Hrun.
  unfold bind at 1 in Hrun. simpl in Hrun.
  rewrite resize_nil, length_replicate, Z2Nat.id in Hrun by done.
  match type of Hrun with
  | context [SplitIndices _ _ _ _ _ _ ?t] => set (t0 := t) in *
  end.
  destruct (SplitIndices _ _ _ _ _ _ t0) as [[root t]|f] eqn:Hsplit; [|done].
  simpl in Hrun. case_decide as Hpos; [|done]. simplify_eq. simpl.
  intros Hrepr.
  assert (Hlen : 0 + num_points points_ ≤ Z.of_nat (length (indices_ t0)))
    by (subst t0; simpl; rewrite length_seqZ; lia).
  pose proof (SplitIndices_spec points_ fuel max_leaf_size 0 (num_points points_)
                0 t0 root t ltac:(lia) ltac:(lia) Hlen Hsplit) as (-> & _).
  destruct (SplitIndices_shape points_ fuel max_leaf_size 0 (num_points points_)
              0 t0 _ t tr ltac:(lia) ltac:(lia) Hlen Hsplit Hrepr)
    as (Hcount & Hlaid & Hshape & Hatt).
  subst t0. simpl in *. split_and!; try done. apply Hatt. lia.
Qed.
End shape_of_index.

(** ** The metric *)

Section metric.
Variable points_ : Points.

Lemma sq_dist_loop_ge n : ∀ i p idx d, d ≤ sq_dist_loop points_ n i p idx d.
Proof.
  induction n as [|n IH]; intros i p idx d; simpl; [lia|].
  etrans; [|apply IH].
  pose proof (Z.square_nonneg (p i - coord points_ idx i)). lia.
Qed.

Lemma sq_dist_loop_dim n :
  ∀ i p idx d dim,
    i ≤ dim < i + Z.of_nat n →
    d + (p dim - coord points_ idx dim) * (p dim - coord points_ idx dim)
    ≤ sq_dist_loop points_ n i p idx d.
Proof.
  induction n as [|n IH]; intros i p idx d dim Hdim; simpl; [lia|].
  destruct (decide (dim = i)) as [->|Hne].
  - apply sq_dist_loop_ge.
  - etrans; [|apply (IH _ _ _ _ dim); lia].
    pose proof (Z.square_nonneg (p i - coord points_ idx i)). lia.
Qed.

(** The squared distance is at least the squared difference along any one
    of the D dimensions. *)
Lemma sq_dist_dim p idx dim :
  0 ≤ dim < num_dimensions points_ →
  (p dim - coord points_ idx dim) * (p dim - coord points_ idx dim)
  ≤ sq_dist points_ p idx.
Proof.
  intros Hdim. unfold sq_dist.
  etrans; [|apply (sq_dist_loop_dim _ _ _ _ _ dim); lia]. lia.
Qed.

Lemma sq_dist_nonneg p idx : 0 ≤ sq_dist points_ p idx.
Proof. apply sq_dist_loop_ge. Qed.

Context `{SL : ScalarLimits}.

(** A value of the range is what it is. *)
Lemma Scalar_wrap_id x :
  - Scalar_max - 1 ≤ x ≤ Scalar_max → Scalar_wrap x = x.
Proof.
  intros Hx. unfold Scalar_wrap. rewrite Z.mod_small by lia. lia.
Qed.

(** A value whose square is in the range is in the range, with its
    square. *)
Lemma Scalar_wrap_square v :
  v * v ≤ Scalar_max →
  Scalar_wrap v = v ∧ Scalar_wrap (v * v) = v * v.
Proof.
  intros Hv. pose proof (Z.square_nonneg v).
  split; apply Scalar_wrap_id; nia.
Qed.

Lemma MetricL2_loop_exact n :
  ∀ i p idx d,
    0 ≤ d → sq_dist_loop points_ n i p idx d ≤ Scalar_max →
    MetricL2_loop points_ n i p idx d = sq_dist_loop points_ n i p idx d.
Proof.
  induction n as [|n IH]; intros i p idx d Hd Hmax; simpl in *; [done|].
  pose proof (sq_dist_loop_ge n (i + 1) p idx
                (d + (p i - coord points_ idx i) * (p i - coord points_ idx i))).
  pose proof (Z.square_nonneg (p i - coord points_ idx i)).
  destruct (Scalar_wrap_square (p i - coord points_ idx i)) as [-> ->]; [lia|].
  rewrite (Scalar_wrap_id (d + _)) by lia.
  apply IH; [lia|done].
Qed.

(** Where the squared distance is a value of [Scalar], it is what
    [MetricL2] computes: no operation on the way leaves the range. *)
Lemma MetricL2_exact p idx :
  sq_dist points_ p idx ≤ Scalar_max →
  MetricL2 points_ p idx = sq_dist points_ p idx.
Proof.
  intros Hmax. unfold MetricL2, sq_dist, dimensions_ in *.
  by apply MetricL2_loop_exact.
Qed.

(** The difference to the coordinate of such a point, and its square, are
    values of [Scalar] as well. *)
Lemma Scalar_wrap_coordinate p idx dim :
  sq_dist points_ p idx ≤ Scalar_max →
  0 ≤ dim < num_dimensions points_ →
  Scalar_wrap (p dim - coord points_ idx dim) = p dim - coord points_ idx dim ∧
  Scalar_wrap ((p dim - coord points_ idx dim) * (p dim - coord points_ idx dim))
  = (p dim - coord points_ idx dim) * (p dim - coord points_ idx dim).
Proof.
  intros Hmax Hdim. apply Scalar_wrap_square.
  pose proof (sq_dist_dim p idx dim Hdim). lia.
Qed.
End metric.

(** ** The traversal never writes the index *)

Section frame.
Context `{SL : ScalarLimits}.
Variable points_ : Points.
Context {V : Type} `{!internal.Visitor V}.

Lemma visit_leaf_frame n :
  ∀ p i max v t v' t',
    visit_leaf points_ n p i max v t = Ok (v', t') → t' = t.
Proof.
  induction n as [|n IH]; intros p i max v t v' t' Hrun; simpl in Hrun.
  - by apply ret_Ok in Hrun as [_ ->].
  - apply bind_Ok in Hrun as (idx & t1 & Hidx & Hrun).
    apply load_index_Ok in Hidx as (_ & _ & ->).
    case_decide.
    + apply bind_Ok in Hrun as (v1 & t1 & Hv & Hrun).
      apply lift_Ok in Hv as [_ ->]. eauto.
    + eauto.
Qed.

Lemma SearchNn_node_frame fuel :
  ∀ p node v t v' t',
    SearchNn_node points_ fuel p node v t = Ok (v', t') → t' = t.
Proof.
  induction fuel as [|fuel IH]; intros p node v t v' t' Hrun; [done|].
  simpl in Hrun.
  apply bind_Ok in Hrun as (n & t1 & Hn & Hrun).
  apply load_node_Ok in Hn as [_ ->].
  destruct n as [split dim l r|b e].
  - case_decide.
    + apply bind_Ok in Hrun as (v1 & t1 & H1 & Hrun). apply IH in H1 as ->.
      apply bind_Ok in Hrun as (m & t1 & Hm & Hrun).
      apply lift_Ok in Hm as [_ ->].
      case_decide; [eauto|]. by apply ret_Ok in Hrun as [_ ->].
    + apply bind_Ok in Hrun as (v1 & t1 & H1 & Hrun). apply IH in H1 as ->.
      apply bind_Ok in Hrun as (m & t1 & Hm & Hrun).
      apply lift_Ok in Hm as [_ ->].
      case_decide; [eauto|]. by apply ret_Ok in Hrun as [_ ->].
  - apply bind_Ok in Hrun as (m & t1 & Hm & Hrun).
    apply lift_Ok in Hm as [_ ->].
    by apply visit_leaf_frame in Hrun.
Qed.
End frame.

(** ** Radius search *)

Lemma within_radius_app points p radius ids1 ids2 :
  within_radius points p radius (ids1 ++ ids2)
  = within_radius points p radius ids1 ++ within_radius points p radius ids2.
Proof. unfold within_radius. by rewrite filter_app, fmap_app. Qed.

Lemma within_radius_none points p radius ids :
  (∀ id, id ∈ ids → radius ≤ sq_dist points p id) →
  within_radius points p radius ids = [].
Proof.
  intros Hfar. unfold within_radius.
  induction ids as [|id ids IH]; [done|].
  rewrite filter_cons_False.
  - apply IH. intros id' Hin. apply Hfar. by right.
  - specialize (Hfar id ltac:(left)). lia.
Qed.

#[global] Instance within_radius_Permutation points p radius :
  Proper ((≡ₚ) ==> (≡ₚ)) (within_radius points p radius).
Proof. intros ids1 ids2 Hperm. unfold within_radius. by rewrite Hperm. Qed.

(** ** Queries whose distances are values of Scalar *)

Section in_range.
Context `{SL : ScalarLimits}.
Variable points_ : Points.
Variable p : P.
Variable t : KdTree.

Hypothesis in_range :
  ∀ idx, idx ∈ indices_ t → sq_dist points_ p idx ≤ Scalar_max.

Lemma MetricL2_in_range idx :
  idx ∈ indices_ t → MetricL2 points_ p idx = sq_dist points_ p idx.
Proof. intros Hidx. by apply MetricL2_exact, in_range. Qed.

Lemma MetricL2_lookup_in_range (i : nat) idx :
  indices_ t !! i = Some idx → MetricL2 points_ p idx = sq_dist points_ p idx.
Proof. intros Hidx. by eapply MetricL2_in_range, list_elem_of_lookup_2. Qed.

(** The distance is at least the squared difference along any one of the
    D dimensions. *)
Lemma MetricL2_dim (i : nat) idx dim :
  indices_ t !! i = Some idx →
  0 ≤ dim < num_dimensions points_ →
  (p dim - coord points_ idx dim) * (p dim - coord points_ idx dim)
  ≤ MetricL2 points_ p idx.
Proof.
  intros Hidx Hdim. rewrite (MetricL2_lookup_in_range _ _ Hidx).
  by apply sq_dist_dim.
Qed.

(** The test that prunes the far side of a branch is exact: the split
    value is the coordinate of a point of the index. *)
Lemma prune_in_range split dim (lo_r hi_r : Z) :
  0 ≤ dim < num_dimensions points_ →
  (∃ i id, lo_r ≤ i < hi_r ∧ indices_ t !! Z.to_nat i = Some id ∧
           coord points_ id dim = split) →
  Scalar_wrap (p dim - split) = p dim - split ∧
  Scalar_wrap ((p dim - split) * (p dim - split))
  = (p dim - split) * (p dim - split).
Proof.
  intros Hdim (i & id & _ & Hid & <-).
  apply Scalar_wrap_coordinate; [|done].
  by eapply in_range, list_elem_of_lookup_2.
Qed.

(** *** Radius search *)

Variable radius : Z.

Lemma visit_leaf_radius n :
  ∀ i acc,
    0 ≤ i → i + Z.of_nat n ≤ Z.of_nat (length (indices_ t)) →
    visit_leaf points_ n p i radius (internal.mkSearchRadius radius acc) t
    = Ok (internal.mkSearchRadius radius
            (acc ++ within_radius points_ p radius
                      (slice (indices_ t) i (i + Z.of_nat n))), t).
Proof.
  induction n as [|n IH]; intros i acc Hi Hlen; simpl.
  - rewrite slice_nil by lia. unfold within_radius. simpl.
    by rewrite app_nil_r.
  - destruct (lookup_lt_is_Some_2 (indices_ t) (Z.to_nat i)) as [idx Hidx]; [lia|].
    unfold bind at 1.
    rewrite (proj2 (load_index_Ok i t idx t)) by done.
    rewrite (MetricL2_lookup_in_range _ _ Hidx).
    rewrite (slice_cons _ i _ idx) by (done || lia).
    replace (i + Z.of_nat (S n)) with (i + 1 + Z.of_nat n) by lia.
    unfold within_radius at 1. rewrite filter_cons.
    case_decide as Hnear.
    + rewrite decide_True by lia. unfold bind, lift. simpl.
      unfold internal.SearchRadius_visit. simpl.
      rewrite IH by lia. by rewrite <- (assoc_L (++)).
    + rewrite decide_False by lia. by rewrite IH by lia.
Qed.

Lemma SearchNn_node_radius tr :
  ∀ fuel node acc,
    wf_tree points_ (indices_ t) tr →
    dims_in_range (num_dimensions points_) tr →
    split_attained points_ (indices_ t) tr →
    repr (nodes_ t) node tr →
    (height tr < fuel)%nat →
    ∃ found,
      SearchNn_node points_ fuel p node (internal.mkSearchRadius radius acc) t
      = Ok (internal.mkSearchRadius radius (acc ++ found), t) ∧
      found ≡ₚ within_radius points_ p radius (slice (indices_ t) (lo tr) (hi tr)).
Proof.
  induction tr as [b e|split dim l IHl r IHr];
    intros fuel node acc Hwf Hdims Hatt Hrepr Hfuel;
    (destruct fuel as [|fuel]; [simpl in Hfuel; lia|]);
    inversion Hrepr as [? ? ? Hnode|? ? ? pl pr ? ? Hnode Hreprl Hreprr]; subst;
    simpl; unfold bind at 1;
    rewrite (proj2 (load_node_Ok _ _ _ _)) by done.
  - (* a leaf *)
    simpl in Hwf. simpl. unfold bind, lift. simpl.
    eexists. split; [|done].
    rewrite visit_leaf_radius by lia.
    by replace (b + Z.of_nat (Z.to_nat (e - b))) with e by lia.
  - (* a branch *)
    simpl in Hwf, Hdims, Hatt, Hfuel.
    destruct Hwf as (Hwfl & Hwfr & Heq & Hle & Hge).
    destruct Hdims as (Hdim & Hdl & Hdr).
    destruct Hatt as (Hsplit & Hal & Har).
    destruct (prune_in_range split dim _ _ Hdim Hsplit) as [-> ->].
    pose proof (wf_tree_lo_hi _ _ _ Hwfl). pose proof (wf_tree_lo_hi _ _ _ Hwfr).
    rewrite (slice_app _ (lo l) (hi l) (hi r)) by lia.
    rewrite within_radius_app, Heq.
    destruct (IHl fuel pl acc) as (foundl & Hrunl & Hfoundl);
      [done..|lia|].
    rewrite Heq in Hfoundl.
    case_decide as Hside.
    + (* the query is on the left *)
      unfold bind at 1. rewrite Hrunl. unfold bind at 1. simpl.
      case_decide as Hprune.
      * destruct (IHr fuel pr (acc ++ foundl)) as (foundr & Hrunr & Hfoundr);
          [done..|lia|].
        exists (foundl ++ foundr). rewrite Hrunr, (assoc_L (++)).
        split; [done|]. by rewrite Hfoundl, Hfoundr.
      * exists foundl. split; [done|].
        rewrite (within_radius_none _ _ _ (slice _ (lo r) (hi r))).
        { by rewrite app_nil_r. }
        intros id (i & Hi & Hid)%elem_of_slice; [|lia].
        pose proof (Hge i id Hi Hid).
        pose proof (sq_dist_dim points_ p id dim Hdim). nia.
    + (* the query is on the right *)
      destruct (IHr fuel pr acc) as (foundr & Hrunr & Hfoundr);
        [done..|lia|].
      unfold bind at 1. rewrite Hrunr. unfold bind at 1. simpl.
      case_decide as Hprune.
      * destruct (IHl fuel pl (acc ++ foundr)) as (foundl' & Hrunl' & Hfoundl');
          [done..|lia|].
        exists (foundr ++ foundl'). rewrite Hrunl', (assoc_L (++)).
        split; [done|]. rewrite Heq in Hfoundl'.
        rewrite Hfoundl', Hfoundr. apply Permutation_app_comm.
      * exists foundr. split; [done|].
        rewrite (within_radius_none _ _ _ (slice _ (lo l) (lo r))).
        { done. }
        intros id (i & Hi & Hid)%elem_of_slice; [|lia].
        pose proof (Hle i id ltac:(lia) Hid).
        pose proof (sq_dist_dim points_ p id dim Hdim). nia.
Qed.
End in_range.

(** ** Two runs of the traversal *)

Lemma M_rel_bind {A1 A2 B1 B2} (R : A1 → A2 → Prop) (R' : B1 → B2 → Prop) t
    (m1 : M A1) (m2 : M A2) (k1 : A1 → M B1) (k2 : A2 → M B2) :
  M_rel R t m1 m2 →
  (∀ a1 a2, R a1 a2 → M_rel R' t (k1 a1) (k2 a2)) →
  M_rel R' t (bind m1 k1) (bind m2 k2).
Proof.
  unfold M_rel, bind. intros Hm Hk.
  destruct (m1 t) as [[a1 t1]|f1], (m2 t) as [[a2 t2]|f2]; simpl in *; try done.
  destruct Hm as (HR & -> & ->). by apply Hk.
Qed.

Lemma M_rel_ret {A1 A2} (R : A1 → A2 → Prop) t a1 a2 :
  R a1 a2 → M_rel R t (ret a1) (ret a2).
Proof. by unfold M_rel. Qed.

Lemma M_rel_lift {A1 A2} (R : A1 → A2 → Prop) t (r1 : Res A1) (r2 : Res A2) :
  res_rel R r1 r2 → M_rel R t (lift r1) (lift r2).
Proof. unfold M_rel. by destruct r1, r2. Qed.

Lemma M_rel_load_index t i :
  M_rel (λ idx1 idx2, idx1 = idx2 ∧ idx1 ∈ indices_ t) t (load_index i) (load_index i).
Proof.
  unfold M_rel. destruct (load_index i t) as [[idx t']|f] eqn:Hload; [|done].
  apply load_index_Ok in Hload as (_ & Hidx & ->). simpl.
  split_and!; try done. by eapply list_elem_of_lookup_2.
Qed.

Lemma M_rel_load_node t node :
  M_rel eq t (load_node node) (load_node node).
Proof.
  unfold M_rel. destruct (load_node node t) as [[n t']|f] eqn:Hload; [|done].
  by apply load_node_Ok in Hload as (_ & ->).
Qed.

Section simulation.
Context `{SL : ScalarLimits}.
Variable points_ : Points.
Context {V1 V2 : Type} `{!internal.Visitor V1, !internal.Visitor V2}.
Variable R : V1 → V2 → Prop.
Variable p : P.
Variable t : KdTree.

Hypothesis R_max :
  ∀ v1 v2, R v1 v2 → res_rel eq (internal.v_max v1) (internal.v_max v2).
Hypothesis R_visit :
  ∀ v1 v2 idx, R v1 v2 → idx ∈ indices_ t →
    res_rel R (internal.visit v1 idx (MetricL2 points_ p idx))
              (internal.visit v2 idx (MetricL2 points_ p idx)).

Lemma visit_leaf_sim n :
  ∀ i max v1 v2, R v1 v2 →
    M_rel R t (visit_leaf points_ n p i max v1) (visit_leaf points_ n p i max v2).
Proof.
  induction n as [|n IH]; intros i max v1 v2 HR; simpl.
  - by apply M_rel_ret.
  - eapply M_rel_bind; [apply M_rel_load_index|].
    intros idx ? [<- Hidx]. case_decide; [|by apply IH].
    eapply M_rel_bind; [apply M_rel_lift, R_visit; done|].
    intros v1' v2' HR'. by apply IH.
Qed.

Lemma SearchNn_node_sim fuel :
  ∀ node v1 v2, R v1 v2 →
    M_rel R t (SearchNn_node points_ fuel p node v1)
              (SearchNn_node points_ fuel p node v2).
Proof.
  induction fuel as [|fuel IH]; intros node v1 v2 HR; simpl; [done|].
  eapply M_rel_bind; [apply M_rel_load_node|].
  intros n ? <-. destruct n as [split dim l r|b e].
  - case_decide.
    + eapply M_rel_bind; [by apply IH|]. intros v1' v2' HR'.
      eapply M_rel_bind; [apply M_rel_lift, R_max; done|]. intros m ? <-.
      case_decide; [by apply IH|by apply M_rel_ret].
    + eapply M_rel_bind; [by apply IH|]. intros v1' v2' HR'.
      eapply M_rel_bind; [apply M_rel_lift, R_max; done|]. intros m ? <-.
      case_decide; [by apply IH|by apply M_rel_ret].
  - eapply M_rel_bind; [apply M_rel_lift, R_max; done|]. intros m ? <-.
    by apply visit_leaf_sim.
Qed.
End simulation.

(** ** The k-nearest visitor *)

Section knn.
Context `{SL : ScalarLimits}.
Variable Q : Z * Z → Prop.

Lemma agree_except_lookup len c hole knn1 knn2 (i : Z) :
  agree_except Q len c hole knn1 knn2 →
  0 ≤ i < c → i ≠ hole →
  ∃ e, vec_at knn1 i = Ok e ∧ vec_at knn2 i = Ok e ∧ Q e.
Proof.
  intros (_ & _ & Hagree) Hi Hne.
  destruct (Hagree (Z.to_nat i)) as (e & H1 & H2 & HQ); [lia..|].
  exists e. split_and!; [apply vec_at_Ok..|]; done || (split; [lia|done]).
Qed.

Lemma agree_except_store len c hole hole' knn1 knn2 e :
  agree_except Q len c hole knn1 knn2 →
  0 ≤ hole < Z.of_nat len → Q e →
  ∃ knn1' knn2',
    vec_store knn1 hole e = Ok knn1' ∧ vec_store knn2 hole e = Ok knn2' ∧
    agree_except Q len c hole' knn1' knn2' ∧
    ∀ j : nat, Z.of_nat j ≠ hole →
      knn1' !! j = knn1 !! j ∧ knn2' !! j = knn2 !! j.
Proof.
  intros (Hl1 & Hl2 & Hagree) Hhole HQ.
  exists (<[Z.to_nat hole := e]> knn1), (<[Z.to_nat hole := e]> knn2).
  split_and!.
  - apply vec_store_Ok. split; [lia|done].
  - apply vec_store_Ok. split; [lia|done].
  - split_and!; [by rewrite length_insert..|].
    intros j Hj _. destruct (decide (Z.of_nat j = hole)) as [<-|Hne].
    + exists e. rewrite Nat2Z.id.
      rewrite !list_lookup_insert_eq by lia. done.
    + rewrite !list_lookup_insert_ne by lia. by apply Hagree.
  - intros j Hj. rewrite !list_lookup_insert_ne by lia. done.
Qed.

Lemma InsertSorted_loop_sim len c n :
  ∀ i d knn1 knn2,
    agree_except Q len c i knn1 knn2 →
    0 ≤ i < c → c ≤ Z.of_nat len →
    ∃ i' knn1' knn2',
      internal.InsertSorted_loop n i d knn1 = Ok (i', knn1') ∧
      internal.InsertSorted_loop n i d knn2 = Ok (i', knn2') ∧
      0 ≤ i' ≤ i ∧
      agree_except Q len c i' knn1' knn2' ∧
      ∀ j : nat, c ≤ Z.of_nat j →
        knn1' !! j = knn1 !! j ∧ knn2' !! j = knn2 !! j.
Proof.
  induction n as [|n IH]; intros i d knn1 knn2 Hagree Hi Hc; simpl.
  { exists i, knn1, knn2. split_and!; try done; lia. }
  case_decide as Hpos; [|exists i, knn1, knn2; split_and!; try done; lia].
  destruct (agree_except_lookup _ _ _ _ _ (i - 1) Hagree)
    as (prev & -> & -> & Hprev); [lia..|]. simpl.
  case_decide as Hshift; [|exists i, knn1, knn2; split_and!; try done; lia].
  destruct (agree_except_store _ _ _ (i - 1) _ _ prev Hagree)
    as (knn1' & knn2' & -> & -> & Hagree' & Hother); [lia|done|]. simpl.
  destruct (IH (i - 1) d knn1' knn2' Hagree')
    as (i' & knn1'' & knn2'' & -> & -> & Hi' & Hagree'' & Hrest); [lia..|].
  exists i', knn1'', knn2''. split_and!; try done; try lia.
  intros j Hj. destruct (Hrest j Hj) as [-> ->]. apply Hother. lia.
Qed.

Lemma SearchKnn_visit_sim v1 v2 e :
  knn_related Q v1 v2 → Q e →
  ∃ v1' v2',
    internal.SearchKnn_visit v1 e.1 e.2 = Ok v1' ∧
    internal.SearchKnn_visit v2 e.1 e.2 = Ok v2' ∧
    knn_related Q v1' v2' ∧
    internal.k_ v1' = internal.k_ v1.
Proof.
  intros (Hk & Hcount & Hc & Hk1 & Hagree & Hlast) HQ.
  set (c := if decide (internal.count_ v1 < internal.k_ v1)
            then internal.count_ v1 + 1 else internal.count_ v1).
  assert (Hc' : 1 ≤ c ∧ c ≤ internal.k_ v1
                ∧ (c = internal.count_ v1 ∨ c = internal.count_ v1 + 1))
    by (unfold c; case_decide; lia).
  assert (Hagree' : agree_except Q (Z.to_nat (internal.k_ v1)) c (c - 1)
                      (internal.knn_ v1) (internal.knn_ v2)).
  { destruct Hagree as (Hl1 & Hl2 & Hagree). split_and!; [done..|].
    intros j Hj Hne. apply Hagree; lia. }
  destruct (InsertSorted_loop_sim _ c (Z.to_nat (c - 1)) (c - 1) e.2 _ _ Hagree')
    as (i & knn1 & knn2 & Hrun1 & Hrun2 & Hi & Hagree1 & Hrest); [lia..|].
  destruct (agree_except_store _ _ _ (-1) _ _ e Hagree1)
    as (knn1' & knn2' & Hst1 & Hst2 & Hagree2 & Hother); [lia|by destruct e|].
  exists {| internal.k_ := internal.k_ v1;
            internal.count_ := c; internal.knn_ := knn1' |},
         {| internal.k_ := internal.k_ v2;
            internal.count_ := c; internal.knn_ := knn2' |}.
  split_and!; [| | |done].
  - unfold internal.SearchKnn_visit, internal.InsertSorted, c in *.
    case_decide; simpl; rewrite Hrun1; simpl;
      rewrite <- surjective_pairing, Hst1; done.
  - unfold internal.SearchKnn_visit, internal.InsertSorted, c in *.
    rewrite <- Hk, <- Hcount.
    case_decide; simpl; rewrite <- ?Hk, <- ?Hcount, Hrun2; simpl;
      rewrite <- surjective_pairing, Hst2; by rewrite <- ?Hk.
  - split_and!; simpl; try done; try lia.
    destruct (decide (c = internal.k_ v1)) as [Hfull|Hroom].
    + destruct Hagree2 as (_ & _ & Hagree2).
      destruct (Hagree2 (Z.to_nat (internal.k_ v1 - 1))) as (x & -> & -> & _);
        [lia..|done].
    + destruct (Hother (Z.to_nat (internal.k_ v1 - 1))) as [-> ->]; [lia|].
      destruct (Hrest (Z.to_nat (internal.k_ v1 - 1))) as [-> ->]; [lia|].
      done.
Qed.

Lemma SearchKnn_max_sim v1 v2 :
  knn_related Q v1 v2 →
  ∃ m, internal.SearchKnn_max v1 = Ok m ∧ internal.SearchKnn_max v2 = Ok m.
Proof.
  intros (Hk & Hcount & Hc & Hk1 & (Hl1 & Hl2 & _) & Hlast).
  unfold internal.SearchKnn_max. rewrite <- Hk.
  destruct (vec_at_lt (internal.knn_ v1) (internal.k_ v1 - 1)) as [x1 Hx1]; [lia|].
  destruct (vec_at_lt (internal.knn_ v2) (internal.k_ v1 - 1)) as [x2 Hx2]; [lia|].
  rewrite Hx1, Hx2. simpl.
  apply vec_at_Ok in Hx1 as [_ Hx1]. apply vec_at_Ok in Hx2 as [_ Hx2].
  rewrite Hx1, Hx2 in Hlast. simpl in Hlast. injection Hlast as Hlast.
  exists x1.2. by rewrite Hlast.
Qed.

Lemma SearchKnn_ctor_sim k knn1 knn2 :
  1 ≤ k →
  ∃ v1 v2,
    internal.SearchKnn_ctor k knn1 = Ok v1 ∧
    internal.SearchKnn_ctor k knn2 = Ok v2 ∧
    knn_related Q v1 v2 ∧
    internal.k_ v1 = k.
Proof.
  intros Hk. unfold internal.SearchKnn_ctor, vec_resize.
  rewrite !decide_True by lia. simpl.
  destruct (vec_at_lt (resize (Z.to_nat k) (0, 0) knn1) (k - 1)) as [x1 Hx1];
    [rewrite length_resize; lia|].
  destruct (vec_at_lt (resize (Z.to_nat k) (0, 0) knn2) (k - 1)) as [x2 Hx2];
    [rewrite length_resize; lia|].
  rewrite Hx1, Hx2. simpl. unfold vec_store.
  rewrite !decide_True by (rewrite length_resize; lia). simpl.
  eexists _, _. split_and!; [done..| |done].
  split_and!; simpl; try done; try lia.
  - split_and!; [by rewrite length_insert, length_resize..|]. intros j Hj. lia.
  - rewrite !list_lookup_insert_eq by (rewrite length_resize; lia). done.
Qed.

(** Without a positive [k] the constructor faults, whatever the vector
    held. *)
Lemma SearchKnn_ctor_fault k knn :
  k < 1 →
  internal.SearchKnn_ctor k knn
  = Err (if decide (k = 0) then OutOfRange else LengthError).
Proof.
  intros Hk. unfold internal.SearchKnn_ctor, vec_resize.
  destruct (decide (k = 0)) as [->|Hk0]; [done|].
  by rewrite decide_False by lia.
Qed.

Lemma SearchKnn_dtor_sim v1 v2 :
  knn_related Q v1 v2 →
  ∃ found,
    internal.SearchKnn_dtor v1 = Ok found ∧
    internal.SearchKnn_dtor v2 = Ok found ∧
    Forall Q found ∧
    Z.of_nat (length found) = internal.count_ v1.
Proof.
  intros (Hk & Hcount & Hc & Hk1 & (Hl1 & Hl2 & Hagree) & Hlast).
  unfold internal.SearchKnn_dtor, vec_resize. rewrite <- Hcount.
  rewrite !decide_True by lia.
  rewrite !resize_le by lia.
  exists (take (Z.to_nat (internal.count_ v1)) (internal.knn_ v1)).
  split_and!; [done| | |].
  - f_equal. apply list_eq. intros j.
    destruct (decide (j < Z.to_nat (internal.count_ v1))%nat).
    + rewrite !lookup_take_lt by done.
      destruct (Hagree j) as (x & -> & -> & _); [lia..|done].
    + rewrite !lookup_take_ge by lia. done.
  - apply Forall_lookup. intros j x Hx.
    apply lookup_take_Some in Hx as [Hx Hj].
    destruct (Hagree j) as (x' & Hx' & _ & HQ); [lia..|]. by simplify_eq.
  - rewrite length_take. lia.
Qed.
End knn.

(** ** The traversal returns *)

Section total.
Context `{SL : ScalarLimits}.
Variable points_ : Points.
Context {V : Type} `{!internal.Visitor V}.
Variable Inv : V → Prop.
Variable p : P.
Variable t : KdTree.

Hypothesis Inv_max : ∀ v, Inv v → ∃ m, internal.v_max v = Ok m.
Hypothesis Inv_visit :
  ∀ v idx, Inv v → idx ∈ indices_ t →
    ∃ v', internal.visit v idx (MetricL2 points_ p idx) = Ok v' ∧ Inv v'.

Lemma visit_leaf_total n :
  ∀ i max v,
    0 ≤ i → i + Z.of_nat n ≤ Z.of_nat (length (indices_ t)) → Inv v →
    ∃ v', visit_leaf points_ n p i max v t = Ok (v', t) ∧ Inv v'.
Proof.
  induction n as [|n IH]; intros i max v Hi Hlen Hv; simpl; [by eexists|].
  destruct (lookup_lt_is_Some_2 (indices_ t) (Z.to_nat i)) as [idx Hidx]; [lia|].
  unfold bind at 1. rewrite (proj2 (load_index_Ok i t idx t)) by done.
  case_decide; [|apply IH; done || lia].
  destruct (Inv_visit v idx Hv) as (v1 & Hv1 & Hinv1);
    [by eapply list_elem_of_lookup_2|].
  unfold bind, lift. rewrite Hv1. apply IH; done || lia.
Qed.

Lemma SearchNn_node_total tr :
  ∀ fuel node v,
    wf_tree points_ (indices_ t) tr →
    repr (nodes_ t) node tr →
    (height tr < fuel)%nat →
    Inv v →
    ∃ v', SearchNn_node points_ fuel p node v t = Ok (v', t) ∧ Inv v'.
Proof.
  induction tr as [b e|split dim l IHl r IHr];
    intros fuel node v Hwf Hrepr Hfuel Hv;
    (destruct fuel as [|fuel]; [simpl in Hfuel; lia|]);
    inversion Hrepr as [? ? ? Hnode|? ? ? pl pr ? ? Hnode Hreprl Hreprr]; subst;
    simpl; unfold bind at 1;
    rewrite (proj2 (load_node_Ok _ _ _ _)) by done; simpl in Hwf, Hfuel.
  - destruct (Inv_max v Hv) as [m Hm].
    unfold bind, lift. rewrite Hm. apply visit_leaf_total; done || lia.
  - destruct Hwf as (Hwfl & Hwfr & _).
    case_decide.
    + destruct (IHl fuel pl v) as (v1 & Hrun1 & Hv1); [done..|lia|done|].
      unfold bind at 1. rewrite Hrun1.
      destruct (Inv_max v1 Hv1) as [m Hm].
      unfold bind at 1, lift. rewrite Hm.
      case_decide; [|by eexists]. apply IHr; done || lia.
    + destruct (IHr fuel pr v) as (v1 & Hrun1 & Hv1); [done..|lia|done|].
      unfold bind at 1. rewrite Hrun1.
      destruct (Inv_max v1 Hv1) as [m Hm].
      unfold bind at 1, lift. rewrite Hm.
      case_decide; [|by eexists]. apply IHl; done || lia.
Qed.
End total.

(** ** The nearest-neighbour visitor is given a point *)

Section nearest.
Context `{SL : ScalarLimits}.
Variable points_ : Points.
Variable p : P.
Variable t : KdTree.

Hypothesis below_max :
  ∀ idx, idx ∈ indices_ t → MetricL2 points_ p idx < Scalar_max.

Lemma visit_leaf_nearest n :
  ∀ i max (v : internal.SearchNn),
    0 ≤ i → i + Z.of_nat n ≤ Z.of_nat (length (indices_ t)) →
    ∃ v', visit_leaf points_ n p i max v t = Ok (v', t) ∧
          (internal.idx_ v ≠ None → internal.idx_ v' ≠ None) ∧
          ((0 < n)%nat → max = Scalar_max → internal.idx_ v' ≠ None).
Proof.
  induction n as [|n IH]; intros i max v Hi Hlen; simpl.
  { eexists. split_and!; [done..|lia]. }
  destruct (lookup_lt_is_Some_2 (indices_ t) (Z.to_nat i)) as [idx Hidx]; [lia|].
  unfold bind at 1. rewrite (proj2 (load_index_Ok i t idx t)) by done.
  case_decide as Hnear.
  - unfold bind, lift. simpl.
    destruct (IH (i + 1) max (internal.SearchNn_visit v idx (MetricL2 points_ p idx)))
      as (v' & Hrun & Hkeep & _); [lia..|].
    exists v'. split_and!; [done|..]; intros; by apply Hkeep.
  - destruct (IH (i + 1) max v) as (v' & Hrun & Hkeep & _); [lia..|].
    exists v'. split_and!; [done..|].
    intros _ ->. pose proof (below_max idx ltac:(by eapply list_elem_of_lookup_2)).
    lia.
Qed.

Lemma SearchNn_node_nearest tr :
  ∀ fuel node (v : internal.SearchNn),
    wf_tree points_ (indices_ t) tr →
    leaves_nonempty tr →
    repr (nodes_ t) node tr →
    (height tr < fuel)%nat →
    internal.idx_ v ≠ None ∨ internal.min_ v = Scalar_max →
    ∃ v', SearchNn_node points_ fuel p node v t = Ok (v', t) ∧
          internal.idx_ v' ≠ None.
Proof.
  induction tr as [b e|split dim l IHl r IHr];
    intros fuel node v Hwf Hne Hrepr Hfuel Hv;
    (destruct fuel as [|fuel]; [simpl in Hfuel; lia|]);
    inversion Hrepr as [? ? ? Hnode|? ? ? pl pr ? ? Hnode Hreprl Hreprr]; subst;
    simpl; unfold bind at 1;
    rewrite (proj2 (load_node_Ok _ _ _ _)) by done; simpl in Hwf, Hfuel.
  - unfold bind, lift. simpl.
    unfold leaves_nonempty in Hne. simpl in Hne.
    rewrite Forall_singleton in Hne.
    destruct (visit_leaf_nearest (Z.to_nat (e - b)) b (internal.SearchNn_max v) v)
      as (v' & Hrun & Hkeep & Hnew); [lia..|].
    exists v'. split; [done|].
    destruct Hv as [Hv|Hv]; [by apply Hkeep|apply Hnew; [lia|done]].
  - destruct Hwf as (Hwfl & Hwfr & _).
    unfold leaves_nonempty in Hne. simpl in Hne.
    rewrite Forall_app in Hne. destruct Hne as [Hnel Hner].
    case_decide.
    + destruct (IHl fuel pl v) as (v1 & Hrun1 & Hv1); [done..|lia|done|].
      unfold bind at 1. rewrite Hrun1. unfold bind at 1, lift. simpl.
      case_decide; [|by eexists]. apply IHr; try done; lia || by left.
    + destruct (IHr fuel pr v) as (v1 & Hrun1 & Hv1); [done..|lia|done|].
      unfold bind at 1. rewrite Hrun1. unfold bind at 1, lift. simpl.
      case_decide; [|by eexists]. apply IHl; try done; lia || by left.
Qed.
End nearest.

(** ** The public searches *)

Lemma M_rel_load_root t : M_rel eq t load_root load_root.
Proof. by unfold M_rel. Qed.

Lemma M_rel_eq {A} (Q : A → Prop) t (m1 m2 : M A) :
  M_rel (λ a1 a2, a1 = a2 ∧ Q a1) t m1 m2 →
  m1 t = m2 t ∧ ∀ a t', m1 t = Ok (a, t') → Q a ∧ t' = t.
Proof.
  unfold M_rel. destruct (m1 t) as [[a1 t1]|f1], (m2 t) as [[a2 t2]|f2];
    simpl; try done.
  - intros ((-> & HQ) & -> & ->). split; [done|]. by intros ? ? [= <- <-].
  - by intros ->.
Qed.

Lemma tree_at_repr fuel :
  ∀ nodes node tr, tree_at fuel nodes node = Some tr → repr nodes node tr.
Proof.
  induction fuel as [|fuel IH]; intros nodes node tr Htr; [done|].
  simpl in Htr. destruct (nodes !! node) as [[split dim pl pr|b e]|] eqn:Hnode;
    [|simplify_eq; by constructor|done].
  destruct (tree_at fuel nodes pl) as [l|] eqn:Hl; [|done].
  destruct (tree_at fuel nodes pr) as [r|] eqn:Hr; [|done].
  simplify_eq. econstructor; eauto.
Qed.

Section searches.
Context `{SL : ScalarLimits} `{IN : Indeterminate}.
Variable points_ : Points.
Variable p : P.

(** Whatever the caller's vector held, the k-nearest search gives the same
    outcome, and what it returns are at most [k] pairs of this query. *)
Lemma SearchKnn_prior fuel k prior1 prior2 t :
  M_rel (λ found1 found2,
           found1 = found2 ∧
           (Forall (reported points_ p t) found1 ∧ Z.of_nat (length found1) ≤ k))
    t (SearchKnn points_ fuel p k prior1) (SearchKnn points_ fuel p k prior2).
Proof.
  unfold SearchKnn. destruct (decide (1 ≤ k)) as [Hk|Hk].
  2: { unfold M_rel, bind, lift. rewrite !SearchKnn_ctor_fault by lia. done. }
  set (Q := reported points_ p t).
  destruct (SearchKnn_ctor_sim Q k prior1 prior2 Hk)
    as (v1 & v2 & -> & -> & HR & Hk_).
  eapply (M_rel_bind (λ v1 v2, knn_related Q v1 v2 ∧ internal.k_ v1 = k)).
  { by apply M_rel_lift. }
  clear v1 v2 HR Hk_. intros v1 v2 [HR Hk_].
  eapply M_rel_bind; [apply M_rel_load_root|]. intros root ? <-.
  eapply (M_rel_bind (λ v1 v2, knn_related Q v1 v2 ∧ internal.k_ v1 = k)).
  { apply SearchNn_node_sim; [| |done].
    - intros w1 w2 [Hw _].
      destruct (SearchKnn_max_sim Q w1 w2 Hw) as (m & Hm1 & Hm2).
      simpl. by rewrite Hm1, Hm2.
    - intros w1 w2 idx [Hw Hwk] Hidx.
      destruct (SearchKnn_visit_sim Q w1 w2 (idx, MetricL2 points_ p idx) Hw)
        as (w1' & w2' & Hv1 & Hv2 & Hw' & Hk'); [by exists idx|].
      simpl in *. rewrite Hv1, Hv2. simpl. split; [done|congruence]. }
  clear v1 v2 HR Hk_. intros v1 v2 [HR Hk_].
  apply M_rel_lift.
  destruct (SearchKnn_dtor_sim Q v1 v2 HR) as (found & -> & -> & HQ & Hlen).
  simpl. split_and!; try done.
  destruct HR as (_ & _ & ? & _). lia.
Qed.

(** The radius search starts from an empty vector and adds pairs of this
    query only. *)
Lemma SearchRadius_prior fuel radius prior1 prior2 t :
  M_rel (λ found1 found2, found1 = found2 ∧ Forall (reported points_ p t) found1)
    t (SearchRadius points_ fuel p radius prior1)
      (SearchRadius points_ fuel p radius prior2).
Proof.
  unfold SearchRadius, internal.SearchRadius_ctor.
  eapply M_rel_bind; [apply M_rel_load_root|]. intros root ? <-.
  eapply (M_rel_bind (λ v1 v2, v1 = v2 ∧
                               Forall (reported points_ p t) (internal.n_ v1))).
  { apply SearchNn_node_sim; [| |done].
    - by intros w ? [<- _].
    - intros w ? idx [<- Hw] Hidx. simpl. split; [done|].
      apply Forall_app. split; [done|].
      apply Forall_singleton. by exists idx. }
  intros v ? [<- Hv]. by apply M_rel_ret.
Qed.

(** The searches leave the index as it is. *)
Lemma SearchNn_frame fuel t nn t' :
  SearchNn points_ fuel p t = Ok (nn, t') → t' = t.
Proof.
  unfold SearchNn. intros Hrun.
  apply bind_Ok in Hrun as (root & t1 & [= <- <-] & Hrun).
  apply bind_Ok in Hrun as (v & t1 & ->%SearchNn_node_frame & Hrun).
  by apply ret_Ok in Hrun as [_ ->].
Qed.

Variable fuel0 : nat.
Variable max_leaf_size : Z.
Variable kd : KdTree.
Context `{E : NthElement} `{!NthElementSpec E}.
Hypothesis constructed : KdTree_ctor points_ fuel0 max_leaf_size = Ok kd.

Lemma KdTree_ctor_Ok_inv : 0 < num_points points_ ∧ 1 ≤ max_leaf_size.
Proof.
  pose proof (KdTree_ctor_spec _ _ _ _ constructed) as [HN _].
  split; [done|]. destruct (decide (1 ≤ max_leaf_size)); [done|].
  rewrite KdTree_ctor_diverges in constructed by lia. done.
Qed.

Lemma elem_of_indices idx :
  idx ∈ indices_ kd ↔ 0 ≤ idx < num_points points_.
Proof.
  pose proof (KdTree_ctor_spec _ _ _ _ constructed) as (_ & _ & Hperm & _).
  rewrite Hperm, elem_of_seqZ. lia.
Qed.

(** With fuel for the depth of the tree, and every squared distance to the
    query a value of [Scalar], the radius search returns what brute force
    finds. *)
Lemma SearchRadius_spec fuel radius n :
  0 < num_dimensions points_ →
  (∀ id, 0 ≤ id < num_points points_ → sq_dist points_ p id ≤ Scalar_max) →
  (Z.to_nat (num_points points_) ≤ fuel)%nat →
  ∃ found,
    SearchRadius points_ fuel p radius n kd = Ok (found, kd) ∧
    found ≡ₚ brute_force_radius points_ p radius.
Proof.
  intros HD Hrange Hfuel. destruct KdTree_ctor_Ok_inv as [HN Hmls].
  pose proof (KdTree_ctor_spec _ _ _ _ constructed)
    as (_ & Hlen & Hperm & tr & Hrepr & Hlo & Hhi & Hwf & Hdims & Hne).
  destruct (Hne Hmls) as [_ Hheight].
  destruct (KdTree_ctor_shape points_ _ _ _ tr constructed Hrepr)
    as (_ & _ & _ & _ & Hatt).
  destruct (SearchNn_node_radius points_ p kd) with
    (radius := radius) (tr := tr) (fuel := fuel) (node := root_ kd)
    (acc := @nil (Z * Z))
    as (found & Hrun & Hfound); [|done|by apply Hdims|done|done|lia|].
  { intros idx Hidx. by apply Hrange, elem_of_indices. }
  exists found. split.
  - unfold SearchRadius, internal.SearchRadius_ctor, bind, load_root.
    by rewrite Hrun.
  - rewrite Hfound, Hlo, Hhi, <- Hlen, slice_all. unfold brute_force_radius.
    by rewrite Hperm.
Qed.

(** With fuel for the depth of the tree, every search returns. *)
Lemma searches_return fuel :
  (Z.to_nat (num_points points_) ≤ fuel)%nat →
  (∀ radius n,
      ∃ found, SearchRadius points_ fuel p radius n kd = Ok (found, kd)) ∧
  (∀ k knn, 1 ≤ k →
      ∃ found, SearchKnn points_ fuel p k knn kd = Ok (found, kd)) ∧
  ((∀ id, 0 ≤ id < num_points points_ → MetricL2 points_ p id < Scalar_max) →
      ∃ nn, SearchNn points_ fuel p kd = Ok (nn, kd)).
Proof.
  intros Hfuel. destruct KdTree_ctor_Ok_inv as [HN Hmls].
  pose proof (KdTree_ctor_spec _ _ _ _ constructed)
    as (_ & Hlen & Hperm & tr & Hrepr & Hlo & Hhi & Hwf & Hdims & Hne).
  destruct (Hne Hmls) as [Hnonempty Hheight].
  split_and!.
  - intros radius n.
    destruct (SearchNn_node_total points_ (λ _, True) p kd) with
      (tr := tr) (fuel := fuel) (node := root_ kd)
      (v := internal.SearchRadius_ctor radius n) as (v & Hrun & _);
      [by eexists|by eexists|done|done|lia|done|].
    exists (internal.n_ v). unfold SearchRadius, bind, load_root.
    by rewrite Hrun.
  - intros k knn Hk.
    set (Q := reported points_ p kd).
    destruct (SearchKnn_ctor_sim Q k knn knn Hk)
      as (v0 & v0' & Hctor & Hctor' & HR0 & _).
    assert (v0' = v0) as -> by congruence.
    destruct (SearchNn_node_total points_ (λ v, knn_related Q v v) p kd) with
      (tr := tr) (fuel := fuel) (node := root_ kd) (v := v0)
      as (v & Hrun & HR); [| |done|done|lia|done|].
    { intros w Hw. destruct (SearchKnn_max_sim Q w w Hw) as (m & Hm & _).
      by exists m. }
    { intros w idx Hw Hidx.
      destruct (SearchKnn_visit_sim Q w w (idx, MetricL2 points_ p idx) Hw)
        as (w' & w'' & Hv & Hv' & Hw' & _); [by exists idx|].
      assert (w'' = w') as -> by congruence. by exists w'. }
    destruct (SearchKnn_dtor_sim Q v v HR) as (found & Hdtor & _).
    exists found. unfold SearchKnn, bind, lift, load_root.
    by rewrite Hctor, Hrun, Hdtor.
  - intros Hbelow.
    destruct (SearchNn_node_nearest points_ p kd) with
      (tr := tr) (fuel := fuel) (node := root_ kd) (v := internal.SearchNn_ctor)
      as (v & Hrun & Hv); [|done|done|done|lia|by right|].
    { intros idx Hidx. by apply Hbelow, elem_of_indices. }
    exists (internal.nearest v).
    unfold SearchNn, bind, ret, load_root. by rewrite Hrun.
Qed.
End searches.

(** * The properties of the index *)

Section properties.
Context `{SL : ScalarLimits} `{IN : Indeterminate}.
Context `{E : NthElement} `{!NthElementSpec E}.
Variable points_ : Points.


(** C4 (amended): for every index constructed over N >= 1 points with
    max_leaf_size >= 1 (construction does return one) and every branch of
    its tree, every point identifier under the left child has
    coordinate[dim] <= split, and every point identifier under the right
    child has coordinate[dim] >= split. *)
Theorem branches_partition_points max_leaf_size :
  0 < num_points points_ → 1 ≤ max_leaf_size →
  (∃ fuel kd, KdTree_ctor points_ fuel max_leaf_size = Ok kd) ∧
  ∀ fuel kd, KdTree_ctor points_ fuel max_leaf_size = Ok kd →
    ∃ tr, repr (nodes_ kd) (root_ kd) tr ∧
          partitioned Z.ge points_ (indices_ kd) tr.
Proof.
  intros HN Hmls. split.
  { exists (S (Z.to_nat (num_points points_))).
    apply KdTree_ctor_total; [done..|lia]. }
  intros fuel kd Hctor.
  pose proof (KdTree_ctor_spec _ _ _ _ Hctor)
    as (_ & _ & _ & tr & Hrepr & _ & _ & Hwf & _).
  exists tr. split; [done|]. by apply wf_tree_partitioned.
Qed.

(** C5 (amended): for every index constructed over N >= 1 points of
    D >= 1 dimensions with max_leaf_size >= 1 (construction does return
    one), every query point whose squared Euclidean distance to each of the
    N points is at most the largest Scalar, every squared radius and every
    previous content of the caller's vector, SearchRadius, given fuel for
    the depth of the tree, returns the pairs (identifier, squared distance)
    of exactly the identifiers whose squared distance to the query is
    strictly less than the radius, each once, in some order, and leaves the
    index as it is. *)
Theorem SearchRadius_matches_brute_force max_leaf_size p radius n :
  0 < num_points points_ → 1 ≤ max_leaf_size → 0 < num_dimensions points_ →
  (∀ id, 0 ≤ id < num_points points_ → sq_dist points_ p id ≤ Scalar_max) →
  (∃ fuel kd, KdTree_ctor points_ fuel max_leaf_size = Ok kd) ∧
  ∀ fuel0 kd, KdTree_ctor points_ fuel0 max_leaf_size = Ok kd →
    ∀ fuel, (Z.to_nat (num_points points_) ≤ fuel)%nat →
      ∃ found,
        SearchRadius points_ fuel p radius n kd = Ok (found, kd) ∧
        found ≡ₚ brute_force_radius points_ p radius.
Proof.
  intros HN Hmls HD Hrange. split.
  { exists (S (Z.to_nat (num_points points_))).
    apply KdTree_ctor_total; [done..|lia]. }
  intros fuel0 kd Hctor fuel Hfuel. by eapply SearchRadius_spec.
Qed.

(** C9: for every constructed index and every query, a nearest, k-nearest
    or radius search that returns leaves the node arena, the index
    permutation and the root as they were; and given fuel for the depth of
    the tree the radius search returns, the k-nearest search returns when
    k >= 1, and the nearest search returns when every distance is below
    the largest Scalar. *)
Theorem searches_leave_index_unchanged fuel0 max_leaf_size kd p k knn radius n :
  KdTree_ctor points_ fuel0 max_leaf_size = Ok kd →
  (∀ fuel,
     (∀ nn kd', SearchNn points_ fuel p kd = Ok (nn, kd') → kd' = kd) ∧
     (∀ found kd', SearchKnn points_ fuel p k knn kd = Ok (found, kd') → kd' = kd) ∧
     (∀ found kd',
        SearchRadius points_ fuel p radius n kd = Ok (found, kd') → kd' = kd)) ∧
  (∀ fuel, (Z.to_nat (num_points points_) ≤ fuel)%nat →
     (∃ found, SearchRadius points_ fuel p radius n kd = Ok (found, kd)) ∧
     (1 ≤ k → ∃ found, SearchKnn points_ fuel p k knn kd = Ok (found, kd)) ∧
     ((∀ id, 0 ≤ id < num_points points_ → MetricL2 points_ p id < Scalar_max) →
      ∃ nn, SearchNn points_ fuel p kd = Ok (nn, kd))).
Proof.
  intros Hctor. split.
  - intros fuel. split_and!.
    + intros nn kd'. apply SearchNn_frame.
    + intros found kd' Hrun.
      by destruct (proj2 (M_rel_eq _ _ _ _
                            (SearchKnn_prior points_ p fuel k knn knn kd))
                     found kd' Hrun).
    + intros found kd' Hrun.
      by destruct (proj2 (M_rel_eq _ _ _ _
                            (SearchRadius_prior points_ p fuel radius n n kd))
                     found kd' Hrun).
  - intros fuel Hfuel.
    destruct (searches_return points_ p fuel0 max_leaf_size kd Hctor fuel Hfuel)
      as (Hradius & Hknn & Hnn).
    split_and!; [apply Hradius|intros; by apply Hknn|done].
Qed.

(** C10: for any index, any query and any two previous contents of the
    caller's vector, SearchKnn has the same outcome and so has
    SearchRadius; the vector that SearchKnn returns holds at most k pairs,
    each an identifier of the index with its distance to the query, and so
    does the vector that SearchRadius returns. *)
Theorem prior_contents_are_discarded fuel p k radius prior1 prior2 kd :
  SearchKnn points_ fuel p k prior1 kd = SearchKnn points_ fuel p k prior2 kd ∧
  SearchRadius points_ fuel p radius prior1 kd
  = SearchRadius points_ fuel p radius prior2 kd ∧
  (∀ found kd', SearchKnn points_ fuel p k prior1 kd = Ok (found, kd') →
     Forall (reported points_ p kd) found ∧ Z.of_nat (length found) ≤ k) ∧
  (∀ found kd', SearchRadius points_ fuel p radius prior1 kd = Ok (found, kd') →
     Forall (reported points_ p kd) found).
Proof.
  destruct (M_rel_eq _ _ _ _ (SearchKnn_prior points_ p fuel k prior1 prior2 kd))
    as [Hknn Hknn'].
  destruct (M_rel_eq _ _ _ _
              (SearchRadius_prior points_ p fuel radius prior1 prior2 kd))
    as [Hradius Hradius'].
  split_and!; [done..| |].
  - intros found kd' Hrun. by destruct (Hknn' found kd' Hrun).
  - intros found kd' Hrun. by destruct (Hradius' found kd' Hrun).
Qed.

(** C8 (code defect): a k-nearest search with k = 0 is not validated. The
    visitor's constructor resizes the caller's vector to zero elements and
    then writes knn_[k_ - 1], which is outside the vector: the call ends
    in an out-of-range access, not in a rejection. *)
Theorem SearchKnn_zero_k_out_of_range fuel p knn kd :
  SearchKnn points_ fuel p 0 knn kd = Err OutOfRange ∧
  vec_resize knn 0 (0, 0) = Ok [] ∧
  vec_at ([] : list (Z * Z)) (0 - 1) = Err OutOfRange.
Proof.
  split_and!; [|unfold vec_resize; simpl; by rewrite resize_0|reflexivity].
  unfold SearchKnn, bind, lift. by rewrite SearchKnn_ctor_fault by lia.
Qed.
End properties.

(** ** The properties on concrete inputs *)

Section examples.
#[local] Existing Instance int32_limits.
#[local] Existing Instance stale_index.
#[local] Existing Instance sort_nth_element.

Lemma two_points_ctor : KdTree_ctor two_points 2 1 = Ok two_points_index.
Proof. by vm_compute. Qed.

(** The example scenario: four points in the plane, max_leaf_size 1, the
    query point (0, 1). *)
Example example_scenario :
  result (SearchNn four_points 4 (point_of_list [0; 1]) four_points_index)
  = Ok (0, 1) ∧
  result (SearchKnn four_points 4 (point_of_list [0; 1]) 2 [] four_points_index)
  = Ok [(0, 1); (2, 1)] ∧
  result (SearchRadius four_points 4 (point_of_list [0; 1]) 5 [] four_points_index)
  = Ok [(0, 1); (2, 1)] ∧
  result (SearchKnn four_points 4 (point_of_list [0; 1]) 7 [] four_points_index)
  = Ok [(0, 1); (2, 1); (1, 41); (3, 82)].
Proof. by vm_compute. Qed.


Lemma branches_partition_points_witness :
  ∃ tr, repr (nodes_ four_points_index) (root_ four_points_index) tr ∧
        partitioned Z.ge four_points (indices_ four_points_index) tr.
Proof.
  assert (Hctor : KdTree_ctor four_points 5 1 = Ok four_points_index)
    by (vm_compute; reflexivity).
  refine (proj2 (branches_partition_points four_points 1 _ _)
            5%nat four_points_index Hctor); [reflexivity|lia].
Defined.

(** C4, as stated, fails: over the points 0 and 5 on a line with
    max_leaf_size 1 the root splits at 5, and the point 5 itself lies under
    the right child, so its coordinate is not strictly greater than the
    split. *)
Lemma right_child_not_strictly_above_split :
  ¬ ∀ fuel kd, KdTree_ctor two_points fuel 1 = Ok kd →
      ∃ tr, repr (nodes_ kd) (root_ kd) tr ∧
            partitioned Z.gt two_points (indices_ kd) tr.
Proof.
  intros Hstrict.
  destruct (Hstrict 2%nat two_points_index two_points_ctor) as (tr & Hrepr & Hpart).
  assert (tr = TBranch 5 0 (TLeaf 0 1) (TLeaf 1 2)) as ->.
  { eapply repr_inj; [done|]. by apply (tree_at_repr 2). }
  destruct (Hpart 5 0 (TLeaf 0 1) (TLeaf 1 2)) as [_ Hright]; [by left|].
  specialize (Hright 1 ltac:(by left)). done.
Qed.

Lemma SearchRadius_matches_brute_force_witness :
  ∃ found,
    SearchRadius four_points 4 (point_of_list [0; 1]) 5 [(3, 3)] four_points_index
    = Ok (found, four_points_index) ∧
    found ≡ₚ brute_force_radius four_points (point_of_list [0; 1]) 5.
Proof.
  assert (Hctor : KdTree_ctor four_points 5 1 = Ok four_points_index)
    by (vm_compute; reflexivity).
  assert (Hrange : ∀ id, 0 ≤ id < num_points four_points →
                         sq_dist four_points (point_of_list [0; 1]) id ≤ Scalar_max).
  { intros id Hid.
    assert (id = 0 ∨ id = 1 ∨ id = 2 ∨ id = 3) as [-> | [-> | [-> | ->]]]
      by (change (num_points four_points) with 4 in Hid; lia);
      by vm_compute. }
  refine (proj2 (SearchRadius_matches_brute_force four_points 1
                   (point_of_list [0; 1]) 5 [(3, 3)] _ _ _ Hrange)
            5%nat four_points_index Hctor 4%nat _);
    [reflexivity|lia|reflexivity|vm_compute; lia].
Defined.

(** C5, as stated, fails: over the points 0 and 50000 on a line, with a
    32-bit Scalar, the squared distance 2500000000 between the query 0 and
    the point 50000 is no value of Scalar. The test that prunes the right
    child and the metric both wrap around to -1794967296, and SearchRadius
    with the squared radius 1 returns the point 50000 beside the point
    0. *)
Lemma SearchRadius_returns_far_point_on_overflow :
  ¬ ∀ fuel0 kd, KdTree_ctor far_points fuel0 1 = Ok kd →
      ∀ fuel, (Z.to_nat (num_points far_points) ≤ fuel)%nat →
        ∃ found,
          SearchRadius far_points fuel (point_of_list [0]) 1 [] kd
          = Ok (found, kd) ∧
          found ≡ₚ brute_force_radius far_points (point_of_list [0]) 1.
Proof.
  intros Hclaim.
  assert (Hctor : KdTree_ctor far_points 2 1 = Ok far_points_index)
    by (vm_compute; reflexivity).
  destruct (Hclaim 2%nat far_points_index Hctor 2%nat ltac:(vm_compute; lia))
    as (found & Hrun & Hfound).
  assert (Hcode : SearchRadius far_points 2 (point_of_list [0]) 1 [] far_points_index
                  = Ok ([(0, 0); (1, -1794967296)], far_points_index))
    by (vm_compute; reflexivity).
  assert (Hbrute : brute_force_radius far_points (point_of_list [0]) 1 = [(0, 0)])
    by (vm_compute; reflexivity).
  rewrite Hcode in Hrun. injection Hrun as <-. rewrite Hbrute in Hfound.
  by apply Permutation_length in Hfound.
Qed.

Lemma searches_leave_index_unchanged_witness :
  (∀ fuel,
     (∀ nn kd', SearchNn four_points fuel (point_of_list [0; 1]) four_points_index
                = Ok (nn, kd') → kd' = four_points_index) ∧
     (∀ found kd',
        SearchKnn four_points fuel (point_of_list [0; 1]) 2 [(3, 3)] four_points_index
        = Ok (found, kd') → kd' = four_points_index) ∧
     (∀ found kd',
        SearchRadius four_points fuel (point_of_list [0; 1]) 5 [(3, 3)] four_points_index
        = Ok (found, kd') → kd' = four_points_index)) ∧
  (∀ fuel, (Z.to_nat (num_points four_points) ≤ fuel)%nat →
     (∃ found,
        SearchRadius four_points fuel (point_of_list [0; 1]) 5 [(3, 3)] four_points_index
        = Ok (found, four_points_index)) ∧
     (1 ≤ 2 →
      ∃ found,
        SearchKnn four_points fuel (point_of_list [0; 1]) 2 [(3, 3)] four_points_index
        = Ok (found, four_points_index)) ∧
     ((∀ id, 0 ≤ id < num_points four_points →
             MetricL2 four_points (point_of_list [0; 1]) id < Scalar_max) →
      ∃ nn, SearchNn four_points fuel (point_of_list [0; 1]) four_points_index
            = Ok (nn, four_points_index))).
Proof.
  assert (Hctor : KdTree_ctor four_points 5 1 = Ok four_points_index)
    by (vm_compute; reflexivity).
  exact (searches_leave_index_unchanged four_points 5 1 four_points_index
           (point_of_list [0; 1]) 2 [(3, 3)] 5 [(3, 3)] Hctor).
Defined.

Lemma prior_contents_are_discarded_witness :
  SearchKnn four_points 4 (point_of_list [0; 1]) 2 [(3, 3)] four_points_index
  = Ok ([(0, 1); (2, 1)], four_points_index) ∧
  SearchKnn four_points 4 (point_of_list [0; 1]) 2 [] four_points_index
  = Ok ([(0, 1); (2, 1)], four_points_index) ∧
  Forall (reported four_points (point_of_list [0; 1]) four_points_index)
    [(0, 1); (2, 1)].
Proof.
  destruct (prior_contents_are_discarded four_points 4 (point_of_list [0; 1])
              2 5 [(3, 3)] [] four_points_index)
    as (Hsame & _ & Hknn & _).
  assert (Hrun : SearchKnn four_points 4 (point_of_list [0; 1]) 2 [(3, 3)]
                   four_points_index
                 = Ok ([(0, 1); (2, 1)], four_points_index)) by (by vm_compute).
  split_and!; [done|by rewrite <- Hsame|].
  exact (proj1 (Hknn _ _ Hrun)).
Defined.

(** C1 (code defect): with both points 0 and 5 in one leaf and the query
    at 0, SearchNn returns the point 5 at distance 25 although the point 0
    is at distance 0: the leaf loop compares every distance with the bound
    it read before the loop, and the visitor keeps whatever is reported
    last. *)
Theorem SearchNn_keeps_last_report_of_leaf :
  KdTree_ctor two_points 1 2 = Ok two_points_one_leaf ∧
  SearchNn two_points 1 (point_of_list [0]) two_points_one_leaf
  = Ok ((1, 25), two_points_one_leaf) ∧
  MetricL2 two_points (point_of_list [0]) 0 = 0.
Proof. by vm_compute. Qed.

(** C2 (code defect): on the same index, SearchKnn with k = 1 returns the
    point 5 at distance 25 and not the point 0 at distance 0: a report
    that is no better than the worst kept neighbour replaces it. *)
Theorem SearchKnn_replaces_closer_neighbour :
  SearchKnn two_points 1 (point_of_list [0]) 1 [] two_points_one_leaf
  = Ok ([(1, 25)], two_points_one_leaf) ∧
  MetricL2 two_points (point_of_list [0]) 0 = 0.
Proof. by vm_compute. Qed.

(** C3 (code defect): on the same index, the traversal reports the point 5
    at distance 25 to the nearest-neighbour visitor at a moment when the
    visitor's bound is 0; each entry of the log is (identifier, distance,
    bound of the visitor when the report was made). *)
Theorem leaf_compares_with_bound_at_entry :
  SearchNn_node two_points 1 (point_of_list [0]) 0%nat
    (internal.mkRecording internal.SearchNn_ctor []) two_points_one_leaf
  = Ok ({| internal.inner :=
             {| internal.idx_ := Some 1; internal.min_ := 25 |};
           internal.reports := [(0, 0, Scalar_max); (1, 25, 0)] |},
        two_points_one_leaf).
Proof. by vm_compute. Qed.

(** C7 (code defect): over one point with max_leaf_size 0 the constructor
    does not fail an assertion: SplitIndices splits the range of one point
    into an empty left half and a right half of one point again, without
    end, so that no depth of recursion suffices. *)
Theorem KdTree_ctor_zero_leaf_size_diverges :
  ∀ fuel, KdTree_ctor one_point fuel 0 = Err OutOfFuel.
Proof. intros fuel. by apply KdTree_ctor_diverges. Qed.
End examples.

(** * Further properties of the index *)

(** ** The shape of a constructed index *)

Section index_shape.
Context `{E : NthElement} `{!NthElementSpec E}.
Variable points_ : Points.

(** X4: every leaf of a constructed index holds at least one and at most
    max_leaf_size positions of the index permutation. *)
Theorem leaves_hold_up_to_max_leaf_size fuel max_leaf_size kd :
  KdTree_ctor points_ fuel max_leaf_size = Ok kd →
  ∃ tr, repr (nodes_ kd) (root_ kd) tr ∧
        Forall (λ '(b, e), 1 ≤ e - b ≤ max_leaf_size) (leaves tr).
Proof.
  intros Hctor.
  destruct (KdTree_ctor_Ok_inv points_ _ _ _ Hctor) as [HN Hmls].
  pose proof (KdTree_ctor_spec _ _ _ _ Hctor)
    as (_ & _ & _ & tr & Hrepr & _ & _ & _ & _ & Hne).
  destruct (Hne Hmls) as [Hnonempty _].
  destruct (KdTree_ctor_shape points_ _ _ _ tr Hctor Hrepr)
    as (_ & _ & _ & Hshape & _).
  exists tr. split; [done|].
  apply split_shape_leaves in Hshape.
  unfold leaves_nonempty in Hnonempty.
  rewrite Forall_forall in Hnonempty, Hshape |- *.
  intros [b e] Hin. specialize (Hnonempty _ Hin). specialize (Hshape _ Hin).
  simpl in *. lia.
Qed.

(** X5: in a constructed index every branch covers more than
    max_leaf_size positions and halves them: the range of the left child
    ends where the range of the right child begins, and the right child
    covers as many positions as the left child or one more. *)
Theorem branches_halve_their_range fuel max_leaf_size kd :
  KdTree_ctor points_ fuel max_leaf_size = Ok kd →
  ∃ tr, repr (nodes_ kd) (root_ kd) tr ∧
        ∀ split dim l r, (split, dim, l, r) ∈ branches tr →
          max_leaf_size < hi r - lo l ∧ hi l = lo r ∧
          0 ≤ (hi r - lo r) - (hi l - lo l) ≤ 1.
Proof.
  intros Hctor.
  pose proof (KdTree_ctor_spec _ _ _ _ Hctor)
    as (_ & _ & _ & tr & Hrepr & _ & _ & Hwf & _).
  destruct (KdTree_ctor_shape points_ _ _ _ tr Hctor Hrepr)
    as (_ & _ & _ & Hshape & _).
  exists tr. split; [done|]. by eapply split_shape_branches.
Qed.

(** X6: the height h of the tree of a constructed index over N points is
    the least one with N <= max_leaf_size * 2^h: the tree is as deep as
    halving the ranges requires and no deeper. *)
Theorem height_is_logarithmic fuel max_leaf_size kd :
  KdTree_ctor points_ fuel max_leaf_size = Ok kd →
  ∃ tr, repr (nodes_ kd) (root_ kd) tr ∧
        num_points points_ ≤ max_leaf_size * 2 ^ Z.of_nat (height tr) ∧
        ∀ h, height tr = S h → max_leaf_size * 2 ^ Z.of_nat h < num_points points_.
Proof.
  intros Hctor.
  destruct (KdTree_ctor_Ok_inv points_ _ _ _ Hctor) as [HN Hmls].
  pose proof (KdTree_ctor_spec _ _ _ _ Hctor)
    as (_ & _ & _ & tr & Hrepr & Hlo & Hhi & Hwf & _).
  destruct (KdTree_ctor_shape points_ _ _ _ tr Hctor Hrepr)
    as (_ & _ & _ & Hshape & _).
  exists tr. split; [done|].
  destruct (split_shape_height _ _ _ _ _ _ Hwf Hshape Hmls) as [Hup Hlow].
  rewrite Hlo, Hhi, Z.sub_0_r in Hup, Hlow. done.
Qed.

(** X7: in a constructed index over points of D >= 1 dimensions, a branch
    at depth j below the root splits along dimension j mod D. *)
Theorem split_dimensions_cycle fuel max_leaf_size kd :
  KdTree_ctor points_ fuel max_leaf_size = Ok kd →
  0 < num_dimensions points_ →
  ∃ tr, repr (nodes_ kd) (root_ kd) tr ∧
        ∀ depth dim, (depth, dim) ∈ branch_dims 0 tr →
          dim = Z.of_nat depth `mod` num_dimensions points_.
Proof.
  intros Hctor HD.
  pose proof (KdTree_ctor_spec _ _ _ _ Hctor)
    as (_ & _ & _ & tr & Hrepr & _).
  destruct (KdTree_ctor_shape points_ _ _ _ tr Hctor Hrepr)
    as (_ & _ & _ & Hshape & _).
  exists tr. split; [done|]. intros depth dim Hin.
  destruct (split_shape_dims _ _ _ _ _ Hshape ltac:(lia) _ _ Hin) as [_ ->].
  f_equal. lia.
Qed.

(** X8: the node arena of a constructed index holds the nodes of the tree
    and nothing else, in the order of allocation: the root at position 0,
    every branch followed by its left subtree and then its right subtree.
    With L leaves that is 2L - 1 nodes, at most 2N - 1. *)
Theorem nodes_are_laid_out_in_preorder fuel max_leaf_size kd :
  KdTree_ctor points_ fuel max_leaf_size = Ok kd →
  ∃ tr, repr (nodes_ kd) (root_ kd) tr ∧
        root_ kd = 0%nat ∧
        laid_out (nodes_ kd) 0%nat tr ∧
        length (nodes_ kd) = (2 * length (leaves tr) - 1)%nat ∧
        Z.of_nat (length (nodes_ kd)) ≤ 2 * num_points points_ - 1.
Proof.
  intros Hctor.
  destruct (KdTree_ctor_Ok_inv points_ _ _ _ Hctor) as [HN Hmls].
  pose proof (KdTree_ctor_spec _ _ _ _ Hctor)
    as (_ & _ & _ & tr & Hrepr & Hlo & Hhi & Hwf & _ & Hne).
  destruct (Hne Hmls) as [Hnonempty _].
  destruct (KdTree_ctor_shape points_ _ _ _ tr Hctor Hrepr)
    as (Hroot & Hcount & Hlaid & _).
  exists tr. rewrite Hcount, node_count_leaves.
  pose proof (leaves_nonempty_length _ _ _ Hwf Hnonempty).
  pose proof (leaves_length_pos tr).
  split_and!; try done. lia.
Qed.

(** X9: in a constructed index the split value of a branch is the
    coordinate, along the split dimension, of a point under the right
    child, and no point under the right child has a smaller one: the
    split value is the least coordinate on the right. *)
Theorem split_is_least_coordinate_on_the_right fuel max_leaf_size kd :
  KdTree_ctor points_ fuel max_leaf_size = Ok kd →
  ∃ tr, repr (nodes_ kd) (root_ kd) tr ∧
        ∀ split dim l r, (split, dim, l, r) ∈ branches tr →
          (∃ id, id ∈ ids_under (indices_ kd) r ∧ coord points_ id dim = split) ∧
          (∀ id, id ∈ ids_under (indices_ kd) r → split ≤ coord points_ id dim).
Proof.
  intros Hctor.
  pose proof (KdTree_ctor_spec _ _ _ _ Hctor)
    as (_ & _ & _ & tr & Hrepr & _ & _ & Hwf & _).
  destruct (KdTree_ctor_shape points_ _ _ _ tr Hctor Hrepr)
    as (_ & _ & _ & _ & Hatt).
  exists tr. split; [done|]. intros split dim l r Hin. split.
  - by eapply split_attained_branches.
  - intros id Hid.
    destruct (wf_tree_partitioned _ _ _ Hwf _ _ _ _ Hin) as [_ Hge].
    specialize (Hge id Hid). lia.
Qed.
End index_shape.

Section shape_examples.
#[local] Existing Instance sort_nth_element.

Lemma leaves_hold_up_to_max_leaf_size_witness :
  ∃ tr, repr (nodes_ four_points_index) (root_ four_points_index) tr ∧
        Forall (λ '(b, e), 1 ≤ e - b ≤ 1) (leaves tr).
Proof.
  assert (Hctor : KdTree_ctor four_points 5 1 = Ok four_points_index)
    by (vm_compute; reflexivity).
  exact (leaves_hold_up_to_max_leaf_size four_points 5 1 four_points_index
           Hctor).
Defined.

Lemma branches_halve_their_range_witness :
  ∃ tr, repr (nodes_ four_points_index) (root_ four_points_index) tr ∧
        ∀ split dim l r, (split, dim, l, r) ∈ branches tr →
          1 < hi r - lo l ∧ hi l = lo r ∧
          0 ≤ (hi r - lo r) - (hi l - lo l) ≤ 1.
Proof.
  assert (Hctor : KdTree_ctor four_points 5 1 = Ok four_points_index)
    by (vm_compute; reflexivity).
  exact (branches_halve_their_range four_points 5 1 four_points_index
           Hctor).
Defined.

Lemma height_is_logarithmic_witness :
  ∃ tr, repr (nodes_ four_points_index) (root_ four_points_index) tr ∧
        num_points four_points ≤ 1 * 2 ^ Z.of_nat (height tr) ∧
        ∀ h, height tr = S h → 1 * 2 ^ Z.of_nat h < num_points four_points.
Proof.
  assert (Hctor : KdTree_ctor four_points 5 1 = Ok four_points_index)
    by (vm_compute; reflexivity).
  exact (height_is_logarithmic four_points 5 1 four_points_index
           Hctor).
Defined.

Lemma split_dimensions_cycle_witness :
  ∃ tr, repr (nodes_ four_points_index) (root_ four_points_index) tr ∧
        ∀ depth dim, (depth, dim) ∈ branch_dims 0 tr →
          dim = Z.of_nat depth `mod` num_dimensions four_points.
Proof.
  assert (Hctor : KdTree_ctor four_points 5 1 = Ok four_points_index)
    by (vm_compute; reflexivity).
  refine (split_dimensions_cycle four_points 5 1 four_points_index
            Hctor _).
  reflexivity.
Defined.

Lemma nodes_are_laid_out_in_preorder_witness :
  ∃ tr, repr (nodes_ four_points_index) (root_ four_points_index) tr ∧
        root_ four_points_index = 0%nat ∧
        laid_out (nodes_ four_points_index) 0%nat tr ∧
        length (nodes_ four_points_index) = (2 * length (leaves tr) - 1)%nat ∧
        Z.of_nat (length (nodes_ four_points_index)) ≤ 2 * num_points four_points - 1.
Proof.
  assert (Hctor : KdTree_ctor four_points 5 1 = Ok four_points_index)
    by (vm_compute; reflexivity).
  exact (nodes_are_laid_out_in_preorder four_points 5 1 four_points_index
           Hctor).
Defined.

Lemma split_is_least_coordinate_on_the_right_witness :
  ∃ tr, repr (nodes_ four_points_index) (root_ four_points_index) tr ∧
        ∀ split dim l r, (split, dim, l, r) ∈ branches tr →
          (∃ id, id ∈ ids_under (indices_ four_points_index) r
                 ∧ coord four_points id dim = split) ∧
          (∀ id, id ∈ ids_under (indices_ four_points_index) r →
                 split ≤ coord four_points id dim).
Proof.
  assert (Hctor : KdTree_ctor four_points 5 1 = Ok four_points_index)
    by (vm_compute; reflexivity).
  exact (split_is_least_coordinate_on_the_right four_points 5 1 four_points_index
           Hctor).
Defined.
End shape_examples.

(** ** Distance zero *)

Section metric_zero.
Context `{SL : ScalarLimits}.
Variable points_ : Points.

Lemma sq_dist_loop_zero n :
  ∀ i p idx d, 0 ≤ d →
    sq_dist_loop points_ n i p idx d = 0
    ↔ d = 0 ∧ ∀ j, i ≤ j < i + Z.of_nat n → p j = coord points_ idx j.
Proof.
  induction n as [|n IH]; intros i p idx d Hd; simpl.
  - split; [intros ->; split; [done|lia]|by intros [-> _]].
  - pose proof (Z.square_nonneg (p i - coord points_ idx i)) as Hsq.
    rewrite IH by lia. split.
    + intros [Hsum Hrest].
      assert (p i = coord points_ idx i) by nia.
      split; [nia|]. intros j Hj.
      destruct (decide (j = i)) as [->|Hne]; [done|]. apply Hrest. lia.
    + intros [-> Hall]. split.
      * rewrite (Hall i) by lia. lia.
      * intros j Hj. apply Hall. lia.
Qed.

(** X1: whenever the squared Euclidean distance between the query and a
    point is at most the largest Scalar, MetricL2 returns exactly that
    distance: a value that is not negative, and that is zero exactly when
    the query and the point have the same coordinate in each of the D
    dimensions. *)
Theorem MetricL2_zero_iff_same_coordinates p idx :
  sq_dist points_ p idx ≤ Scalar_max →
  MetricL2 points_ p idx = sq_dist points_ p idx ∧
  0 ≤ MetricL2 points_ p idx ∧
  (MetricL2 points_ p idx = 0
   ↔ ∀ i, 0 ≤ i < num_dimensions points_ → p i = coord points_ idx i).
Proof.
  intros Hrange. rewrite (MetricL2_exact points_ p idx Hrange).
  split; [done|]. split; [apply sq_dist_nonneg|].
  unfold sq_dist. rewrite sq_dist_loop_zero by done. split.
  - intros [_ Hall] i Hi. apply Hall. lia.
  - intros Hall. split; [done|]. intros j Hj. apply Hall. lia.
Qed.
End metric_zero.

(** ** When the constructor returns *)

Section constructor.
Context `{E : NthElement} `{!NthElementSpec E}.
Variable points_ : Points.

(** X2: the constructor returns an index, given depth of recursion enough,
    exactly when there is at least one point and max_leaf_size is at least
    one. *)
Theorem KdTree_ctor_returns_iff max_leaf_size :
  (∃ fuel kd, KdTree_ctor points_ fuel max_leaf_size = Ok kd)
  ↔ 0 < num_points points_ ∧ 1 ≤ max_leaf_size.
Proof.
  split.
  - intros (fuel & kd & Hctor). by eapply KdTree_ctor_Ok_inv.
  - intros [HN Hmls]. exists (S (Z.to_nat (num_points points_))).
    apply KdTree_ctor_total; [done..|lia].
Qed.

(** X3: over an empty point set the constructor builds a tree of one empty
    leaf and then fails its assertion, for every max_leaf_size >= 0. *)
Theorem KdTree_ctor_without_points_fails_assertion fuel max_leaf_size :
  num_points points_ = 0 → 0 ≤ max_leaf_size →
  KdTree_ctor points_ (S fuel) max_leaf_size = Err AssertionFailed ∧
  ∃ t, MakeTree points_ (S fuel) max_leaf_size
         {| nodes_ := []; indices_ := []; root_ := 0%nat |}
       = Ok (0%nat, t) ∧ nodes_ t = [Leaf 0 0] ∧ indices_ t = [].
Proof.
  intros HN Hmls. split; [by apply KdTree_ctor_empty|].
  unfold MakeTree. rewrite HN. simpl. unfold bind, store_node. simpl.
  rewrite decide_True by done. simpl. by eexists.
Qed.
End constructor.

Section constructor_examples.
#[local] Existing Instance int32_limits.
#[local] Existing Instance stale_index.
#[local] Existing Instance sort_nth_element.

Lemma MetricL2_zero_iff_same_coordinates_witness :
  MetricL2 four_points (point_of_list [1; 1]) 2
  = sq_dist four_points (point_of_list [1; 1]) 2 ∧
  0 ≤ MetricL2 four_points (point_of_list [1; 1]) 2 ∧
  (MetricL2 four_points (point_of_list [1; 1]) 2 = 0
   ↔ ∀ i, 0 ≤ i < num_dimensions four_points →
          point_of_list [1; 1] i = coord four_points 2 i).
Proof.
  refine (MetricL2_zero_iff_same_coordinates four_points (point_of_list [1; 1]) 2 _).
  by vm_compute.
Defined.

Lemma KdTree_ctor_returns_iff_witness :
  (∃ fuel kd, KdTree_ctor four_points fuel 1 = Ok kd)
  ↔ 0 < num_points four_points ∧ 1 ≤ 1.
Proof. exact (KdTree_ctor_returns_iff four_points 1). Defined.

Lemma KdTree_ctor_without_points_fails_assertion_witness :
  KdTree_ctor (points_of_list 2 []) 1 3 = Err AssertionFailed ∧
  ∃ t, MakeTree (points_of_list 2 []) 1 3
         {| nodes_ := []; indices_ := []; root_ := 0%nat |}
       = Ok (0%nat, t) ∧ nodes_ t = [Leaf 0 0] ∧ indices_ t = [].
Proof.
  refine (KdTree_ctor_without_points_fails_assertion (points_of_list 2 []) 0 3 _ _);
    [reflexivity|lia].
Defined.
End constructor_examples.

(** ** Nearest neighbour *)

Section nearest_result.
Context `{SL : ScalarLimits}.
Variable points_ : Points.
Variable p : P.

(** Whatever the traversal leaves in a nearest-neighbour visitor that held
    no point, or a point of the index with its distance, is again no point
    or a point of the index with its distance. *)
Lemma SearchNn_node_reported fuel t node (v v' : internal.SearchNn) t' :
  internal.idx_ v = None ∨
    (∃ idx, idx ∈ indices_ t ∧ v = internal.mkSearchNn (Some idx) (MetricL2 points_ p idx)) →
  SearchNn_node points_ fuel p node v t = Ok (v', t') →
  internal.idx_ v' = None ∨
    (∃ idx, idx ∈ indices_ t ∧ v' = internal.mkSearchNn (Some idx) (MetricL2 points_ p idx)).
Proof.
  intros Hv Hrun.
  set (Inv := λ w : internal.SearchNn,
         internal.idx_ w = None ∨
         ∃ idx, idx ∈ indices_ t
                ∧ w = internal.mkSearchNn (Some idx) (MetricL2 points_ p idx)).
  pose proof (SearchNn_node_sim points_ (λ v1 v2, v1 = v2 ∧ Inv v1) p t) as Hsim.
  specialize (Hsim ltac:(by intros w ? [<- _])).
  specialize (Hsim ltac:(intros w ? idx [<- _] Hidx; simpl; split; [done|];
                         right; by exists idx)).
  specialize (Hsim fuel node v v (conj eq_refl Hv)).
  unfold M_rel in Hsim. rewrite Hrun in Hsim. simpl in Hsim.
  by destruct Hsim as ([_ Hv'] & _).
Qed.

Variable t : KdTree.

(** A leaf of at most one position, read with the visitor's own bound. *)
Lemma visit_leaf_exact n :
  ∀ i (v : internal.SearchNn),
    (n ≤ 1)%nat → 0 ≤ i → i + Z.of_nat n ≤ Z.of_nat (length (indices_ t)) →
    ∃ v', visit_leaf points_ n p i (internal.min_ v) v t = Ok (v', t) ∧
          internal.min_ v' ≤ internal.min_ v ∧
          (∀ j id, i ≤ j < i + Z.of_nat n → indices_ t !! Z.to_nat j = Some id →
                   internal.min_ v' ≤ MetricL2 points_ p id) ∧
          (v' = v ∨ ∃ id, id ∈ indices_ t ∧
                          v' = internal.mkSearchNn (Some id) (MetricL2 points_ p id)).
Proof.
  intros i v Hn Hi Hlen. destruct n as [|[|n]]; [| |lia]; simpl.
  - exists v. split_and!; [done|lia|intros; lia|by left].
  - destruct (lookup_lt_is_Some_2 (indices_ t) (Z.to_nat i)) as [idx Hidx]; [lia|].
    unfold bind at 1. rewrite (proj2 (load_index_Ok i t idx t)) by done.
    case_decide as Hnear.
    + unfold bind, lift, ret. simpl. eexists. split_and!; [done|simpl; lia| |].
      * intros j id Hj Hid. replace j with i in Hid by lia. simplify_eq. done.
      * right. exists idx. split; [by eapply list_elem_of_lookup_2|done].
    + exists v. split_and!; [done|lia| |by left].
      intros j id Hj Hid. replace j with i in Hid by lia. simplify_eq. lia.
Qed.

Hypothesis in_range :
  ∀ idx, idx ∈ indices_ t → sq_dist points_ p idx ≤ Scalar_max.

(** With at most one position in every leaf the traversal keeps the least
    distance: what it leaves in the visitor is no farther than what the
    visitor held, nor than any point under the node. *)
Lemma SearchNn_node_exact tr :
  ∀ fuel node (v : internal.SearchNn),
    wf_tree points_ (indices_ t) tr →
    dims_in_range (num_dimensions points_) tr →
    split_attained points_ (indices_ t) tr →
    Forall (λ '(b, e), e - b ≤ 1) (leaves tr) →
    repr (nodes_ t) node tr →
    (height tr < fuel)%nat →
    ∃ v', SearchNn_node points_ fuel p node v t = Ok (v', t) ∧
          internal.min_ v' ≤ internal.min_ v ∧
          (∀ j id, lo tr ≤ j < hi tr → indices_ t !! Z.to_nat j = Some id →
                   internal.min_ v' ≤ MetricL2 points_ p id) ∧
          (v' = v ∨ ∃ id, id ∈ indices_ t ∧
                          v' = internal.mkSearchNn (Some id) (MetricL2 points_ p id)).
Proof.
  induction tr as [b e|split dim l IHl r IHr];
    intros fuel node v Hwf Hdims Hatt Hsmall Hrepr Hfuel;
    (destruct fuel as [|fuel]; [simpl in Hfuel; lia|]);
    inversion Hrepr as [? ? ? Hnode|? ? ? pl pr ? ? Hnode Hreprl Hreprr]; subst;
    simpl; unfold bind at 1;
    rewrite (proj2 (load_node_Ok _ _ _ _)) by done; simpl in Hwf, Hatt, Hfuel.
  - (* a leaf *)
    simpl in Hsmall. rewrite Forall_singleton in Hsmall.
    unfold bind, lift. simpl. unfold internal.SearchNn_max.
    destruct (visit_leaf_exact (Z.to_nat (e - b)) b v)
      as (v' & Hrun & Hle & Hall & Hv'); [lia..|].
    exists v'. split_and!; try done.
    intros j id Hj. apply Hall. lia.
  - (* a branch *)
    destruct Hwf as (Hwfl & Hwfr & Heq & Hle & Hge).
    destruct Hdims as (Hdim & Hdl & Hdr).
    destruct Hatt as (Hsplit & Hal & Har).
    destruct (prune_in_range points_ p t in_range split dim _ _ Hdim Hsplit)
      as [-> ->].
    simpl in Hsmall. rewrite Forall_app in Hsmall. destruct Hsmall as [Hsl Hsr].
    pose proof (wf_tree_lo_hi _ _ _ Hwfl). pose proof (wf_tree_lo_hi _ _ _ Hwfr).
    case_decide as Hside.
    + (* the query is on the left *)
      destruct (IHl fuel pl v) as (v1 & Hrun1 & Hle1 & Hall1 & Hv1);
        [done..|lia|].
      unfold bind at 1. rewrite Hrun1. unfold bind at 1, lift. simpl.
      unfold internal.SearchNn_max.
      case_decide as Hprune.
      * destruct (IHr fuel pr v1) as (v2 & Hrun2 & Hle2 & Hall2 & Hv2);
          [done..|lia|].
        exists v2. split_and!; [done|lia| |].
        -- intros j id Hj Hid. destruct (decide (j < hi l)).
           ++ specialize (Hall1 j id ltac:(lia) Hid). lia.
           ++ apply (Hall2 j); [lia|done].
        -- destruct Hv2 as [->|Hv2]; [done|by right].
      * exists v1. split_and!; [done..| |done].
        intros j id Hj Hid. destruct (decide (j < hi l)).
        -- apply (Hall1 j); [lia|done].
        -- pose proof (Hge j id ltac:(lia) Hid).
           pose proof (MetricL2_dim points_ p t in_range _ id dim Hid Hdim). nia.
    + (* the query is on the right *)
      destruct (IHr fuel pr v) as (v1 & Hrun1 & Hle1 & Hall1 & Hv1);
        [done..|lia|].
      unfold bind at 1. rewrite Hrun1. unfold bind at 1, lift. simpl.
      unfold internal.SearchNn_max.
      case_decide as Hprune.
      * destruct (IHl fuel pl v1) as (v2 & Hrun2 & Hle2 & Hall2 & Hv2);
          [done..|lia|].
        exists v2. split_and!; [done|lia| |].
        -- intros j id Hj Hid. destruct (decide (j < hi l)).
           ++ apply (Hall2 j); [lia|done].
           ++ specialize (Hall1 j id ltac:(lia) Hid). lia.
        -- destruct Hv2 as [->|Hv2]; [done|by right].
      * exists v1. split_and!; [done..| |done].
        intros j id Hj Hid. destruct (decide (j < hi l)).
        -- pose proof (Hle j id ltac:(lia) Hid).
           pose proof (MetricL2_dim points_ p t in_range _ id dim Hid Hdim). nia.
        -- apply (Hall1 j); [lia|done].
Qed.
End nearest_result.

Section nearest_properties.
Context `{SL : ScalarLimits} `{IN : Indeterminate}.
Context `{E : NthElement} `{!NthElementSpec E}.
Variable points_ : Points.

(** X10: on a constructed index (any max_leaf_size) over N points, each
    of which MetricL2 puts at a distance below the largest Scalar from the
    query, SearchNn, given fuel for the depth of the tree, returns a pair
    that is the identifier of one of the N points together with the
    MetricL2 distance of that very point to the query. *)
Theorem SearchNn_returns_a_point_with_its_distance fuel0 max_leaf_size kd fuel p :
  KdTree_ctor points_ fuel0 max_leaf_size = Ok kd →
  (∀ id, 0 ≤ id < num_points points_ → MetricL2 points_ p id < Scalar_max) →
  (Z.to_nat (num_points points_) ≤ fuel)%nat →
  ∃ nn, SearchNn points_ fuel p kd = Ok (nn, kd) ∧
        0 ≤ nn.1 < num_points points_ ∧ nn.2 = MetricL2 points_ p nn.1.
Proof.
  intros Hctor Hbelow Hfuel.
  destruct (KdTree_ctor_Ok_inv points_ _ _ _ Hctor) as [HN Hmls].
  pose proof (KdTree_ctor_spec _ _ _ _ Hctor)
    as (_ & Hlen & Hperm & tr & Hrepr & Hlo & Hhi & Hwf & Hdims & Hne).
  destruct (Hne Hmls) as [Hnonempty Hheight].
  destruct (SearchNn_node_nearest points_ p kd) with
    (tr := tr) (fuel := fuel) (node := root_ kd) (v := internal.SearchNn_ctor)
    as (v & Hrun & Hv); [|done|done|done|lia|by right|].
  { intros idx Hidx. by apply Hbelow, (elem_of_indices points_ _ _ _ Hctor). }
  destruct (SearchNn_node_reported points_ p fuel kd (root_ kd)
              internal.SearchNn_ctor v kd) as [Hnone|(idx & Hidx & ->)];
    [by left|done|done|].
  exists (idx, MetricL2 points_ p idx). split.
  - unfold SearchNn, bind, ret, load_root. by rewrite Hrun.
  - simpl. split; [|done]. by apply (elem_of_indices points_ _ _ _ Hctor).
Qed.

(** X11: on an index constructed with max_leaf_size 1 over points of
    D >= 1 dimensions, all at a squared distance below the largest Scalar
    from the query, SearchNn, given fuel for the depth of the tree, returns
    a nearest point: no point of the set is closer to the query than the
    one returned. *)
Theorem SearchNn_is_exact_with_single_point_leaves fuel0 kd fuel p :
  KdTree_ctor points_ fuel0 1 = Ok kd →
  0 < num_dimensions points_ →
  (∀ id, 0 ≤ id < num_points points_ → sq_dist points_ p id < Scalar_max) →
  (Z.to_nat (num_points points_) ≤ fuel)%nat →
  ∃ id, SearchNn points_ fuel p kd = Ok ((id, MetricL2 points_ p id), kd) ∧
        0 ≤ id < num_points points_ ∧
        ∀ id', 0 ≤ id' < num_points points_ →
               MetricL2 points_ p id ≤ MetricL2 points_ p id'.
Proof.
  intros Hctor HD Hbelow Hfuel.
  pose proof (KdTree_ctor_spec _ _ _ _ Hctor)
    as (HN & Hlen & Hperm & tr & Hrepr & Hlo & Hhi & Hwf & Hdims & Hne).
  destruct (Hne ltac:(lia)) as [_ Hheight].
  destruct (KdTree_ctor_shape points_ _ _ _ tr Hctor Hrepr)
    as (_ & _ & _ & Hshape & Hatt).
  apply split_shape_leaves in Hshape.
  assert (Hrange : ∀ idx, idx ∈ indices_ kd → sq_dist points_ p idx ≤ Scalar_max).
  { intros idx Hidx%(elem_of_indices points_ _ _ _ Hctor).
    specialize (Hbelow idx Hidx). lia. }
  destruct (SearchNn_node_exact points_ p kd Hrange tr fuel (root_ kd)
              internal.SearchNn_ctor)
    as (v & Hrun & Hle & Hall & Hv); [done|by apply Hdims|done|done|done|lia|].
  assert (Hleast : ∀ id, 0 ≤ id < num_points points_ →
                         internal.min_ v ≤ MetricL2 points_ p id).
  { intros id Hid. apply (elem_of_indices points_ _ _ _ Hctor) in Hid.
    apply list_elem_of_lookup_1 in Hid as [j Hj].
    pose proof (lookup_lt_Some _ _ _ Hj).
    apply (Hall (Z.of_nat j)); [lia|by rewrite Nat2Z.id]. }
  destruct Hv as [->|(id & Hid & ->)].
  { specialize (Hleast 0 ltac:(lia)). specialize (Hbelow 0 ltac:(lia)).
    rewrite (MetricL2_exact points_ p 0) in Hleast by lia.
    simpl in Hleast. lia. }
  exists id. split; [|split].
  - unfold SearchNn, bind, load_root, ret. by rewrite Hrun.
  - by apply (elem_of_indices points_ _ _ _ Hctor).
  - intros id' Hid'. by apply Hleast.
Qed.
End nearest_properties.

Section nearest_examples.
#[local] Existing Instance int32_limits.
#[local] Existing Instance stale_index.
#[local] Existing Instance sort_nth_element.

Lemma SearchNn_returns_a_point_with_its_distance_witness :
  ∃ nn, SearchNn four_points 4 (point_of_list [0; 1]) four_points_two_leaves
        = Ok (nn, four_points_two_leaves) ∧
        0 ≤ nn.1 < num_points four_points ∧
        nn.2 = MetricL2 four_points (point_of_list [0; 1]) nn.1.
Proof.
  assert (Hctor : KdTree_ctor four_points 5 2 = Ok four_points_two_leaves)
    by (vm_compute; reflexivity).
  assert (Hbelow : ∀ id, 0 ≤ id < num_points four_points →
                         MetricL2 four_points (point_of_list [0; 1]) id < Scalar_max).
  { intros id Hid.
    assert (id = 0 ∨ id = 1 ∨ id = 2 ∨ id = 3) as [-> | [-> | [-> | ->]]]
      by (change (num_points four_points) with 4 in Hid; lia);
      vm_compute; reflexivity. }
  refine (SearchNn_returns_a_point_with_its_distance four_points 5 2
            four_points_two_leaves 4 (point_of_list [0; 1]) Hctor Hbelow _).
  vm_compute. lia.
Defined.

Lemma SearchNn_is_exact_with_single_point_leaves_witness :
  ∃ id, SearchNn four_points 4 (point_of_list [0; 1]) four_points_index
        = Ok ((id, MetricL2 four_points (point_of_list [0; 1]) id), four_points_index) ∧
        0 ≤ id < num_points four_points ∧
        ∀ id', 0 ≤ id' < num_points four_points →
               MetricL2 four_points (point_of_list [0; 1]) id
               ≤ MetricL2 four_points (point_of_list [0; 1]) id'.
Proof.
  assert (Hctor : KdTree_ctor four_points 5 1 = Ok four_points_index)
    by (vm_compute; reflexivity).
  assert (Hbelow : ∀ id, 0 ≤ id < num_points four_points →
                         sq_dist four_points (point_of_list [0; 1]) id < Scalar_max).
  { intros id Hid.
    assert (id = 0 ∨ id = 1 ∨ id = 2 ∨ id = 3) as [-> | [-> | [-> | ->]]]
      by (change (num_points four_points) with 4 in Hid; lia);
      vm_compute; reflexivity. }
  refine (SearchNn_is_exact_with_single_point_leaves four_points 5
            four_points_index 4 (point_of_list [0; 1]) Hctor _ Hbelow _);
    [reflexivity|vm_compute; lia].
Defined.
End nearest_examples.

Section nearest_of_outermost_point.
Context `{IN : Indeterminate}.
#[local] Existing Instance int32_limits.
#[local] Existing Instance sort_nth_element.

(** A point whose distance is the largest Scalar is not below the initial
    bound and is never reported: the pair that SearchNn returns holds the
    content of the unwritten idx_ and the largest Scalar. *)
Example SearchNn_of_outermost_point :
  ∃ kd, KdTree_ctor outermost_point 1 1 = Ok kd ∧
        MetricL2 outermost_point (point_of_list [0; 0; 0; 0]) 0 = Scalar_max ∧
        SearchNn outermost_point 1 (point_of_list [0; 0; 0; 0]) kd
        = Ok ((indeterminate_Index, Scalar_max), kd).
Proof. eexists. split; [vm_compute; reflexivity|]. split; vm_compute; reflexivity. Qed.
End nearest_of_outermost_point.

(** ** The k-nearest visitor keeps its neighbours in order *)

(** The loop of [InsertSorted], started at the end of [front]: the pairs at
    the end of [front] that are farther than [d] move up by one place, and
    the loop stops in front of them. *)
Lemma InsertSorted_loop_S n i d knn :
  internal.InsertSorted_loop (S n) i d knn
  = if decide (i > 0) then
      (do prev <- vec_at knn (i - 1);
       if decide (prev.2 > d) then
         do knn <- vec_store knn i prev;
         internal.InsertSorted_loop n (i - 1) d knn
       else Ok (i, knn))%res
    else Ok (i, knn).
Proof. done. Qed.

Lemma InsertSorted_loop_spec d front :
  ∀ x back,
    ∃ l1 l2 y,
      front = l1 ++ l2 ∧
      Forall (λ e, e.2 > d) l2 ∧
      (∀ e, last l1 = Some e → e.2 ≤ d) ∧
      internal.InsertSorted_loop (length front) (Z.of_nat (length front)) d
        (front ++ x :: back)
      = Ok (Z.of_nat (length l1), l1 ++ y :: l2 ++ back).
Proof.
  induction front as [|z front IH] using rev_ind; intros x back.
  - exists [], [], x. by split_and!.
  - rewrite length_app. simpl length. rewrite Nat.add_1_r.
    rewrite InsertSorted_loop_S.
    rewrite decide_True by lia.
    replace (Z.of_nat (S (length front)) - 1) with (Z.of_nat (length front)) by lia.
    assert (Hz : vec_at ((front ++ [z]) ++ x :: back) (Z.of_nat (length front)) = Ok z).
    { apply vec_at_Ok. split; [lia|]. rewrite Nat2Z.id, <- (assoc_L (++)).
      simpl. by apply list_lookup_middle. }
    rewrite Hz. simpl. case_decide as Hfar.
    + assert (Hst : vec_store ((front ++ [z]) ++ x :: back)
                      (Z.of_nat (S (length front))) z
                    = Ok (front ++ z :: z :: back)).
      { apply vec_store_Ok. split; [rewrite !length_app; simpl; lia|].
        rewrite Nat2Z.id, <- (assoc_L (++)). simpl.
        replace (S (length front)) with (length front + 1)%nat by lia.
        by rewrite insert_app_r. }
      rewrite Hst. simpl.
      destruct (IH z (z :: back)) as (l1 & l2 & y & -> & Hl2 & Hl1 & ->).
      exists l1, (l2 ++ [z]), y. split_and!.
      * by rewrite (assoc_L (++)).
      * apply Forall_app. split; [done|]. by apply Forall_singleton.
      * done.
      * by rewrite <- !(assoc_L (++)).
    + exists (front ++ [z]), [], x. split_and!.
      * by rewrite app_nil_r.
      * done.
      * intros e. rewrite last_snoc. intros [= <-]. lia.
      * rewrite length_app. simpl. do 2 f_equal. lia.
Qed.

Lemma by_distance_insert l1 l2 e :
  StronglySorted by_distance (l1 ++ l2) →
  (∀ x, last l1 = Some x → x.2 ≤ e.2) →
  Forall (λ x, x.2 > e.2) l2 →
  StronglySorted by_distance (l1 ++ e :: l2).
Proof.
  intros Hsorted Hl1 Hl2. apply StronglySorted_app in Hsorted as (H12 & Hs1 & Hs2).
  assert (Hbelow : ∀ x, x ∈ l1 → x.2 ≤ e.2).
  { intros x Hx. destruct (last l1) as [y|] eqn:Hlast.
    - specialize (Hl1 y eq_refl).
      apply last_Some in Hlast as [l1' ->].
      apply elem_of_app in Hx as [Hx|Hx].
      + apply StronglySorted_app in Hs1 as (Hxy & _).
        specialize (Hxy x y Hx ltac:(by left)). unfold by_distance in Hxy. lia.
      + apply list_elem_of_singleton in Hx as ->. done.
    - apply last_None in Hlast as ->. by apply elem_of_nil in Hx. }
  rewrite Forall_forall in Hl2.
  apply StronglySorted_app. split_and!; [|done|].
  - intros x1 x2 Hx1 Hx2. unfold by_distance.
    apply elem_of_cons in Hx2 as [->|Hx2]; [by apply Hbelow|].
    specialize (Hbelow x1 Hx1). specialize (Hl2 x2 Hx2). simpl in Hl2. lia.
  - apply StronglySorted_cons. split; [|done].
    apply Forall_forall. intros x Hx. specialize (Hl2 x Hx).
    unfold by_distance. simpl in Hl2. lia.
Qed.

Section knn_visitor.
Context `{SL : ScalarLimits}.

(** A report to the visitor: the vector afterwards. *)
Lemma SearchKnn_visit_spec v idx d :
  1 ≤ internal.k_ v → 0 ≤ internal.count_ v ≤ internal.k_ v →
  Z.of_nat (length (internal.knn_ v)) = internal.k_ v →
  ∃ c l1 l2,
    c = (if decide (internal.count_ v < internal.k_ v)
         then internal.count_ v + 1 else internal.count_ v) ∧
    take (Z.to_nat (c - 1)) (internal.knn_ v) = l1 ++ l2 ∧
    Forall (λ e, e.2 > d) l2 ∧
    (∀ e, last l1 = Some e → e.2 ≤ d) ∧
    internal.SearchKnn_visit v idx d
    = Ok {| internal.k_ := internal.k_ v; internal.count_ := c;
            internal.knn_ := l1 ++ (idx, d) :: l2
                             ++ drop (Z.to_nat c) (internal.knn_ v) |}.
Proof.
  intros Hk Hcount Hlen.
  set (c := if decide (internal.count_ v < internal.k_ v)
            then internal.count_ v + 1 else internal.count_ v).
  assert (Hc : 1 ≤ c ≤ internal.k_ v) by (unfold c; case_decide; lia).
  destruct (lookup_lt_is_Some_2 (internal.knn_ v) (Z.to_nat (c - 1))) as [x Hx];
    [lia|].
  pose proof (take_drop_middle _ _ _ Hx) as Hmid.
  replace (S (Z.to_nat (c - 1))) with (Z.to_nat c) in Hmid by lia.
  set (front := take (Z.to_nat (c - 1)) (internal.knn_ v)) in *.
  set (back := drop (Z.to_nat c) (internal.knn_ v)) in *.
  assert (Hfront : length front = Z.to_nat (c - 1))
    by (unfold front; rewrite length_take; lia).
  destruct (InsertSorted_loop_spec d front x back)
    as (l1 & l2 & y & H12 & Hl2 & Hl1 & Hloop).
  exists c, l1, l2. split_and!; try done.
  unfold internal.SearchKnn_visit, internal.InsertSorted.
  assert (Hloop' :
    internal.InsertSorted_loop (Z.to_nat (c - 1)) (c - 1) d (internal.knn_ v)
    = Ok (Z.of_nat (length l1), l1 ++ y :: l2 ++ back)).
  { rewrite <- Hloop, Hmid, Hfront. f_equal. lia. }
  assert (Hst : vec_store (l1 ++ y :: l2 ++ back) (Z.of_nat (length l1)) (idx, d)
                = Ok (l1 ++ (idx, d) :: l2 ++ back)).
  { apply vec_store_Ok. split; [rewrite length_app; simpl; lia|].
    rewrite Nat2Z.id.
    replace (length l1) with (length l1 + 0)%nat at 1 by lia.
    by rewrite insert_app_r. }
  set (v' := if decide (internal.count_ v < internal.k_ v)
             then {| internal.k_ := internal.k_ v;
                     internal.count_ := internal.count_ v + 1;
                     internal.knn_ := internal.knn_ v |}
             else v).
  assert (Hv' : internal.k_ v' = internal.k_ v ∧ internal.count_ v' = c
                ∧ internal.knn_ v' = internal.knn_ v)
    by (unfold v', c; by case_decide).
  destruct Hv' as (-> & -> & ->). rewrite Hloop'. simpl. by rewrite Hst.
Qed.

Lemma SearchKnn_visit_wf v idx d :
  knn_wf v →
  ∃ v', internal.SearchKnn_visit v idx d = Ok v' ∧
        knn_wf v' ∧ internal.k_ v' = internal.k_ v ∧
        (internal.count_ v < internal.k_ v →
         internal.count_ v' = internal.count_ v + 1 ∧
         kept v' ≡ₚ (idx, d) :: kept v) ∧
        (internal.count_ v = internal.k_ v →
         internal.count_ v' = internal.count_ v ∧
         ∃ front far, kept v = front ++ [far] ∧ kept v' ≡ₚ (idx, d) :: front).
Proof.
  intros (Hk & Hcount & Hlen & Hsorted & Hsentinel).
  destruct (SearchKnn_visit_spec v idx d Hk Hcount Hlen)
    as (c & l1 & l2 & Hc & H12 & Hl2 & Hl1 & Hrun).
  assert (Hc' : 1 ≤ c ≤ internal.k_ v) by (subst c; case_decide; lia).
  assert (Hlen12 : length (l1 ++ l2) = Z.to_nat (c - 1))
    by (rewrite <- H12, length_take; lia).
  rewrite length_app in Hlen12.
  eexists. split; [exact Hrun|].
  assert (Hkept : take (Z.to_nat c) (l1 ++ (idx, d) :: l2
                                     ++ drop (Z.to_nat c) (internal.knn_ v))
                  = l1 ++ (idx, d) :: l2).
  { replace (l1 ++ (idx, d) :: l2 ++ drop (Z.to_nat c) (internal.knn_ v))
      with ((l1 ++ (idx, d) :: l2) ++ drop (Z.to_nat c) (internal.knn_ v))
      by (by rewrite <- (assoc_L (++))).
    apply take_app_length'. rewrite length_app. simpl. lia. }
  assert (Hprefix : take (Z.to_nat (c - 1)) (kept v)
                    = take (Z.to_nat (c - 1)) (internal.knn_ v)).
  { unfold kept. rewrite take_take. f_equal. subst c. case_decide; lia. }
  split_and!; simpl.
  - split_and!; simpl; try done; try lia.
    + rewrite !length_app. simpl. rewrite length_app, length_drop. lia.
    + unfold kept. simpl. rewrite Hkept.
      apply (by_distance_insert l1 l2 (idx, d)); [|done..].
      rewrite <- H12, <- Hprefix.
      rewrite <- (take_drop (Z.to_nat (c - 1)) (kept v)) in Hsorted.
      by apply StronglySorted_app_1_l in Hsorted.
    + intros Hroom.
      assert (internal.count_ v < internal.k_ v) as Hroom'
        by (subst c; case_decide; lia).
      rewrite <- (Hsentinel Hroom'). f_equal.
      replace (l1 ++ (idx, d) :: l2 ++ drop (Z.to_nat c) (internal.knn_ v))
        with ((l1 ++ (idx, d) :: l2) ++ drop (Z.to_nat c) (internal.knn_ v))
        by (by rewrite <- (assoc_L (++))).
      rewrite lookup_app_r by (rewrite length_app; simpl; lia).
      rewrite lookup_drop. f_equal. rewrite length_app. simpl. lia.
  - done.
  - intros Hroom. rewrite decide_True in Hc by done. split; [done|].
    unfold kept at 1. simpl. rewrite Hkept.
    rewrite <- Permutation_middle. constructor.
    rewrite <- H12. unfold kept. by replace (c - 1) with (internal.count_ v) by lia.
  - intros Hfull. rewrite decide_False in Hc by lia. split; [done|].
    destruct (lookup_lt_is_Some_2 (internal.knn_ v) (Z.to_nat (c - 1))) as [far Hfar];
      [lia|].
    exists (l1 ++ l2), far. split.
    + unfold kept. rewrite <- H12.
      replace (Z.to_nat (internal.count_ v)) with (S (Z.to_nat (c - 1))) by lia.
      by apply take_S_r.
    + unfold kept at 1. simpl. rewrite Hkept. by rewrite <- Permutation_middle.
Qed.

Lemma SearchKnn_max_wf v :
  knn_wf v →
  ∃ m, internal.SearchKnn_max v = Ok m ∧
       (internal.count_ v < internal.k_ v → m = Scalar_max) ∧
       (internal.count_ v = internal.k_ v →
        ∃ front far, kept v = front ++ [far] ∧ far.2 = m).
Proof.
  intros (Hk & Hcount & Hlen & Hsorted & Hsentinel).
  destruct (lookup_lt_is_Some_2 (internal.knn_ v) (Z.to_nat (internal.k_ v - 1)))
    as [far Hfar]; [lia|].
  exists far.2. unfold internal.SearchKnn_max.
  rewrite (proj2 (vec_at_Ok _ _ far)) by (split; [lia|done]). simpl.
  split_and!; [done| |].
  - intros Hroom. specialize (Hsentinel Hroom). rewrite Hfar in Hsentinel.
    by injection Hsentinel.
  - intros Hfull. exists (take (Z.to_nat (internal.k_ v - 1)) (internal.knn_ v)), far.
    split; [|done]. unfold kept.
    replace (Z.to_nat (internal.count_ v)) with (S (Z.to_nat (internal.k_ v - 1)))
      by lia.
    by apply take_S_r.
Qed.

Lemma SearchKnn_ctor_wf k knn :
  1 ≤ k →
  ∃ v, internal.SearchKnn_ctor k knn = Ok v ∧ knn_wf v ∧
       internal.k_ v = k ∧ internal.count_ v = 0.
Proof.
  intros Hk. unfold internal.SearchKnn_ctor, vec_resize.
  rewrite decide_True by lia. simpl.
  destruct (vec_at_lt (resize (Z.to_nat k) (0, 0) knn) (k - 1)) as [x Hx];
    [rewrite length_resize; lia|].
  rewrite Hx. simpl. unfold vec_store.
  rewrite decide_True by (rewrite length_resize; lia). simpl.
  eexists. split; [done|]. split; [|done].
  split; [simpl; lia|]. split; [simpl; lia|]. split; [|split]; simpl.
  - rewrite length_insert, length_resize. lia.
  - unfold kept. simpl. constructor.
  - intros _. by rewrite list_lookup_insert_eq by (rewrite length_resize; lia).
Qed.

Lemma SearchKnn_dtor_wf v :
  knn_wf v → internal.SearchKnn_dtor v = Ok (kept v).
Proof.
  intros (Hk & Hcount & Hlen & _).
  unfold internal.SearchKnn_dtor, vec_resize, kept.
  rewrite decide_True by lia. by rewrite resize_le by lia.
Qed.
End knn_visitor.

(** ** k nearest neighbours *)

Lemma leaves_nonempty_lo_hi points idx t :
  wf_tree points idx t → leaves_nonempty t → lo t < hi t.
Proof.
  intros Hwf Hne. pose proof (leaves_nonempty_length _ _ _ Hwf Hne).
  pose proof (leaves_length_pos t). lia.
Qed.

Lemma distances_app `{SL : ScalarLimits} points p ids1 ids2 :
  distances points p (ids1 ++ ids2)
  = distances points p ids1 ++ distances points p ids2.
Proof. unfold distances. by rewrite fmap_app. Qed.

#[global] Instance distances_Permutation `{SL : ScalarLimits} points p :
  Proper ((≡ₚ) ==> (≡ₚ)) (distances points p).
Proof. intros ids1 ids2 Hperm. unfold distances. by rewrite Hperm. Qed.

#[global] Instance knn_best_Permutation v :
  Proper ((≡ₚ) ==> iff) (knn_best v).
Proof.
  intros seen1 seen2 Hperm. unfold knn_best.
  split; intros (rest & Hrest & Hroom & Hbest); exists rest;
    (split_and!; [|done..]).
  - by rewrite <- Hperm.
  - by rewrite Hperm.
Qed.

#[global] Instance knn_among_Permutation v :
  Proper ((≡ₚ) ==> iff) (knn_among v).
Proof.
  intros seen1 seen2 Hperm. unfold knn_among. by rewrite Hperm.
Qed.

Section knn_traversal.
Context `{SL : ScalarLimits}.
Variable points_ : Points.
Variable p : P.

Variable t : KdTree.
Hypothesis below_max :
  ∀ idx, idx ∈ indices_ t → sq_dist points_ p idx < Scalar_max.

Lemma in_range_below_max idx :
  idx ∈ indices_ t → sq_dist points_ p idx ≤ Scalar_max.
Proof. intros Hidx. specialize (below_max idx Hidx). lia. Qed.

Lemma MetricL2_below_max idx :
  idx ∈ indices_ t → MetricL2 points_ p idx < Scalar_max.
Proof.
  intros Hidx. rewrite MetricL2_exact by by apply in_range_below_max.
  by apply below_max.
Qed.

(** *** Every point at most once *)

Lemma knn_among_visit (v : internal.SearchKnn) seen idx d :
  knn_wf v → knn_among v seen →
  ∃ v', internal.SearchKnn_visit v idx d = Ok v' ∧
        knn_wf v' ∧ internal.k_ v' = internal.k_ v ∧
        internal.count_ v ≤ internal.count_ v' ∧
        knn_among v' (seen ++ [(idx, d)]).
Proof.
  intros Hv [Hsub Hall].
  destruct (SearchKnn_visit_wf v idx d Hv) as (v' & Hrun & Hv' & Hk' & Hadd & Hrepl).
  pose proof Hv as (_ & Hcount & _).
  exists v'. split_and!; [done..| |].
  - destruct (decide (internal.count_ v < internal.k_ v)) as [Hlt|Hfull].
    + destruct (Hadd Hlt). lia.
    + destruct (Hrepl ltac:(lia)). lia.
  - destruct (decide (internal.count_ v < internal.k_ v)) as [Hlt|Hfull].
    + destruct (Hadd Hlt) as [_ Hkept'].
      assert (kept v' ≡ₚ seen ++ [(idx, d)]) as Hperm
        by (rewrite Hkept', (Hall Hlt); apply Permutation_cons_append).
      split; [by apply Permutation_submseteq|done].
    + destruct (Hrepl ltac:(lia)) as (Hcount' & front & far & Hkept & Hkept').
      split; [|lia].
      rewrite Hkept', <- Permutation_cons_append. apply submseteq_skip.
      etrans; [|exact Hsub]. rewrite Hkept. by apply submseteq_inserts_r.
Qed.

Lemma knn_among_skip (v : internal.SearchKnn) seen extra :
  knn_among v seen → ¬ internal.count_ v < internal.k_ v →
  knn_among v (seen ++ extra).
Proof.
  intros [Hsub Hall] Hfull. split; [by apply submseteq_inserts_r|done].
Qed.

(** A leaf, read with a bound [m] that is the initial search distance for
    as long as there is room. *)
Lemma visit_leaf_knn_among n :
  ∀ i (v : internal.SearchKnn) seen m,
    knn_wf v → knn_among v seen →
    0 ≤ i → i + Z.of_nat n ≤ Z.of_nat (length (indices_ t)) →
    (internal.count_ v < internal.k_ v → m = Scalar_max) →
    ∃ v', visit_leaf points_ n p i m v t = Ok (v', t) ∧
          knn_wf v' ∧ internal.k_ v' = internal.k_ v ∧
          knn_among v' (seen ++ distances points_ p
                                  (slice (indices_ t) i (i + Z.of_nat n))).
Proof.
  induction n as [|n IH]; intros i v seen m Hv Hamong Hi Hlen Hm; simpl.
  { exists v. rewrite slice_nil by lia. unfold distances. simpl.
    rewrite app_nil_r. by split_and!. }
  destruct (lookup_lt_is_Some_2 (indices_ t) (Z.to_nat i)) as [idx Hidx]; [lia|].
  unfold bind at 1. rewrite (proj2 (load_index_Ok i t idx t)) by done.
  pose proof (MetricL2_below_max idx ltac:(by eapply list_elem_of_lookup_2)) as Hbelow.
  rewrite (slice_cons _ i _ idx) by (done || lia).
  replace (i + Z.of_nat (S n)) with (i + 1 + Z.of_nat n) by lia.
  unfold distances. simpl. fold (distances points_ p).
  rewrite (cons_middle _ seen), (assoc_L (++)).
  case_decide as Hnear.
  - destruct (knn_among_visit v seen idx (MetricL2 points_ p idx) Hv Hamong)
      as (v1 & Hrun1 & Hv1 & Hk1 & Hcount1 & Hamong1).
    unfold bind, lift. simpl. rewrite Hrun1.
    destruct (IH (i + 1) v1 _ m Hv1 Hamong1) as (v' & Hrun & Hv' & Hk' & Hamong');
      [lia..|intros; apply Hm; lia|].
    exists v'. split_and!; [done|done|congruence|done].
  - assert (Hfull : ¬ internal.count_ v < internal.k_ v)
      by (intros Hlt; specialize (Hm Hlt); lia).
    destruct (IH (i + 1) v _ m Hv
                (knn_among_skip v seen [(idx, MetricL2 points_ p idx)] Hamong Hfull))
      as (v' & Hrun & Hv' & Hk' & Hamong'); [lia..|done|].
    exists v'. by split_and!.
Qed.

Lemma SearchNn_node_knn_among tr :
  ∀ fuel node (v : internal.SearchKnn) seen,
    wf_tree points_ (indices_ t) tr →
    dims_in_range (num_dimensions points_) tr →
    split_attained points_ (indices_ t) tr →
    leaves_nonempty tr →
    repr (nodes_ t) node tr →
    (height tr < fuel)%nat →
    knn_wf v → knn_among v seen →
    ∃ v', SearchNn_node points_ fuel p node v t = Ok (v', t) ∧
          knn_wf v' ∧ internal.k_ v' = internal.k_ v ∧
          knn_among v' (seen ++ distances points_ p
                                  (slice (indices_ t) (lo tr) (hi tr))).
Proof.
  induction tr as [b e|split dim l IHl r IHr];
    intros fuel node v seen Hwf Hdims Hatt Hne Hrepr Hfuel Hv Hamong;
    (destruct fuel as [|fuel]; [simpl in Hfuel; lia|]);
    inversion Hrepr as [? ? ? Hnode|? ? ? pl pr ? ? Hnode Hreprl Hreprr]; subst;
    simpl; unfold bind at 1;
    rewrite (proj2 (load_node_Ok _ _ _ _)) by done; simpl in Hwf, Hatt, Hfuel.
  - (* a leaf *)
    destruct (SearchKnn_max_wf v Hv) as (m & Hm & Hmax & _).
    unfold bind at 1, lift. simpl. rewrite Hm.
    destruct (visit_leaf_knn_among (Z.to_nat (e - b)) b v seen m)
      as (v' & Hrun & Hv' & Hk' & Hamong'); [done|done|lia..|done|].
    rewrite Z2Nat.id in Hamong' by lia.
    replace (b + (e - b)) with e in Hamong' by lia.
    exists v'. by split_and!.
  - (* a branch *)
    destruct Hwf as (Hwfl & Hwfr & Heq & Hle & Hge).
    destruct Hdims as (Hdim & Hdl & Hdr).
    destruct Hatt as (Hsplit & Hal & Har).
    destruct (prune_in_range points_ p t in_range_below_max split dim _ _ Hdim Hsplit)
      as [-> ->].
    unfold leaves_nonempty in Hne. simpl in Hne.
    rewrite Forall_app in Hne. destruct Hne as [Hnel Hner].
    pose proof (wf_tree_lo_hi _ _ _ Hwfl). pose proof (wf_tree_lo_hi _ _ _ Hwfr).
    pose proof (leaves_nonempty_lo_hi _ _ _ Hwfl Hnel).
    pose proof (leaves_nonempty_lo_hi _ _ _ Hwfr Hner).
    rewrite (slice_app _ (lo l) (hi l) (hi r)) by lia.
    rewrite distances_app, Heq.
    case_decide as Hside.
    + (* the query is on the left *)
      destruct (IHl fuel pl v seen) as (v1 & Hrun1 & Hv1 & Hk1 & Hamong1);
        [done..|lia|done|done|].
      rewrite Heq in Hamong1.
      unfold bind at 1. rewrite Hrun1.
      destruct (SearchKnn_max_wf v1 Hv1) as (m & Hm & Hmax & _).
      unfold bind at 1, lift. simpl. rewrite Hm.
      case_decide as Hprune.
      * destruct (IHr fuel pr v1 (seen ++ distances points_ p
                                           (slice (indices_ t) (lo l) (lo r))))
          as (v2 & Hrun2 & Hv2 & Hk2 & Hamong2); [done..|lia|done|done|].
        exists v2. split_and!; [done|done|congruence|].
        by rewrite <- (assoc_L (++)) in Hamong2.
      * exists v1. split_and!; [done..|].
        rewrite (assoc_L (++)). apply knn_among_skip; [done|].
        intros Hlt.
        destruct (lookup_lt_is_Some_2 (indices_ t) (Z.to_nat (lo r))) as [id Hid];
          [lia|].
        pose proof (MetricL2_below_max id ltac:(by eapply list_elem_of_lookup_2)).
        pose proof (Hge (lo r) id ltac:(lia) Hid).
        pose proof (MetricL2_dim points_ p t in_range_below_max _ id dim Hid Hdim).
        rewrite (Hmax Hlt) in *. nia.
    + (* the query is on the right *)
      destruct (IHr fuel pr v seen) as (v1 & Hrun1 & Hv1 & Hk1 & Hamong1);
        [done..|lia|done|done|].
      unfold bind at 1. rewrite Hrun1.
      destruct (SearchKnn_max_wf v1 Hv1) as (m & Hm & Hmax & _).
      unfold bind at 1, lift. simpl. rewrite Hm.
      assert (Hswap : ∀ w, knn_among w ((seen ++ distances points_ p
                                                   (slice (indices_ t) (lo r) (hi r)))
                                        ++ distances points_ p
                                             (slice (indices_ t) (lo l) (lo r))) →
                           knn_among w (seen ++ distances points_ p
                                                  (slice (indices_ t) (lo l) (lo r))
                                        ++ distances points_ p
                                             (slice (indices_ t) (lo r) (hi r)))).
      { intros w Hw. eapply knn_among_Permutation; [|exact Hw].
        rewrite <- !(assoc_L (++)).
        apply Permutation_app_head, Permutation_app_comm. }
      case_decide as Hprune.
      * destruct (IHl fuel pl v1 (seen ++ distances points_ p
                                           (slice (indices_ t) (lo r) (hi r))))
          as (v2 & Hrun2 & Hv2 & Hk2 & Hamong2); [done..|lia|done|done|].
        rewrite Heq in Hamong2.
        exists v2. split_and!; [done|done|congruence|]. by apply Hswap.
      * exists v1. split_and!; [done..|]. apply Hswap.
        apply knn_among_skip; [done|].
        intros Hlt.
        destruct (lookup_lt_is_Some_2 (indices_ t) (Z.to_nat (lo l))) as [id Hid];
          [lia|].
        pose proof (MetricL2_below_max id ltac:(by eapply list_elem_of_lookup_2)).
        pose proof (Hle (lo l) id ltac:(lia) Hid).
        pose proof (MetricL2_dim points_ p t in_range_below_max _ id dim Hid Hdim).
        rewrite (Hmax Hlt) in *. nia.
Qed.

(** *** The best of what was seen *)

(** Pairs that are no closer than the bound of the visitor are dropped. *)
Lemma knn_best_skip (v : internal.SearchKnn) seen m extra :
  knn_wf v → knn_best v seen →
  internal.SearchKnn_max v = Ok m →
  Forall (λ e, m ≤ e.2) extra →
  (internal.count_ v < internal.k_ v → extra = []) →
  knn_best v (seen ++ extra).
Proof.
  intros Hv (rest & Hrest & Hroom & Hbest) Hm Hextra Hnone.
  destruct (SearchKnn_max_wf v Hv) as (m' & Hm' & _ & Hfar).
  assert (m' = m) as -> by congruence.
  exists (rest ++ extra). split_and!.
  - by rewrite (assoc_L (++)), Hrest.
  - intros Hlt. by rewrite Hroom, Hnone.
  - intros x e Hx He. apply elem_of_app in He as [He|He]; [by apply Hbest|].
    destruct (decide (internal.count_ v < internal.k_ v)) as [Hlt|Hfull].
    { rewrite Hnone in He by done. by apply elem_of_nil in He. }
    destruct Hv as (_ & Hcount & _ & Hsorted & _).
    destruct Hfar as (front & far & Hkept & <-); [lia|].
    rewrite Forall_forall in Hextra. specialize (Hextra e He). simpl in Hextra.
    rewrite Hkept in Hx, Hsorted.
    apply elem_of_app in Hx as [Hx|Hx].
    + apply StronglySorted_app in Hsorted as (Hle & _).
      specialize (Hle x far Hx ltac:(by left)). unfold by_distance in Hle. lia.
    + apply list_elem_of_singleton in Hx as ->. done.
Qed.

(** A report of a pair that is closer than the bound of the visitor. *)
Lemma knn_best_visit (v : internal.SearchKnn) seen m idx d :
  knn_wf v → knn_best v seen →
  internal.SearchKnn_max v = Ok m → m > d →
  ∃ v', internal.SearchKnn_visit v idx d = Ok v' ∧
        knn_wf v' ∧ internal.k_ v' = internal.k_ v ∧
        knn_best v' (seen ++ [(idx, d)]).
Proof.
  intros Hv (rest & Hrest & Hroom & Hbest) Hm Hnear.
  destruct (SearchKnn_visit_wf v idx d Hv) as (v' & Hrun & Hv' & Hk' & Hadd & Hrepl).
  destruct (SearchKnn_max_wf v Hv) as (m' & Hm' & _ & Hfar).
  assert (m' = m) as -> by congruence.
  exists v'. split_and!; [done..|].
  pose proof Hv as (_ & Hcount & _ & Hsorted & _).
  destruct (decide (internal.count_ v < internal.k_ v)) as [Hlt|Hfull].
  - destruct (Hadd Hlt) as [Hcount' Hkept'].
    rewrite (Hroom Hlt), app_nil_r in Hrest.
    exists []. split_and!; [|done|].
    + rewrite app_nil_r, Hkept', Hrest. apply Permutation_cons_append.
    + intros x e _ He. by apply elem_of_nil in He.
  - destruct (Hrepl ltac:(lia)) as (Hcount' & front & far & Hkept & Hkept').
    destruct (Hfar ltac:(lia)) as (front' & far' & Hkept'' & Hm'').
    rewrite Hkept in Hkept''. apply app_inj_tail in Hkept'' as [<- <-].
    exists (far :: rest). split_and!.
    + rewrite Hkept', <- Hrest, Hkept. simpl.
      rewrite <- Permutation_cons_append. constructor.
      rewrite <- !(assoc_L (++)). simpl. by rewrite <- Permutation_middle.
    + intros Hlt. lia.
    + intros x e Hx He. rewrite Hkept' in Hx. rewrite Hkept in Hbest, Hsorted.
      assert (Hfar_e : far.2 ≤ e.2).
      { apply elem_of_cons in He as [->|He]; [lia|].
        apply Hbest; [|done]. apply elem_of_app. right. by left. }
      apply elem_of_cons in Hx as [->|Hx]; [simpl; lia|].
      apply StronglySorted_app in Hsorted as (Hle & _).
      specialize (Hle x far Hx ltac:(by left)). unfold by_distance in Hle. lia.
Qed.

(** A leaf of at most one position, read with the visitor's own bound. *)
Lemma visit_leaf_knn_exact n :
  ∀ i (v : internal.SearchKnn) seen m,
    (n ≤ 1)%nat → 0 ≤ i → i + Z.of_nat n ≤ Z.of_nat (length (indices_ t)) →
    knn_wf v → knn_best v seen →
    internal.SearchKnn_max v = Ok m →
    ∃ v', visit_leaf points_ n p i m v t = Ok (v', t) ∧
          knn_wf v' ∧ internal.k_ v' = internal.k_ v ∧
          knn_best v' (seen ++ distances points_ p
                                 (slice (indices_ t) i (i + Z.of_nat n))).
Proof.
  intros i v seen m Hn Hi Hlen Hv Hbest Hm. destruct n as [|[|n]]; [| |lia]; simpl.
  - exists v. rewrite slice_nil by lia. unfold distances. simpl.
    rewrite app_nil_r. by split_and!.
  - destruct (lookup_lt_is_Some_2 (indices_ t) (Z.to_nat i)) as [idx Hidx]; [lia|].
    unfold bind at 1. rewrite (proj2 (load_index_Ok i t idx t)) by done.
    rewrite (slice_cons _ i _ idx) by (done || lia).
    rewrite slice_nil by lia. unfold distances. simpl.
    pose proof (MetricL2_below_max idx ltac:(by eapply list_elem_of_lookup_2)) as Hbelow.
    case_decide as Hnear.
    + destruct (knn_best_visit v seen m idx (MetricL2 points_ p idx) Hv Hbest Hm Hnear)
        as (v' & Hrun & Hv' & Hk' & Hbest').
      unfold bind, lift, ret. simpl. rewrite Hrun.
      exists v'. by split_and!.
    + exists v. split_and!; [done..|].
      apply (knn_best_skip v seen m); try done.
      * apply Forall_singleton. simpl. lia.
      * intros Hlt. destruct (SearchKnn_max_wf v Hv) as (m' & Hm' & Hmax & _).
        rewrite (Hmax Hlt) in Hm'. assert (m = Scalar_max) by congruence. lia.
Qed.

Lemma SearchNn_node_knn_exact tr :
  ∀ fuel node (v : internal.SearchKnn) seen,
    wf_tree points_ (indices_ t) tr →
    dims_in_range (num_dimensions points_) tr →
    split_attained points_ (indices_ t) tr →
    leaves_nonempty tr →
    Forall (λ '(b, e), e - b ≤ 1) (leaves tr) →
    repr (nodes_ t) node tr →
    (height tr < fuel)%nat →
    knn_wf v → knn_best v seen →
    ∃ v', SearchNn_node points_ fuel p node v t = Ok (v', t) ∧
          knn_wf v' ∧ internal.k_ v' = internal.k_ v ∧
          knn_best v' (seen ++ distances points_ p
                                 (slice (indices_ t) (lo tr) (hi tr))).
Proof.
  induction tr as [b e|split dim l IHl r IHr];
    intros fuel node v seen Hwf Hdims Hatt Hne Hsmall Hrepr Hfuel Hv Hbest;
    (destruct fuel as [|fuel]; [simpl in Hfuel; lia|]);
    inversion Hrepr as [? ? ? Hnode|? ? ? pl pr ? ? Hnode Hreprl Hreprr]; subst;
    simpl; unfold bind at 1;
    rewrite (proj2 (load_node_Ok _ _ _ _)) by done; simpl in Hwf, Hatt, Hfuel.
  - (* a leaf *)
    simpl in Hsmall. rewrite Forall_singleton in Hsmall.
    destruct (SearchKnn_max_wf v Hv) as (m & Hm & _).
    unfold bind at 1, lift. simpl. rewrite Hm.
    destruct (visit_leaf_knn_exact (Z.to_nat (e - b)) b v seen m)
      as (v' & Hrun & Hv' & Hk' & Hbest'); [lia..|done|done|done|].
    rewrite Z2Nat.id in Hbest' by lia.
    replace (b + (e - b)) with e in Hbest' by lia.
    exists v'. by split_and!.
  - (* a branch *)
    destruct Hwf as (Hwfl & Hwfr & Heq & Hle & Hge).
    destruct Hdims as (Hdim & Hdl & Hdr).
    destruct Hatt as (Hsplit & Hal & Har).
    destruct (prune_in_range points_ p t in_range_below_max split dim _ _ Hdim Hsplit)
      as [-> ->].
    unfold leaves_nonempty in Hne. simpl in Hne.
    rewrite Forall_app in Hne. destruct Hne as [Hnel Hner].
    simpl in Hsmall. rewrite Forall_app in Hsmall. destruct Hsmall as [Hsl Hsr].
    pose proof (wf_tree_lo_hi _ _ _ Hwfl). pose proof (wf_tree_lo_hi _ _ _ Hwfr).
    pose proof (leaves_nonempty_lo_hi _ _ _ Hwfl Hnel).
    pose proof (leaves_nonempty_lo_hi _ _ _ Hwfr Hner).
    rewrite (slice_app _ (lo l) (hi l) (hi r)) by lia.
    rewrite distances_app, Heq.
    case_decide as Hside.
    + (* the query is on the left *)
      destruct (IHl fuel pl v seen) as (v1 & Hrun1 & Hv1 & Hk1 & Hbest1);
        [done..|lia|done|done|].
      rewrite Heq in Hbest1.
      unfold bind at 1. rewrite Hrun1.
      destruct (SearchKnn_max_wf v1 Hv1) as (m & Hm & Hmax & _).
      unfold bind at 1, lift. simpl. rewrite Hm.
      case_decide as Hprune.
      * destruct (IHr fuel pr v1 (seen ++ distances points_ p
                                           (slice (indices_ t) (lo l) (lo r))))
          as (v2 & Hrun2 & Hv2 & Hk2 & Hbest2); [done..|lia|done|done|].
        exists v2. split_and!; [done|done|congruence|].
        by rewrite <- (assoc_L (++)) in Hbest2.
      * exists v1. split_and!; [done..|].
        rewrite (assoc_L (++)).
        assert (Hfar : ∀ j id, lo r ≤ j < hi r → indices_ t !! Z.to_nat j = Some id →
                               m ≤ MetricL2 points_ p id).
        { intros j id Hj Hid. pose proof (Hge j id Hj Hid).
          pose proof (MetricL2_dim points_ p t in_range_below_max _ id dim Hid Hdim). nia. }
        apply (knn_best_skip v1 _ m); try done.
        -- apply Forall_forall. intros e He. unfold distances in He.
           apply list_elem_of_fmap in He as (id & -> & Hid).
           apply elem_of_slice in Hid as (j & Hj & Hid); [|lia].
           simpl. by apply (Hfar j).
        -- intros Hlt. exfalso.
           destruct (lookup_lt_is_Some_2 (indices_ t) (Z.to_nat (lo r))) as [id Hid];
             [lia|].
           pose proof (MetricL2_below_max id ltac:(by eapply list_elem_of_lookup_2)).
           pose proof (Hfar (lo r) id ltac:(lia) Hid).
           rewrite (Hmax Hlt) in *. lia.
    + (* the query is on the right *)
      destruct (IHr fuel pr v seen) as (v1 & Hrun1 & Hv1 & Hk1 & Hbest1);
        [done..|lia|done|done|].
      unfold bind at 1. rewrite Hrun1.
      destruct (SearchKnn_max_wf v1 Hv1) as (m & Hm & Hmax & _).
      unfold bind at 1, lift. simpl. rewrite Hm.
      assert (Hswap : ∀ w, knn_best w ((seen ++ distances points_ p
                                                  (slice (indices_ t) (lo r) (hi r)))
                                       ++ distances points_ p
                                            (slice (indices_ t) (lo l) (lo r))) →
                           knn_best w (seen ++ distances points_ p
                                                 (slice (indices_ t) (lo l) (lo r))
                                       ++ distances points_ p
                                            (slice (indices_ t) (lo r) (hi r)))).
      { intros w Hw. eapply knn_best_Permutation; [|exact Hw].
        rewrite <- !(assoc_L (++)).
        apply Permutation_app_head, Permutation_app_comm. }
      case_decide as Hprune.
      * destruct (IHl fuel pl v1 (seen ++ distances points_ p
                                           (slice (indices_ t) (lo r) (hi r))))
          as (v2 & Hrun2 & Hv2 & Hk2 & Hbest2); [done..|lia|done|done|].
        rewrite Heq in Hbest2.
        exists v2. split_and!; [done|done|congruence|]. by apply Hswap.
      * exists v1. split_and!; [done..|]. apply Hswap.
        assert (Hfar : ∀ j id, lo l ≤ j < lo r → indices_ t !! Z.to_nat j = Some id →
                               m ≤ MetricL2 points_ p id).
        { intros j id Hj Hid. pose proof (Hle j id ltac:(lia) Hid).
          pose proof (MetricL2_dim points_ p t in_range_below_max _ id dim Hid Hdim). nia. }
        apply (knn_best_skip v1 _ m); try done.
        -- apply Forall_forall. intros e He. unfold distances in He.
           apply list_elem_of_fmap in He as (id & -> & Hid).
           apply elem_of_slice in Hid as (j & Hj & Hid); [|lia].
           simpl. by apply (Hfar j).
        -- intros Hlt. exfalso.
           destruct (lookup_lt_is_Some_2 (indices_ t) (Z.to_nat (lo l))) as [id Hid];
             [lia|].
           pose proof (MetricL2_below_max id ltac:(by eapply list_elem_of_lookup_2)).
           pose proof (Hfar (lo l) id ltac:(lia) Hid).
           rewrite (Hmax Hlt) in *. lia.
Qed.
End knn_traversal.

(** ** The k-nearest and the radius search *)

Section knn_properties.
Context `{SL : ScalarLimits} `{E : NthElement} `{!NthElementSpec E}.
Variable points_ : Points.

(** X12: a report to a k-nearest visitor that holds its neighbours in
    ascending order of distance leaves them in ascending order. While
    there is room the neighbours held afterwards are the new pair and the
    old neighbours; without room they are the new pair and the old
    neighbours but the farthest, whatever the distance of the new pair. *)
Theorem SearchKnn_visit_inserts_in_order (v : internal.SearchKnn) idx d :
  knn_wf v →
  ∃ v', internal.SearchKnn_visit v idx d = Ok v' ∧
        knn_wf v' ∧ internal.k_ v' = internal.k_ v ∧
        StronglySorted by_distance (kept v') ∧
        (internal.count_ v < internal.k_ v →
         internal.count_ v' = internal.count_ v + 1 ∧
         kept v' ≡ₚ (idx, d) :: kept v) ∧
        (internal.count_ v = internal.k_ v →
         internal.count_ v' = internal.count_ v ∧
         ∃ front far, kept v = front ++ [far] ∧ kept v' ≡ₚ (idx, d) :: front).
Proof.
  intros Hv.
  destruct (SearchKnn_visit_wf v idx d Hv) as (v' & Hrun & Hv' & Hk' & Hadd & Hrepl).
  exists v'. split_and!; try done. by destruct Hv' as (_ & _ & _ & Hsorted & _).
Qed.

(** X13: on a constructed index over N points of D >= 1 dimensions, all
    at a squared distance below the largest Scalar from the query,
    SearchKnn with k >= 1, given fuel for the depth of the tree, returns
    min(k, N) pairs in ascending order of distance, each the identifier of
    a point with its distance to the query and no point twice; with k >= N
    these are all N points. *)
Theorem SearchKnn_returns_distinct_points_in_order
    fuel0 max_leaf_size kd fuel p k knn :
  KdTree_ctor points_ fuel0 max_leaf_size = Ok kd →
  0 < num_dimensions points_ →
  (∀ id, 0 ≤ id < num_points points_ → sq_dist points_ p id < Scalar_max) →
  1 ≤ k →
  (Z.to_nat (num_points points_) ≤ fuel)%nat →
  ∃ found,
    SearchKnn points_ fuel p k knn kd = Ok (found, kd) ∧
    StronglySorted by_distance found ∧
    found ⊆+ distances points_ p (seqZ 0 (num_points points_)) ∧
    Z.of_nat (length found) = k `min` num_points points_ ∧
    (num_points points_ ≤ k →
     found ≡ₚ distances points_ p (seqZ 0 (num_points points_))).
Proof.
  intros Hctor HD Hbelow Hk Hfuel.
  destruct (KdTree_ctor_Ok_inv points_ _ _ _ Hctor) as [HN Hmls].
  pose proof (KdTree_ctor_spec _ _ _ _ Hctor)
    as (_ & Hlen & Hperm & tr & Hrepr & Hlo & Hhi & Hwf & Hdims & Hne).
  destruct (Hne Hmls) as [Hnonempty Hheight].
  destruct (SearchKnn_ctor_wf k knn Hk) as (v0 & Hctor0 & Hv0 & Hk0 & Hcount0).
  assert (Hamong0 : knn_among v0 []).
  { unfold knn_among, kept. rewrite Hcount0. simpl. by rewrite take_0. }
  destruct (KdTree_ctor_shape points_ _ _ _ tr Hctor Hrepr)
    as (_ & _ & _ & _ & Hatt).
  destruct (SearchNn_node_knn_among points_ p kd) with
    (tr := tr) (fuel := fuel) (node := root_ kd) (v := v0) (seen := @nil (Z * Z))
    as (v & Hrun & Hv & Hkv & Hamong);
    [|done|by apply Hdims|done|done|done|lia|done|done|].
  { intros idx Hidx. by apply Hbelow, (elem_of_indices points_ _ _ _ Hctor). }
  simpl in Hamong. rewrite Hlo, Hhi, <- Hlen, slice_all, Hperm in Hamong.
  destruct Hamong as [Hsub Hall].
  pose proof Hv as (_ & Hcount & Hlenv & Hsorted & _).
  assert (Hall_len : Z.of_nat (length (distances points_ p
                                         (seqZ 0 (num_points points_))))
                     = num_points points_).
  { unfold distances. rewrite length_fmap, length_seqZ. lia. }
  assert (Hfound_len : Z.of_nat (length (kept v)) = internal.count_ v).
  { unfold kept. rewrite length_take. lia. }
  assert (Hmin : Z.of_nat (length (kept v)) = k `min` num_points points_).
  { destruct (decide (internal.count_ v < internal.k_ v)) as [Hlt|Hfull].
    - pose proof (Permutation_length (Hall Hlt)). lia.
    - pose proof (submseteq_length _ _ Hsub). lia. }
  exists (kept v). split_and!; [|done..|].
  - unfold SearchKnn, bind, lift, load_root.
    by rewrite Hctor0, Hrun, (SearchKnn_dtor_wf v Hv).
  - intros Hlarge. apply submseteq_length_Permutation; [done|]. lia.
Qed.

(** X14: on an index constructed with max_leaf_size 1 over N points of
    D >= 1 dimensions, all at a squared distance below the largest Scalar
    from the query, SearchKnn with k >= 1, given fuel for the depth of the
    tree, returns k nearest neighbours: min(k, N) points, and no point left
    out is closer to the query than a point returned. *)
Theorem SearchKnn_is_exact_with_single_point_leaves fuel0 kd fuel p k knn :
  KdTree_ctor points_ fuel0 1 = Ok kd →
  0 < num_dimensions points_ →
  (∀ id, 0 ≤ id < num_points points_ → sq_dist points_ p id < Scalar_max) →
  1 ≤ k →
  (Z.to_nat (num_points points_) ≤ fuel)%nat →
  ∃ found rest,
    SearchKnn points_ fuel p k knn kd = Ok (found, kd) ∧
    found ++ rest ≡ₚ distances points_ p (seqZ 0 (num_points points_)) ∧
    Z.of_nat (length found) = k `min` num_points points_ ∧
    ∀ x e, x ∈ found → e ∈ rest → x.2 ≤ e.2.
Proof.
  intros Hctor HD Hbelow Hk Hfuel.
  pose proof (KdTree_ctor_spec _ _ _ _ Hctor)
    as (HN & Hlen & Hperm & tr & Hrepr & Hlo & Hhi & Hwf & Hdims & Hne).
  destruct (Hne ltac:(lia)) as [Hnonempty Hheight].
  destruct (KdTree_ctor_shape points_ _ _ _ tr Hctor Hrepr)
    as (_ & _ & _ & Hshape & Hatt).
  apply split_shape_leaves in Hshape.
  destruct (SearchKnn_ctor_wf k knn Hk) as (v0 & Hctor0 & Hv0 & Hk0 & Hcount0).
  assert (Hbest0 : knn_best v0 []).
  { exists []. unfold kept. rewrite Hcount0. simpl. rewrite take_0.
    split_and!; [done..|]. intros x e Hx. by apply elem_of_nil in Hx. }
  destruct (SearchNn_node_knn_exact points_ p kd) with
    (tr := tr) (fuel := fuel) (node := root_ kd) (v := v0) (seen := @nil (Z * Z))
    as (v & Hrun & Hv & Hkv & Hbest);
    [|done|by apply Hdims|done|done|done|done|lia|done|done|].
  { intros idx Hidx. by apply Hbelow, (elem_of_indices points_ _ _ _ Hctor). }
  simpl in Hbest. rewrite Hlo, Hhi, <- Hlen, slice_all, Hperm in Hbest.
  destruct Hbest as (rest & Hrest & Hroom & Hbest).
  pose proof Hv as (_ & Hcount & Hlenv & _).
  assert (Hfound_len : Z.of_nat (length (kept v)) = internal.count_ v).
  { unfold kept. rewrite length_take. lia. }
  pose proof (Permutation_length Hrest) as Hlens.
  unfold distances in Hlens.
  rewrite length_app, length_fmap, length_seqZ in Hlens.
  exists (kept v), rest. split_and!; [|done| |done].
  - unfold SearchKnn, bind, lift, load_root.
    by rewrite Hctor0, Hrun, (SearchKnn_dtor_wf v Hv).
  - destruct (decide (internal.count_ v < internal.k_ v)) as [Hlt|Hfull].
    + rewrite (Hroom Hlt) in Hlens. simpl in Hlens. lia.
    + lia.
Qed.

(** X15: on a constructed index over points of D >= 1 dimensions, all at
    a squared distance of at most the largest Scalar from the query,
    SearchRadius with a radius of zero or less, given fuel for the depth
    of the tree, returns no point at all, not even a point at the place of
    the query: a point is within the radius only when its distance is
    strictly less. *)
Theorem SearchRadius_finds_nothing_within_no_radius
    fuel0 max_leaf_size kd fuel p radius n :
  KdTree_ctor points_ fuel0 max_leaf_size = Ok kd →
  0 < num_dimensions points_ →
  (∀ id, 0 ≤ id < num_points points_ → sq_dist points_ p id ≤ Scalar_max) →
  radius ≤ 0 →
  (Z.to_nat (num_points points_) ≤ fuel)%nat →
  SearchRadius points_ fuel p radius n kd = Ok ([], kd).
Proof.
  intros Hctor HD Hrange Hradius Hfuel.
  destruct (SearchRadius_spec points_ p _ _ _ Hctor fuel radius n HD Hrange Hfuel)
    as (found & Hrun & Hfound).
  unfold brute_force_radius in Hfound.
  rewrite within_radius_none in Hfound.
  - apply Permutation_nil_r in Hfound as ->. done.
  - intros id _. pose proof (sq_dist_nonneg points_ p id). lia.
Qed.
End knn_properties.

Section knn_examples.
#[local] Existing Instance int32_limits.
#[local] Existing Instance stale_index.
#[local] Existing Instance sort_nth_element.

Lemma SearchKnn_visit_inserts_in_order_witness :
  ∃ v', internal.SearchKnn_visit (internal.mkSearchKnn 2 2 [(0, 1); (2, 4)]) 3 9
        = Ok v' ∧
        knn_wf v' ∧ internal.k_ v' = 2 ∧
        StronglySorted by_distance (kept v') ∧
        (2 < 2 → internal.count_ v' = 2 + 1 ∧
                 kept v' ≡ₚ (3, 9) :: kept (internal.mkSearchKnn 2 2 [(0, 1); (2, 4)])) ∧
        (2 = 2 → internal.count_ v' = 2 ∧
                 ∃ front far,
                   kept (internal.mkSearchKnn 2 2 [(0, 1); (2, 4)]) = front ++ [far] ∧
                   kept v' ≡ₚ (3, 9) :: front).
Proof.
  refine (SearchKnn_visit_inserts_in_order
            (internal.mkSearchKnn 2 2 [(0, 1); (2, 4)]) 3 9 _).
  unfold knn_wf. simpl. split_and!; [lia..|reflexivity| |intros; lia].
  unfold kept. simpl. repeat constructor; unfold by_distance; simpl; lia.
Defined.

Lemma SearchKnn_returns_distinct_points_in_order_witness :
  ∃ found,
    SearchKnn four_points 4 (point_of_list [0; 1]) 7 [(3, 3)] four_points_two_leaves
    = Ok (found, four_points_two_leaves) ∧
    StronglySorted by_distance found ∧
    found ⊆+ distances four_points (point_of_list [0; 1])
               (seqZ 0 (num_points four_points)) ∧
    Z.of_nat (length found) = 7 `min` num_points four_points ∧
    (num_points four_points ≤ 7 →
     found ≡ₚ distances four_points (point_of_list [0; 1])
                (seqZ 0 (num_points four_points))).
Proof.
  assert (Hctor : KdTree_ctor four_points 5 2 = Ok four_points_two_leaves)
    by (vm_compute; reflexivity).
  assert (Hbelow : ∀ id, 0 ≤ id < num_points four_points →
                         sq_dist four_points (point_of_list [0; 1]) id < Scalar_max).
  { intros id Hid.
    assert (id = 0 ∨ id = 1 ∨ id = 2 ∨ id = 3) as [-> | [-> | [-> | ->]]]
      by (change (num_points four_points) with 4 in Hid; lia);
      vm_compute; reflexivity. }
  refine (SearchKnn_returns_distinct_points_in_order four_points 5 2
            four_points_two_leaves 4 (point_of_list [0; 1]) 7 [(3, 3)]
            Hctor _ Hbelow _ _);
    [reflexivity|lia|vm_compute; lia].
Defined.

Lemma SearchKnn_is_exact_with_single_point_leaves_witness :
  ∃ found rest,
    SearchKnn four_points 4 (point_of_list [0; 1]) 2 [(3, 3)] four_points_index
    = Ok (found, four_points_index) ∧
    found ++ rest ≡ₚ distances four_points (point_of_list [0; 1])
                       (seqZ 0 (num_points four_points)) ∧
    Z.of_nat (length found) = 2 `min` num_points four_points ∧
    ∀ x e, x ∈ found → e ∈ rest → x.2 ≤ e.2.
Proof.
  assert (Hctor : KdTree_ctor four_points 5 1 = Ok four_points_index)
    by (vm_compute; reflexivity).
  assert (Hbelow : ∀ id, 0 ≤ id < num_points four_points →
                         sq_dist four_points (point_of_list [0; 1]) id < Scalar_max).
  { intros id Hid.
    assert (id = 0 ∨ id = 1 ∨ id = 2 ∨ id = 3) as [-> | [-> | [-> | ->]]]
      by (change (num_points four_points) with 4 in Hid; lia);
      vm_compute; reflexivity. }
  refine (SearchKnn_is_exact_with_single_point_leaves four_points 5
            four_points_index 4 (point_of_list [0; 1]) 2 [(3, 3)]
            Hctor _ Hbelow _ _);
    [reflexivity|lia|vm_compute; lia].
Defined.

Lemma SearchRadius_finds_nothing_within_no_radius_witness :
  SearchRadius four_points 4 (point_of_list [0; 0]) 0 [(3, 3)] four_points_index
  = Ok ([], four_points_index).
Proof.
  assert (Hctor : KdTree_ctor four_points 5 1 = Ok four_points_index)
    by (vm_compute; reflexivity).
  assert (Hrange : ∀ id, 0 ≤ id < num_points four_points →
                         sq_dist four_points (point_of_list [0; 0]) id ≤ Scalar_max).
  { intros id Hid.
    assert (id = 0 ∨ id = 1 ∨ id = 2 ∨ id = 3) as [-> | [-> | [-> | ->]]]
      by (change (num_points four_points) with 4 in Hid; lia);
      by vm_compute. }
  refine (SearchRadius_finds_nothing_within_no_radius four_points 5 1
            four_points_index 4 (point_of_list [0; 0]) 0 [(3, 3)] Hctor _ Hrange _ _);
    [reflexivity|lia|vm_compute; lia].
Defined.
End knn_examples.

(** ** One nearest neighbour, asked for in two ways *)

Section one_nearest.
Context `{SL : ScalarLimits}.
Variable points_ : Points.
Variable p : P.

(** The nearest-neighbour visitor and the k-nearest visitor with k = 1 hold
    the same pair after the same reports: SearchKnn with k = 1 returns the
    pair that the nearest-neighbour visitor holds as its only neighbour,
    and no neighbour when nothing was reported. *)
Lemma SearchKnn_1_follows_SearchNn fuel t (v1 : internal.SearchNn) t1 knn :
  SearchNn_node points_ fuel p (root_ t) internal.SearchNn_ctor t = Ok (v1, t1) →
  SearchKnn points_ fuel p 1 knn t
  = Ok (match internal.idx_ v1 with
        | Some idx => [(idx, internal.min_ v1)]
        | None => []
        end, t1).
Proof.
  intros Hnode.
  set (R := λ (v1 : internal.SearchNn) (v2 : internal.SearchKnn),
         internal.k_ v2 = 1 ∧
         ∃ e, internal.knn_ v2 = [e] ∧ e.2 = internal.min_ v1 ∧
              ((internal.count_ v2 = 0 ∧ internal.idx_ v1 = None) ∨
               (internal.count_ v2 = 1 ∧ internal.idx_ v1 = Some e.1))).
  destruct (SearchKnn_ctor_wf 1 knn) as (v0 & Hctor & Hv0 & Hk0 & Hcount0); [lia|].
  assert (HR0 : R internal.SearchNn_ctor v0).
  { destruct Hv0 as (_ & _ & Hlen & _ & Hsentinel).
    rewrite Hk0, Hcount0 in Hsentinel. specialize (Hsentinel ltac:(lia)).
    rewrite Hk0 in Hlen.
    destruct (internal.knn_ v0) as [|e [|e' rest]] eqn:Hknn; simpl in Hlen; try lia.
    simpl in Hsentinel. injection Hsentinel as He.
    split; [done|]. exists e. split_and!; [done..|]. by left. }
  assert (HR_max : ∀ w1 w2, R w1 w2 →
            res_rel eq (internal.v_max w1) (internal.v_max w2)).
  { intros w1 w2 (Hk & e & Hknn & He & _). simpl.
    unfold internal.SearchKnn_max. rewrite Hk, Hknn. simpl. by rewrite He. }
  assert (HR_visit : ∀ w1 w2 idx, R w1 w2 → idx ∈ indices_ t →
            res_rel R (internal.visit w1 idx (MetricL2 points_ p idx))
                      (internal.visit w2 idx (MetricL2 points_ p idx))).
  { intros w1 w2 idx (Hk & e & Hknn & He & Hcount) _. simpl.
    unfold internal.SearchKnn_visit, internal.InsertSorted.
    destruct Hcount as [[Hc _]|[Hc _]].
    - rewrite decide_True by lia. simpl. rewrite Hk, Hknn, Hc. simpl.
      unfold R. simpl.
      split; [done|]. eexists. split_and!; [done..|]. by right.
    - rewrite decide_False by lia. rewrite Hk, Hknn, Hc. simpl.
      unfold R. simpl.
      split; [done|]. eexists. split_and!; [done..|]. by right. }
  pose proof (SearchNn_node_sim points_ R p t HR_max HR_visit) as Hsim.
  specialize (Hsim fuel (root_ t) _ _ HR0).
  unfold M_rel in Hsim. rewrite Hnode in Hsim.
  destruct (SearchNn_node points_ fuel p (root_ t) v0 t) as [[v2 t2]|f] eqn:Hnode2;
    [|done].
  simpl in Hsim. destruct Hsim as ((Hk & e & Hknn & He & Hcount) & -> & ->).
  unfold SearchKnn, bind, lift, load_root. rewrite Hctor, Hnode2.
  unfold internal.SearchKnn_dtor, vec_resize.
  destruct Hcount as [[Hcount ->]|[Hcount ->]]; rewrite Hcount, Hknn; simpl.
  - done.
  - rewrite <- He. by destruct e.
Qed.
End one_nearest.

Section one_nearest_property.
Context `{SL : ScalarLimits} `{IN : Indeterminate}.
Context `{E : NthElement} `{!NthElementSpec E}.
Variable points_ : Points.

(** X16: on a constructed index (any max_leaf_size) over N points, each
    of which MetricL2 puts at a distance below the largest Scalar from the
    query, SearchNn, given fuel for the depth of the tree, returns a pair,
    and SearchKnn with k = 1 returns that very pair as its only neighbour,
    whatever the caller's vector held. *)
Theorem SearchKnn_with_k_1_returns_what_SearchNn_returns
    fuel0 max_leaf_size kd fuel p knn :
  KdTree_ctor points_ fuel0 max_leaf_size = Ok kd →
  (∀ id, 0 ≤ id < num_points points_ → MetricL2 points_ p id < Scalar_max) →
  (Z.to_nat (num_points points_) ≤ fuel)%nat →
  ∃ nn, SearchNn points_ fuel p kd = Ok (nn, kd) ∧
        SearchKnn points_ fuel p 1 knn kd = Ok ([nn], kd).
Proof.
  intros Hctor Hbelow Hfuel.
  destruct (KdTree_ctor_Ok_inv points_ _ _ _ Hctor) as [HN Hmls].
  pose proof (KdTree_ctor_spec _ _ _ _ Hctor)
    as (_ & Hlen & Hperm & tr & Hrepr & Hlo & Hhi & Hwf & Hdims & Hne).
  destruct (Hne Hmls) as [Hnonempty Hheight].
  destruct (SearchNn_node_nearest points_ p kd) with
    (tr := tr) (fuel := fuel) (node := root_ kd) (v := internal.SearchNn_ctor)
    as (v & Hrun & Hv); [|done|done|done|lia|by right|].
  { intros idx Hidx. by apply Hbelow, (elem_of_indices points_ _ _ _ Hctor). }
  destruct (internal.idx_ v) as [idx|] eqn:Hidx; [|done].
  exists (idx, internal.min_ v). split.
  - unfold SearchNn, bind, ret, load_root, internal.nearest.
    by rewrite Hrun, Hidx.
  - rewrite (SearchKnn_1_follows_SearchNn points_ p fuel kd v kd knn Hrun).
    by rewrite Hidx.
Qed.
End one_nearest_property.

Section one_nearest_examples.
#[local] Existing Instance int32_limits.
#[local] Existing Instance stale_index.
#[local] Existing Instance sort_nth_element.

Lemma SearchKnn_with_k_1_returns_what_SearchNn_returns_witness :
  ∃ nn, SearchNn two_points 2 (point_of_list [0]) two_points_one_leaf
        = Ok (nn, two_points_one_leaf) ∧
        SearchKnn two_points 2 (point_of_list [0]) 1 [(3, 3); (4, 4)]
          two_points_one_leaf
        = Ok ([nn], two_points_one_leaf).
Proof.
  assert (Hctor : KdTree_ctor two_points 1 2 = Ok two_points_one_leaf)
    by (vm_compute; reflexivity).
  assert (Hbelow : ∀ id, 0 ≤ id < num_points two_points →
                         MetricL2 two_points (point_of_list [0]) id < Scalar_max).
  { intros id Hid.
    assert (id = 0 ∨ id = 1) as [-> | ->]
      by (change (num_points two_points) with 2 in Hid; lia);
      vm_compute; reflexivity. }
  refine (SearchKnn_with_k_1_returns_what_SearchNn_returns two_points 1 2
            two_points_one_leaf 2 (point_of_list [0]) [(3, 3); (4, 4)]
            Hctor Hbelow _).
  vm_compute. lia.
Defined.
End one_nearest_examples.
